(** * LiveCaptions line generator ([src/line-gen.c])

    A shallow embedding of the token capitalizer and of the line generator
    (the ring of caption lines that [line_generator_update] re-renders from
    the whole token array on every call), with the properties the
    specification states about them. *)

From Stdlib Require Import ZArith List Bool Ascii String Lia.
From Stdlib Require Import DecimalString.
From Stdlib Require DecimalFacts.
From Stdlib Require Import Floats.SpecFloat.
Import ListNotations.

Local Open Scope Z_scope.

(** ** Tokens (april_api.h) *)

(** Modelled from the spec: the flag bits of [april_api.h], a header of the
    speech engine that is not part of the sources; the spec fixes only that
    the flags are a bitset holding WORD_BOUNDARY and SENTENCE_END. *)
Definition APRIL_TOKEN_FLAG_WORD_BOUNDARY_BIT : Z := 1.
Definition APRIL_TOKEN_FLAG_SENTENCE_END_BIT : Z := 2.

(** A C string is kept as its bytes, the terminating NUL excluded. *)
Definition bytes := list ascii.

Definition c_str (s : string) : bytes := list_ascii_of_string s.

(** [AprilToken]: the text, the log-probability (a C [float], kept here as
    the IEEE-754 value it is promoted to in double arithmetic) and the flag
    bitset. *)
Record AprilToken := mkToken {
  token : string;
  logprob : spec_float;
  flags : Z
}.

Definition has_flag (fl bit : Z) : bool := negb (Z.land fl bit =? 0).

(** ** Token capitalizer *)

Record token_capitalizer := mkTcap {
  is_english : bool;
  previous_was_period : bool;
  force_next_cap : bool;
  finished_at_period : bool
}.

Definition token_capitalizer_init : token_capitalizer :=
  {| is_english := true;
     previous_was_period := true;
     force_next_cap := false;
     finished_at_period := false |}.

Definition set_previous_was_period (b : bool) (tc : token_capitalizer) :=
  {| is_english := is_english tc;
     previous_was_period := b;
     force_next_cap := force_next_cap tc;
     finished_at_period := finished_at_period tc |}.

Definition set_force_next_cap (b : bool) (tc : token_capitalizer) :=
  {| is_english := is_english tc;
     previous_was_period := previous_was_period tc;
     force_next_cap := b;
     finished_at_period := finished_at_period tc |}.

Definition set_is_english (b : bool) (tc : token_capitalizer) :=
  {| is_english := b;
     previous_was_period := previous_was_period tc;
     force_next_cap := force_next_cap tc;
     finished_at_period := finished_at_period tc |}.

(** [token[0] == ' ' && token[1] == 0] *)
Definition is_bare_space (tok : string) : bool :=
  match tok with
  | String c EmptyString => Ascii.eqb c " "
  | _ => false
  end.

(** [token[0] == ' ' && token[1] == 'I' && token[2] == 0] *)
Definition is_pronoun_I (tok : string) : bool :=
  match tok with
  | String c (String d EmptyString) => Ascii.eqb c " " && Ascii.eqb d "I"
  | _ => false
  end.

(** [subsequent_token[0] == '\''] *)
Definition starts_with_apostrophe (tok : string) : bool :=
  match tok with
  | String c _ => Ascii.eqb c "'"
  | EmptyString => false
  end.

(** [token_capitalizer_next]: the new capitalizer state and the decision.
    [subsequent] is [None] where the C code passes [NULL, 0]. *)
Definition token_capitalizer_next (tc : token_capitalizer) (tok : string)
    (fl : Z) (subsequent : option (string * Z)) : token_capitalizer * bool :=
  if has_flag fl APRIL_TOKEN_FLAG_SENTENCE_END_BIT then
    (set_previous_was_period true tc, false)
  else if force_next_cap tc then
    (set_force_next_cap false tc, true)
  else if previous_was_period tc
          && has_flag fl APRIL_TOKEN_FLAG_WORD_BOUNDARY_BIT then
    let tc1 := if is_bare_space tok then set_force_next_cap true tc else tc in
    (set_previous_was_period false tc1, true)
  else if is_english tc && is_pronoun_I tok then
    match subsequent with
    | Some (stok, sfl) =>
        if has_flag sfl (Z.lor APRIL_TOKEN_FLAG_WORD_BOUNDARY_BIT
                               APRIL_TOKEN_FLAG_SENTENCE_END_BIT)
           || starts_with_apostrophe stok
        then (tc, true) else (tc, false)
    | None => (tc, true)
    end
  else (tc, false).

Definition token_capitalizer_finish (tc : token_capitalizer) :=
  {| is_english := is_english tc;
     previous_was_period := false;
     force_next_cap := false;
     finished_at_period := previous_was_period tc |}.

Definition token_capitalizer_rewind (tc : token_capitalizer) :=
  {| is_english := is_english tc;
     previous_was_period := finished_at_period tc;
     force_next_cap := false;
     finished_at_period := finished_at_period tc |}.

(** The first loop of [line_generator_update]: one left-to-right scan that
    fills [should_capitalize], each token seeing its successor when it has
    one. *)
Fixpoint capitalize_scan (tc : token_capitalizer) (tokens : list AprilToken)
    : token_capitalizer * list bool :=
  match tokens with
  | [] => (tc, [])
  | t :: rest =>
      let subsequent :=
        match rest with
        | [] => None
        | t' :: _ => Some (token t', flags t')
        end in
      let '(tc1, b) := token_capitalizer_next tc (token t) (flags t) subsequent in
      let '(tc2, bs) := capitalize_scan tc1 rest in
      (tc2, b :: bs)
  end.

(** ** Machine integers *)

(** [size_t] is unsigned 64-bit: a conversion to it wraps. *)
Definition size_t_of (z : Z) : Z := z mod 2 ^ 64.

Definition INT_MIN : Z := - 2 ^ 31.
Definition INT_MAX : Z := 2 ^ 31 - 1.

(** ** Confidence fade

    [int alpha = (int)((logprob + 2.0) / 8.0 * 65536.0); alpha /= 2.0;
     alpha += 32768;] and the two clamps. The arithmetic before the cast is
    IEEE-754 binary64, as C evaluates it. *)

Definition dprec : Z := 53.
Definition demax : Z := 1024.

Definition double_of_Z (n : Z) : spec_float := binary_normalize dprec demax n 0 false.

Definition d_2_0 : spec_float := Eval cbv in double_of_Z 2.
Definition d_8_0 : spec_float := Eval cbv in double_of_Z 8.
Definition d_65536_0 : spec_float := Eval cbv in double_of_Z 65536.

(** Promotion of a [float] to [double]: exact, the value renormalised to a
    53-bit mantissa. *)
Definition double_of_float (x : spec_float) : spec_float :=
  match x with
  | S754_finite s m e => binary_round dprec demax s m e
  | _ => x
  end.

(** The cast [(int)d]: truncation toward zero; the conversion of a NaN, an
    infinity or a value outside the range of [int] is undefined in C, here
    [None]. *)
Definition double_to_int (d : spec_float) : option Z :=
  match d with
  | S754_zero _ => Some 0
  | S754_finite s m e =>
      let mag := Z.shiftl (Zpos m) e in
      let v := if s then - mag else mag in
      if (INT_MIN <=? v) && (v <=? INT_MAX) then Some v else None
  | _ => None
  end.

Definition scaled_confidence (lp : spec_float) : option Z :=
  double_to_int
    (SFmul dprec demax
       (SFdiv dprec demax (SFadd dprec demax (double_of_float lp) d_2_0) d_8_0)
       d_65536_0).

(** What follows the first cast. [alpha /= 2.0] converts the [int] to
    [double], halves it (both exact) and truncates back: [Z.quot]. *)
Definition clamp_alpha (a0 : Z) : Z :=
  let a1 := Z.quot a0 2 in
  let a2 := a1 + 32768 in
  let a3 := if a2 <? 10000 then 10000 else a2 in
  if a3 >? 65535 then 65535 else a3.

Definition fade_alpha (lp : spec_float) : option Z :=
  option_map clamp_alpha (scaled_confidence lp).

(** ** Settings and external services *)

(** The four GSettings keys [line_generator_update] reads. *)
Record gsettings := mkSettings {
  fade_text : bool;
  filter_slurs : bool;
  filter_profanity : bool;
  text_uppercase : bool
}.

(** [FilterMode] of [profanity-filter.h], in its order
    [NONE < SLURS < PROFANITY]. *)
Inductive FilterMode := FILTER_NONE | FILTER_SLURS | FILTER_PROFANITY.

Definition filter_mode_of (cfg : gsettings) : FilterMode :=
  if filter_profanity cfg then FILTER_PROFANITY
  else if filter_slurs cfg then FILTER_SLURS else FILTER_NONE.

Definition filter_active (m : FilterMode) : bool :=
  match m with FILTER_NONE => false | _ => true end.

(** ** Lines *)

(** [struct line]: [text] is the NUL-terminated content of the buffer (the
    bytes before the first NUL); the cursors and widths are C [int]s. *)
Record line := mkLine {
  text : bytes;
  start_head : Z;
  start_len : Z;
  head : Z;
  len : Z
}.

(** What a reader of the C string sees after [sprintf(&text[pos], "%s", s)]
    (with [s] free of NUL): a write at or before the terminator replaces the
    tail, a write past it stays invisible. [text[pos] = '\0'] is the case
    [s = []]. *)
Definition write_at (pos : Z) (s : bytes) (t : bytes) : bytes :=
  if pos <=? Z.of_nat (List.length t)
  then firstn (Z.to_nat pos) t ++ s
  else t.

Record line_generator := mkLg {
  current_line : Z;
  active_start_of_lines : Z -> Z;
  lines : Z -> line;
  max_text_width : Z;
  lg_is_english : bool;
  tcap : token_capitalizer
}.

(** Array store [a[i] = v]. *)
Definition upd {A : Type} (a : Z -> A) (i : Z) (v : A) : Z -> A :=
  fun k => if k =? i then v else a k.

Definition set_line (i : Z) (l : line) (lg : line_generator) : line_generator :=
  {| current_line := current_line lg;
     active_start_of_lines := active_start_of_lines lg;
     lines := upd (lines lg) i l;
     max_text_width := max_text_width lg;
     lg_is_english := lg_is_english lg;
     tcap := tcap lg |}.

Definition set_active (i : Z) (v : Z) (lg : line_generator) : line_generator :=
  {| current_line := current_line lg;
     active_start_of_lines := upd (active_start_of_lines lg) i v;
     lines := lines lg;
     max_text_width := max_text_width lg;
     lg_is_english := lg_is_english lg;
     tcap := tcap lg |}.

Definition set_current_line (c : Z) (lg : line_generator) : line_generator :=
  {| current_line := c;
     active_start_of_lines := active_start_of_lines lg;
     lines := lines lg;
     max_text_width := max_text_width lg;
     lg_is_english := lg_is_english lg;
     tcap := tcap lg |}.

Definition set_tcap (tc : token_capitalizer) (lg : line_generator) : line_generator :=
  {| current_line := current_line lg;
     active_start_of_lines := active_start_of_lines lg;
     lines := lines lg;
     max_text_width := max_text_width lg;
     lg_is_english := lg_is_english lg;
     tcap := tc |}.

Definition set_start (sh sl : Z) (l : line) : line :=
  {| text := text l; start_head := sh; start_len := sl;
     head := head l; len := len l |}.

Definition set_len (n : Z) (l : line) : line :=
  {| text := text l; start_head := start_head l; start_len := start_len l;
     head := head l; len := n |}.

(** The three stores that open each slot's pass:
    [text[start_head] = 0; head = start_head; len = start_len]. *)
Definition reset_line (l : line) : line :=
  {| text := write_at (start_head l) [] (text l);
     start_head := start_head l; start_len := start_len l;
     head := start_head l; len := start_len l |}.

(** [head += sprintf(&text[head], ..., s)] *)
Definition append_line (s : bytes) (l : line) : line :=
  {| text := write_at (head l) s (text l);
     start_head := start_head l; start_len := start_len l;
     head := head l + Z.of_nat (List.length s); len := len l |}.

(** ** Outcomes

    What the C code leaves undefined is a [fault] here: a store past
    [should_capitalize[1024]], a read past the token array, a store outside
    a line buffer (which is also when [g_assert(head < AC_LINE_MAX)] fails),
    and the cast of an out-of-range confidence. *)
Inductive fault :=
| CapitalizeOverflow
| TokenOutOfRange
| LineOverflow
| AlphaCast.

(** The two tail calls [return line_generator_update(...)]: line 169 (the
    growing line starts past the end of the tokens) and line 257 (the
    growing line is full). *)
Inductive retry := Backtrack | Wrap.

(** One pass of [line_generator_update] either completes, or ends in one of
    the tail calls, or faults. *)
Inductive outcome :=
| Done (lg : line_generator)
| Retry (r : retry) (lg : line_generator)
| Fault (f : fault).

(** The inner loop over one line's tokens ends normally (also by the
    [must_break] exit), asks for a wrap at [tgt_brk], or faults. *)
Inductive line_outcome :=
| LDone (l : line)
| LWrap (tgt_brk : Z) (l : line)
| LFault (f : fault).

Definition MAX_TOKEN_SCRATCH : Z := 72.

Definition dquote : ascii := ascii_of_nat 34.

(** [printf]'s [%d]. *)
Definition decimal (z : Z) : bytes :=
  c_str (DecimalString.NilZero.string_of_int (Z.to_int z)).

(** ["<span fgalpha=\"%d\">%s</span>"] *)
Definition span_markup (alpha : Z) (tok : bytes) : bytes :=
  c_str "<span fgalpha=" ++ [dquote] ++ decimal alpha ++ [dquote]
    ++ c_str ">" ++ tok ++ c_str "</span>".

(** The two [sprintf] formats of lines 268-271. *)
Definition format_token (use_fade : bool) (alpha : Z) (tok : bytes) : bytes :=
  if use_fade then span_markup alpha tok else tok.

(** [tokens[k].flags], for a [k] inside the array. *)
Definition flags_at (tokens : list AprilToken) (k : Z) : Z :=
  match nth_error tokens (Z.to_nat k) with
  | Some t => flags t
  | None => 0
  end.

(** [while((!(tokens[tgt_brk].flags & WORD_BOUNDARY)) && (tgt_brk > start_of_line)) tgt_brk--;]
    The loop steps back at most [tgt_brk - start_of_line] times, which is
    the fuel it is run with. *)
Fixpoint find_word_boundary (tokens : list AprilToken) (start_of_line : Z)
    (fuel : nat) (tgt_brk : Z) : Z :=
  match fuel with
  | O => tgt_brk
  | S fuel' =>
      if negb (has_flag (flags_at tokens tgt_brk) APRIL_TOKEN_FLAG_WORD_BOUNDARY_BIT)
         && (tgt_brk >? start_of_line)
      then find_word_boundary tokens start_of_line fuel' (tgt_brk - 1)
      else tgt_brk
  end.

(** The wrap point chosen when token [j] overflows the growing line. *)
Definition wrap_target (tokens : list AprilToken) (start_of_line : Z)
    (curr_start_head : Z) (j : Z) : Z :=
  let tgt_brk :=
    find_word_boundary tokens start_of_line (Z.to_nat (j - start_of_line)) j in
  if (tgt_brk =? start_of_line) && (curr_start_head =? 0) then j else tgt_brk.

(** ** What the sources take from elsewhere

    The constants of [line-gen.h] and [profanity-filter.h] (headers of the
    repository that are not among the sources), the filter provider, Pango's
    text measurement and the GLib functions the renderer calls. *)
Record externals := mkExternals {
  AC_LINE_COUNT : Z;
  AC_LINE_MAX : Z;
  SWEAR_REPLACEMENT : bytes;
  (** [get_filter_skip(tokens, j, num_tokens, mode)] *)
  get_filter_skip : list AprilToken -> Z -> Z -> FilterMode -> Z;
  (** the width [pango_layout_get_size] reports for a text *)
  pango_text_width : bytes -> Z;
  g_utf8_get_char_validated : bytes -> Z;
  g_utf8_next_char : bytes -> bytes;
  g_unichar_tolower : Z -> Z;
  g_unichar_toupper : Z -> Z;
  g_unichar_to_utf8 : Z -> bytes
}.

Section LineGenerator.

Variable E : externals.

Definition PANGO_SCALE : Z := 1024.

Definition line_generator_get_text_width (t : bytes) : Z :=
  Z.quot (pango_text_width E t) PANGO_SCALE.

(** [REL_LINE_IDX(HEAD, IDX)], computed in [size_t]. *)
Definition REL_LINE_IDX (hd idx : Z) : Z :=
  size_t_of (4 * AC_LINE_COUNT E + hd + idx) mod AC_LINE_COUNT E.

(** The slots the [for] loops visit: [0 .. AC_LINE_COUNT - 1]. *)
Definition slots : list Z :=
  map Z.of_nat (seq 0 (Z.to_nat (AC_LINE_COUNT E))).

Definition in_array (i : Z) : bool := (0 <=? i) && (i <? AC_LINE_COUNT E).

(** *** Lower-casing with the capitalize override (lines 186-222)

    [p] is what remains of the token, [out] what [token_scratch] holds,
    [cap] is [should_be_capitalized]. [g_utf8_next_char] advances by at
    least a byte, so the length of the token bounds the iterations. *)
Fixpoint lowercase_loop (fuel : nat) (p out : bytes) (cap : bool) : bytes :=
  match fuel with
  | O => out
  | S fuel' =>
      match p with
      | [] => out
      | _ :: _ =>
          let c := g_utf8_get_char_validated E p in
          if (c =? 2 ^ 32 - 2) || (c =? 2 ^ 32 - 1) then out
          else
            let c := g_unichar_tolower E c in
            let c1 := g_unichar_toupper E c in
            let upper := cap && negb (c =? c1) in
            let c := if upper then c1 else c in
            let cap := if upper then false else cap in
            let out := out ++ g_unichar_to_utf8 E c in
            if Z.of_nat (List.length out) + 6 >=? MAX_TOKEN_SCRATCH then out
            else lowercase_loop fuel' (g_utf8_next_char E p) out cap
      end
  end.

Definition lowercase_token (tok : bytes) (cap : bool) : bytes :=
  lowercase_loop (List.length tok) tok [] cap.

(** *** The text drawn for token [j] and the scan increment
    (lines 181-231) *)
Definition select_token (cfg : gsettings) (tokens : list AprilToken)
    (should_capitalize : list bool) (j : Z) (tk : AprilToken) : bytes * Z :=
  let num_tokens := Z.of_nat (List.length tokens) in
  let tok :=
    if negb (text_uppercase cfg)
    then lowercase_token (c_str (token tk))
                         (nth (Z.to_nat j) should_capitalize false)
    else c_str (token tk) in
  if filter_active (filter_mode_of cfg)
     && has_flag (flags tk) APRIL_TOKEN_FLAG_WORD_BOUNDARY_BIT
  then
    let skip := get_filter_skip E tokens j num_tokens (filter_mode_of cfg) in
    if skip >? 0 then (SWEAR_REPLACEMENT E, skip) else (tok, 1)
  else (tok, 1).

(** *** The loop that prints one line (lines 180-276)

    [j] only grows (the increment is 1 or a positive skip-length), so
    [end_ - j] iterations are enough; the loop is run with that fuel. *)
Fixpoint print_line (cfg : gsettings) (tokens : list AprilToken)
    (should_capitalize : list bool) (is_current : bool)
    (start_of_line max_width end_ : Z)
    (fuel : nat) (j : Z) (curr : line) : line_outcome :=
  match fuel with
  | O => LDone curr
  | S fuel' =>
      if j <? end_ then
        match nth_error tokens (Z.to_nat j) with
        | None => LFault TokenOutOfRange
        | Some tk =>
            let '(tok, skipahead) :=
              select_token cfg tokens should_capitalize j tk in
            if head curr >? AC_LINE_MAX E - 256 then LDone curr
            else
              let curr1 :=
                if is_current
                then set_len (len curr + line_generator_get_text_width tok) curr
                else curr in
              if is_current && (len curr1 >=? max_width) then
                LWrap (wrap_target tokens start_of_line (start_head curr) j) curr1
              else
                match fade_alpha (logprob tk) with
                | None => LFault AlphaCast
                | Some alpha =>
                    let s := format_token (fade_text cfg) alpha tok in
                    let curr2 := append_line s curr1 in
                    if head curr2 <? AC_LINE_MAX E
                    then print_line cfg tokens should_capitalize is_current
                           start_of_line max_width end_
                           fuel' (j + skipahead) curr2
                    else LFault LineOverflow
                end
        end
      else LDone curr
  end.

(** *** One slot of the pass (the body of the [for] over [i],
    lines 151-276) *)
Definition update_line (cfg : gsettings) (tokens : list AprilToken)
    (should_capitalize : list bool) (i : Z) (lg : line_generator) : outcome :=
  let num_tokens := Z.of_nat (List.length tokens) in
  if active_start_of_lines lg i =? -1 then Done lg
  else
    let start_of_line := size_t_of (active_start_of_lines lg i) in
    let curr := lines lg i in
    if (start_head curr <? 0) || (start_head curr >=? AC_LINE_MAX E)
    then Fault LineOverflow
    else
      let curr := reset_line curr in
      let lg := set_line i curr lg in
      if num_tokens =? 0 then Done lg
      else if start_of_line >=? num_tokens then
        if i =? current_line lg then
          let lg := set_active (current_line lg) (-1) lg in
          Retry Backtrack
            (set_current_line (REL_LINE_IDX (current_line lg) (-1)) lg)
        else Done lg
      else
        let end0 := active_start_of_lines lg (REL_LINE_IDX i 1) in
        let end_ :=
          if (end0 =? -1) || (i =? current_line lg) then num_tokens
          else size_t_of end0 in
        match print_line cfg tokens should_capitalize (i =? current_line lg)
                start_of_line (max_text_width lg) end_
                (Z.to_nat (end_ - start_of_line)) start_of_line curr with
        | LDone curr' => Done (set_line i curr' lg)
        | LWrap tgt_brk curr' =>
            let lg := set_line i curr' lg in
            let lg := set_current_line (REL_LINE_IDX (current_line lg) 1) lg in
            let lg := set_active (current_line lg) tgt_brk lg in
            Retry Wrap
              (set_line (current_line lg)
                 (set_start 0 0 (lines lg (current_line lg))) lg)
        | LFault f => Fault f
        end.

(** The [for] loop over the slots; a tail call or a fault leaves it. *)
Fixpoint update_lines (cfg : gsettings) (tokens : list AprilToken)
    (should_capitalize : list bool) (idxs : list Z) (lg : line_generator)
    : outcome :=
  match idxs with
  | [] => Done lg
  | i :: rest =>
      match update_line cfg tokens should_capitalize i lg with
      | Done lg' => update_lines cfg tokens should_capitalize rest lg'
      | other => other
      end
  end.

(** *** One pass: the body of [line_generator_update] up to its return or
    its tail call *)
Definition update_pass (cfg : gsettings) (tokens : list AprilToken)
    (lg : line_generator) : outcome :=
  if Z.of_nat (List.length tokens) >? 1024 then Fault CapitalizeOverflow
  else
    let '(tc, should_capitalize) :=
      capitalize_scan (token_capitalizer_rewind (tcap lg)) tokens in
    update_lines cfg tokens should_capitalize slots (set_tcap tc lg).

(** *** [line_generator_update]

    At most [fuel] passes are run; [None] means that the last of them
    still ended in a tail call. The result also lists the tail calls
    taken, in order. *)
Fixpoint update_trace (cfg : gsettings) (tokens : list AprilToken)
    (fuel : nat) (lg : line_generator)
    : option (list retry * (line_generator + fault)) :=
  match fuel with
  | O => None
  | S fuel' =>
      match update_pass cfg tokens lg with
      | Done lg' => Some ([], inl lg')
      | Retry r lg' =>
          match update_trace cfg tokens fuel' lg' with
          | Some (rs, res) => Some (r :: rs, res)
          | None => None
          end
      | Fault f => Some ([], inr f)
      end
  end.

Definition line_generator_update (cfg : gsettings) (tokens : list AprilToken)
    (fuel : nat) (lg : line_generator) : option (line_generator + fault) :=
  option_map snd (update_trace cfg tokens fuel lg).

(** *** The other entry points *)

Definition line_generator_init (lg : line_generator) : line_generator :=
  {| current_line := 0;
     active_start_of_lines :=
       upd (fun i => if in_array i then -1 else active_start_of_lines lg i) 0 0;
     lines := fun i => if in_array i then set_start 0 0 (lines lg i)
                       else lines lg i;
     max_text_width := max_text_width lg;
     lg_is_english := lg_is_english lg;
     tcap := token_capitalizer_init |}.

Definition deactivate_all (lg : line_generator) : line_generator :=
  {| current_line := current_line lg;
     active_start_of_lines :=
       fun i => if in_array i then -1 else active_start_of_lines lg i;
     lines := lines lg;
     max_text_width := max_text_width lg;
     lg_is_english := lg_is_english lg;
     tcap := tcap lg |}.

Definition line_generator_finalize (lg : line_generator) : line_generator :=
  let lg1 := deactivate_all lg in
  let c := current_line lg1 in
  let cur := lines lg1 c in
  let lg2 := set_line c (set_start (head cur) (len cur) cur) lg1 in
  let lg3 := set_tcap (token_capitalizer_finish (tcap lg2)) lg2 in
  set_active c 0 lg3.

Definition line_generator_break (lg : line_generator) : line_generator :=
  let lg1 := set_current_line (REL_LINE_IDX (current_line lg) 1) lg in
  let lg2 := deactivate_all lg1 in
  let c := current_line lg2 in
  let lg3 := set_active c 0 lg2 in
  set_line c {| text := []; start_head := 0; start_len := 0;
                head := 0; len := 0 |} lg3.

(** [language[0] == 'e' && language[1] == 'n'] *)
Definition language_is_english (language : string) : bool :=
  match language with
  | String c (String d _) => Ascii.eqb c "e" && Ascii.eqb d "n"
  | _ => false
  end.

Definition line_generator_set_language (language : string)
    (lg : line_generator) : line_generator :=
  let e := language_is_english language in
  {| current_line := current_line lg;
     active_start_of_lines := active_start_of_lines lg;
     lines := lines lg;
     max_text_width := max_text_width lg;
     lg_is_english := e;
     tcap := set_is_english e (tcap lg) |}.

End LineGenerator.

(** ** A reference instance

    The examples run the model on a two-line display with 4096-byte line
    buffers, with GLib restricted to ASCII (one byte per character, any
    other byte undecodable), a text width of one unit per byte times
    [unit_width], and a filter provider given as a parameter. *)

Definition ascii_get_char_validated (p : bytes) : Z :=
  match p with
  | [] => 0
  | b :: _ =>
      let n := Z.of_nat (nat_of_ascii b) in
      if n <? 128 then n else 2 ^ 32 - 1
  end.

Definition ascii_next_char (p : bytes) : bytes := tl p.

Definition ascii_tolower (c : Z) : Z :=
  if (65 <=? c) && (c <=? 90) then c + 32 else c.

Definition ascii_toupper (c : Z) : Z :=
  if (97 <=? c) && (c <=? 122) then c - 32 else c.

Definition ascii_to_utf8 (c : Z) : bytes := [ascii_of_nat (Z.to_nat c)].

Definition bytes_width (unit_width : Z) (t : bytes) : Z :=
  unit_width * PANGO_SCALE * Z.of_nat (List.length t).

Definition no_filter (_ : list AprilToken) (_ _ : Z) (_ : FilterMode) : Z := 0.

Definition reference_externals (unit_width : Z)
    (filter : list AprilToken -> Z -> Z -> FilterMode -> Z) : externals :=
  {| AC_LINE_COUNT := 2;
     AC_LINE_MAX := 4096;
     SWEAR_REPLACEMENT := c_str " [__]";
     get_filter_skip := filter;
     pango_text_width := bytes_width unit_width;
     g_utf8_get_char_validated := ascii_get_char_validated;
     g_utf8_next_char := ascii_next_char;
     g_unichar_tolower := ascii_tolower;
     g_unichar_toupper := ascii_toupper;
     g_unichar_to_utf8 := ascii_to_utf8 |}.

Definition E_ref : externals := reference_externals 1 no_filter.

(** Lower-case display, no fade, no filter: the default settings. *)
Definition cfg_plain : gsettings :=
  {| fade_text := false; filter_slurs := false;
     filter_profanity := false; text_uppercase := false |}.

Definition blank_line : line :=
  {| text := []; start_head := 0; start_len := 0; head := 0; len := 0 |}.

(** A zero-initialised [struct line_generator] after
    [line_generator_init], with the given maximum width. *)
Definition fresh_generator (E : externals) (width : Z) : line_generator :=
  line_generator_init E
    {| current_line := 0;
       active_start_of_lines := fun _ => 0;
       lines := fun _ => blank_line;
       max_text_width := width;
       lg_is_english := true;
       tcap := token_capitalizer_init |}.

Definition word (s : string) (fl : Z) : AprilToken :=
  {| token := s; logprob := S754_zero false; flags := fl |}.

(** What a test sees of a state: the growing line's index and, for the two
    slots, the start marker and the text. *)
Definition observe (lg : line_generator) : Z * list (Z * string) :=
  (current_line lg,
   map (fun i => (active_start_of_lines lg i,
                  string_of_list_ascii (text (lines lg i)))) [0; 1]).

Definition observe_result (r : option (line_generator + fault))
    : option (Z * list (Z * string) + fault) :=
  match r with
  | Some (inl lg) => Some (inl (observe lg))
  | Some (inr f) => Some (inr f)
  | None => None
  end.

(** ** Notions the properties are stated with *)

Definition word_boundary_at (tokens : list AprilToken) (k : Z) : bool :=
  has_flag (flags_at tokens k) APRIL_TOKEN_FLAG_WORD_BOUNDARY_BIT.

(** A line is being printed consistently when the cursor sits at the
    terminator (or, for a checkpoint that lies past the terminator, when the
    whole write region is past it). *)
Definition line_ok (l : line) : Prop :=
  0 <= start_head l <= head l
  /\ (Z.of_nat (List.length (text l)) = head l
      \/ Z.of_nat (List.length (text l)) < start_head l).

(** [lg'] is [lg] with some active lines re-rendered past their
    checkpoints: nothing else differs. *)
Definition same_frame (lg lg' : line_generator) : Prop :=
  current_line lg' = current_line lg
  /\ active_start_of_lines lg' = active_start_of_lines lg
  /\ max_text_width lg' = max_text_width lg
  /\ lg_is_english lg' = lg_is_english lg
  /\ tcap lg' = tcap lg
  /\ forall k,
       lines lg' k = lines lg k
       \/ (active_start_of_lines lg k <> -1
           /\ 0 <= start_head (lines lg k)
           /\ reset_line (lines lg' k) = reset_line (lines lg k)).

(** What the tokens and the capitalizer fix for a pass: the decisions and
    the capitalizer state the scan ends in. *)
Definition scan_of (tokens : list AprilToken) (lg : line_generator)
    : token_capitalizer * list bool :=
  capitalize_scan (token_capitalizer_rewind (tcap lg)) tokens.

(** ** States and inputs of the examples *)

(** The state a completed [line_generator_update] leaves (the state itself
    where it does not complete). *)
Definition run (E : externals) (cfg : gsettings) (tokens : list AprilToken)
    (fuel : nat) (lg : line_generator) : line_generator :=
  match line_generator_update E cfg tokens fuel lg with
  | Some (inl lg') => lg'
  | _ => lg
  end.

(** The state a pass ends in. *)
Definition state_of (o : outcome) (default : line_generator) : line_generator :=
  match o with
  | Done lg | Retry _ lg => lg
  | Fault _ => default
  end.

Definition observe_outcome (o : outcome)
    : option retry * (Z * list (Z * string)) + fault :=
  match o with
  | Done lg => inl (None, observe lg)
  | Retry r lg => inl (Some r, observe lg)
  | Fault f => inr f
  end.

(** A display [width] units wide on which " hi." was shown and then
    finalized: slot 0 is the growing line, with a four-byte frozen prefix. *)
Definition frozen_generator (width : Z) : line_generator :=
  line_generator_finalize E_ref
    (run E_ref cfg_plain [word " hi." 1] 5 (fresh_generator E_ref width)).

(** Two tokens of one word, neither flagged as a word boundary. *)
Definition tokens_abcd : list AprilToken := [word "ab" 0; word "cd" 0].

(** One word in three tokens, the first one opening it. *)
Definition tokens_one_word : list AprilToken :=
  [word " ab" 1; word "cd" 0; word "ef" 0].

(** When there are tokens, the growing line's start marker points at one of
    them. *)
Definition growing_line_in_range (tokens : list AprilToken)
    (lg : line_generator) : Prop :=
  tokens = []
  \/ 0 <= active_start_of_lines lg (current_line lg)
          < Z.of_nat (List.length tokens).

(** Display history: " hello." wrapped into slot 0 and " World" on the
    growing line, slot 1, then finalized. *)
Definition tokens_hello_world : list AprilToken :=
  [word " " 1; word "hello" 0; word "." 2; word " " 1; word "world" 0].

Definition finalized_history : line_generator :=
  line_generator_finalize E_ref
    (run E_ref cfg_plain tokens_hello_world 5 (fresh_generator E_ref 8)).

(** Every text appended for a token, markup included, is at most 255 bytes
    long: it fits the 256-byte margin line 234 keeps free. *)
Definition pieces_fit (E : externals) (cfg : gsettings)
    (tokens : list AprilToken) : Prop :=
  forall caps j tk alpha,
    nth_error tokens (Z.to_nat j) = Some tk ->
    fade_alpha (logprob tk) = Some alpha ->
    Z.of_nat (List.length
                (format_token (fade_text cfg) alpha
                   (fst (select_token E cfg tokens caps j tk)))) <= 255.

(** The checkpoint of every active slot of the array lies inside its
    buffer. *)
Definition checkpoints_in_buffer (E : externals) (lg : line_generator) : Prop :=
  forall i, in_array E i = true -> active_start_of_lines lg i <> -1 ->
    0 <= start_head (lines lg i) < AC_LINE_MAX E.

(** The cursor of a line lies inside its buffer, at or after the
    checkpoint. *)
Definition cursor_in_buffer (E : externals) (l : line) : Prop :=
  0 <= start_head l <= head l /\ head l < AC_LINE_MAX E.

(** Upper-case display (tokens are drawn as they are), no fade, no filter. *)
Definition cfg_upper : gsettings :=
  {| fade_text := false; filter_slurs := false;
     filter_profanity := false; text_uppercase := true |}.

(** Sixteen tokens of 256 bytes each. *)
Definition tokens_256_bytes : list AprilToken :=
  repeat (word (string_of_list_ascii (repeat "a"%char 256)) 1) 16.

(** The same externals with another filter provider. *)
Definition set_filter_skip
    (f : list AprilToken -> Z -> Z -> FilterMode -> Z) (E : externals)
    : externals :=
  {| AC_LINE_COUNT := AC_LINE_COUNT E;
     AC_LINE_MAX := AC_LINE_MAX E;
     SWEAR_REPLACEMENT := SWEAR_REPLACEMENT E;
     get_filter_skip := f;
     pango_text_width := pango_text_width E;
     g_utf8_get_char_validated := g_utf8_get_char_validated E;
     g_utf8_next_char := g_utf8_next_char E;
     g_unichar_tolower := g_unichar_tolower E;
     g_unichar_toupper := g_unichar_toupper E;
     g_unichar_to_utf8 := g_unichar_to_utf8 E |}.

(** Two providers answer alike wherever [line_generator_update] may ask:
    at the word-boundary tokens of the array, in a mode above
    [FILTER_NONE]. *)
Definition same_answers (cfg : gsettings) (tokens : list AprilToken)
    (f1 f2 : list AprilToken -> Z -> Z -> FilterMode -> Z) : Prop :=
  forall j tk,
    nth_error tokens (Z.to_nat j) = Some tk ->
    has_flag (flags tk) APRIL_TOKEN_FLAG_WORD_BOUNDARY_BIT = true ->
    filter_active (filter_mode_of cfg) = true ->
    f1 tokens j (Z.of_nat (List.length tokens)) (filter_mode_of cfg)
    = f2 tokens j (Z.of_nat (List.length tokens)) (filter_mode_of cfg).

(** The text drawn for a token the filter leaves alone. *)
Definition plain_token (E : externals) (cfg : gsettings)
    (should_capitalize : list bool) (j : Z) (tk : AprilToken) : bytes :=
  if negb (text_uppercase cfg)
  then lowercase_token E (c_str (token tk))
         (nth (Z.to_nat j) should_capitalize false)
  else c_str (token tk).

(** A provider that reports a two-token match at every position. *)
Definition filter_two (_ : list AprilToken) (_ _ : Z) (_ : FilterMode) : Z := 2.

Definition cfg_filter : gsettings :=
  {| fade_text := false; filter_slurs := false;
     filter_profanity := true; text_uppercase := false |}.

Definition tokens_filtered : list AprilToken :=
  [word " bad" 1; word "word" 0; word " ok" 1].

(** A fresh generator whose capitalizer checkpoint says that the previous
    segment ended a sentence. *)
Definition generator_after_sentence (E : externals) (width : Z)
    : line_generator :=
  set_tcap {| is_english := true; previous_was_period := false;
              force_next_cap := false; finished_at_period := true |}
    (fresh_generator E width).

(** The pronoun split over a space token and an "I" token, and as the single
    token " I". *)
Definition tokens_split_I : list AprilToken :=
  [word " " 1; word "I" 0; word "'" 0; word "ll" 0].

Definition tokens_pronoun_I : list AprilToken :=
  [word " and" 1; word " I" 1; word "'" 0; word "ll" 0].

(** The lookahead test of the pronoun rule (lines 71-77). *)
Definition lookahead_allows (subsequent : option (string * Z)) : bool :=
  match subsequent with
  | None => true
  | Some (stok, sfl) =>
      has_flag sfl (Z.lor APRIL_TOKEN_FLAG_WORD_BOUNDARY_BIT
                          APRIL_TOKEN_FLAG_SENTENCE_END_BIT)
      || starts_with_apostrophe stok
  end.

(** The situation in which the growing line cannot take its first token:
    the growing line starts at token [a] with an empty checkpoint, the text
    drawn for token [a] is at least as wide as the line, and every other
    active slot of the ring also starts at token [a] and is followed by an
    active slot. *)
Definition rewrapping (E : externals) (cfg : gsettings)
    (tokens : list AprilToken) (a : Z) (lg : line_generator) : Prop :=
  let c := current_line lg in
  in_array E c = true
  /\ 256 <= AC_LINE_MAX E
  /\ 0 <= a < Z.of_nat (List.length tokens)
  /\ Z.of_nat (List.length tokens) <= 1024
  /\ (exists tk,
        nth_error tokens (Z.to_nat a) = Some tk
        /\ forall caps,
             max_text_width lg
             <= line_generator_get_text_width E
                  (fst (select_token E cfg tokens caps a tk)))
  /\ active_start_of_lines lg c = a
  /\ start_head (lines lg c) = 0
  /\ start_len (lines lg c) = 0
  /\ forall i, in_array E i = true -> i <> c ->
       active_start_of_lines lg i = -1
       \/ (active_start_of_lines lg i = a
           /\ 0 <= start_head (lines lg i) < AC_LINE_MAX E
           /\ active_start_of_lines lg (REL_LINE_IDX E i 1) = a).

(** Six short words, and their revision to three tokens the last of which
    is wider than the display. *)
Definition tokens_six_words : list AprilToken :=
  [word " aa" 1; word " bb" 1; word " cc" 1;
   word " dd" 1; word " ee" 1; word " ff" 1].

Definition tokens_wide_word : list AprilToken :=
  [word " aa" 1; word " bb" 1; word " absolutely" 1].

(** An 8-unit display after the six words: " cc dd" in slot 1 and the
    growing line " ee ff", starting at token 4, in slot 0. *)
Definition three_lines_shown : line_generator :=
  run E_ref cfg_upper tokens_six_words 9 (fresh_generator E_ref 8).

(** An 8-unit display after " hello. World": the growing line, slot 1,
    starts at token 3 and the frozen slot 0 ends there. *)
Definition two_lines_shown : line_generator :=
  run E_ref cfg_plain tokens_hello_world 9 (fresh_generator E_ref 8).

(** ** Notions for the fade arithmetic

    The binary64 operations of [scaled_confidence] are followed on scaled
    integers: a float of mantissa [m] and exponent [e] stands for the integer
    [m * 2 ^ (e + bias)], and every exponent met on the way is above
    [- bias]. *)
Definition bias : Z := 1200.

Definition scaled_value (x : spec_float) : Z :=
  match x with
  | S754_finite s m e =>
      if s then - (Zpos m * 2 ^ (e + bias)) else Zpos m * 2 ^ (e + bias)
  | _ => 0
  end.

(** The record [shr] leaves after [k] right shifts of the mantissa [m]:
    the quotient, the last bit shifted out (round bit) and whether a lower
    bit was set (sticky bit). *)
Definition shifted (m : Z) (k : nat) : shr_record :=
  match k with
  | O => Build_shr_record m false false
  | S k' => Build_shr_record (m / 2 ^ Z.of_nat k) (Z.testbit m (Z.of_nat k'))
              (negb (m mod 2 ^ Z.of_nat k' =? 0))
  end.

(** Round-to-nearest-even quotient of [m >= 0] by [2 ^ n], [n >= 1], the way
    the round bit and the sticky bit decide it. *)
Definition half_even (m n : Z) : Z :=
  let q := m / 2 ^ n in
  if Z.testbit m (n - 1)
  then if m mod 2 ^ (n - 1) =? 0
       then if Z.even q then q else q + 1
       else q + 1
  else q.

(** The binary64 rounding unit of a positive scaled value: exponent
    [max (log2 - 52) emin], scaled. *)
Definition ulp_exp (v : Z) : Z := Z.max (Z.log2 v + 1 - 53) (-1074 + bias).

(** Rounding of a scaled magnitude to binary64, and of a signed value. *)
Definition RND (v : Z) : Z := half_even v (ulp_exp v) * 2 ^ ulp_exp v.

Definition RNDz (v : Z) : Z := if v <? 0 then - RND (- v) else RND v.

(** A zero or a finite double with a mantissa below [2 ^ 53] and an exponent
    in the binary64 range. *)
Definition finite_double (x : spec_float) : Prop :=
  match x with
  | S754_zero _ => True
  | S754_finite _ m e => Zpos m < 2 ^ 53 /\ -1074 <= e <= 971
  | _ => False
  end.

(** The outcome of a rounding: a zero or a finite double of sign [s] and
    magnitude [r]. *)
Definition rounds_to (y : spec_float) (s : bool) (r : Z) : Prop :=
  (y = S754_zero s /\ r = 0)
  \/ exists m' e',
       y = S754_finite s m' e'
       /\ Zpos m' * 2 ^ (e' + bias) = r
       /\ Zpos m' < 2 ^ 53 /\ -1074 <= e' <= 971.

(** A C [float] that is a zero or finite: a valid binary32 value. *)
Definition finite_float (x : spec_float) : Prop :=
  valid_binary 24 128 x = true
  /\ match x with S754_zero _ | S754_finite _ _ _ => True | _ => False end.

(** The value cast to [int], as a function of the scaled confidence:
    [(x + 2.0) / 8.0 * 65536.0], rounded after each operation. *)
Definition confidence_path (u : Z) : Z :=
  Z.quot (RNDz (RNDz (RNDz (u + 2 ^ (1 + bias)) / 8) * 2 ^ 16)) (2 ^ bias).

(** The [float]s [-1.0f] and [0.5f]. *)
Definition minus_one_f : spec_float := S754_finite true (2 ^ 23)%positive (-23).
Definition one_half_f : spec_float := S754_finite false (2 ^ 23)%positive (-24).

(** ** The token that overflows the growing line *)

(** The loop of lines 180-276 followed for the width alone, from token [j]
    with the width [len] so far: each token visited adds the width of the
    text drawn for it (line 242), the first one that brings the width to
    [max_width] is the answer (line 243), and the scan moves on by the
    skip-length (line 275). [None] when the tokens end first. *)
Fixpoint first_overflow (E : externals) (cfg : gsettings)
    (tokens : list AprilToken) (should_capitalize : list bool)
    (max_width : Z) (fuel : nat) (j len : Z) : option Z :=
  match fuel with
  | O => None
  | S fuel' =>
      match nth_error tokens (Z.to_nat j) with
      | None => None
      | Some tk =>
          let '(tok, skipahead) :=
            select_token E cfg tokens should_capitalize j tk in
          let len' := len + line_generator_get_text_width E tok in
          if len' >=? max_width then Some j
          else first_overflow E cfg tokens should_capitalize max_width
                 fuel' (j + skipahead) len'
      end
  end.

(** The token at which the growing line of [lg] overflows when [tokens] are
    drawn on it: the scan starts at the line's start token with the width
    frozen at its checkpoint. *)
Definition overflow_token (E : externals) (cfg : gsettings)
    (tokens : list AprilToken) (lg : line_generator) : option Z :=
  let c := current_line lg in
  first_overflow E cfg tokens (snd (scan_of tokens lg)) (max_text_width lg)
    (List.length tokens) (size_t_of (active_start_of_lines lg c))
    (start_len (lines lg c)).

(** No token after [a] up to [b] carries the word-boundary flag: from [b],
    the backward scan of line 246 runs down to [a]. *)
Definition no_boundary_between (tokens : list AprilToken) (a b : Z) : Prop :=
  forall k, a < k <= b -> word_boundary_at tokens k = false.

(** Two words, the second one in two tokens. *)
Definition tokens_two_words : list AprilToken :=
  [word " ab" 1; word " cd" 1; word "ef" 0].

(** A first word in two tokens, not flagged, and a second, longer word. *)
Definition tokens_abcd_more : list AprilToken :=
  [word "ab" 0; word "cd" 0; word " efghij" 1].

(** ** The slots a call restarts, and sequences of calls *)

(** The slots that the wraps of a call make the growing line, in order.
    The tail calls of the call are followed from the growing line [c]: a
    wrap moves it one slot forward and restarts that slot (lines 253-256), a
    backtrack moves it one slot back (line 168). *)
Fixpoint wrapped_slots (E : externals) (c : Z) (rs : list retry) : list Z :=
  match rs with
  | [] => []
  | Wrap :: rs' =>
      REL_LINE_IDX E c 1 :: wrapped_slots E (REL_LINE_IDX E c 1) rs'
  | Backtrack :: rs' => wrapped_slots E (REL_LINE_IDX E c (-1)) rs'
  end.

(** Calls of [line_generator_update] made one after the other, each with
    its own settings and tokens and run with [fuel] passes: the slots their
    wraps restarted and the state after the last call, when every call
    returns a state. *)
Fixpoint update_calls (E : externals)
    (calls : list (gsettings * list AprilToken)) (fuel : nat)
    (lg : line_generator) : option (list Z * line_generator) :=
  match calls with
  | [] => Some ([], lg)
  | (cfg, tokens) :: rest =>
      match update_trace E cfg tokens fuel lg with
      | Some (rs, inl lg1) =>
          match update_calls E rest fuel lg1 with
          | Some (ws, lg2) =>
              Some (wrapped_slots E (current_line lg) rs ++ ws, lg2)
          | None => None
          end
      | _ => None
      end
  end.

(** Line [k] of [lg'] is line [k] of [lg], or [k] is an active line of [lg]
    that was drawn again from its checkpoint. *)
Definition rerendered (lg lg' : line_generator) (k : Z) : Prop :=
  lines lg' k = lines lg k
  \/ (active_start_of_lines lg k <> -1
      /\ reset_line (lines lg' k) = reset_line (lines lg k)).

(** What [lg] keeps of a state [lg0] in which [c0] was the only active
    slot of the array, starting at token 0, once the slots [ws] have been
    restarted: every other slot is inactive with the line it had, and [c0]
    still starts at token 0 with its line as it was up to the checkpoint. *)
Definition history_kept (E : externals) (lg0 : line_generator) (c0 : Z)
    (ws : list Z) (lg : line_generator) : Prop :=
  (forall k, in_array E k = true -> ~ In k ws -> k <> c0 ->
     lines lg k = lines lg0 k /\ active_start_of_lines lg k = -1)
  /\ (in_array E c0 = true -> ~ In c0 ws ->
      active_start_of_lines lg c0 = 0
      /\ reset_line (lines lg c0) = reset_line (lines lg0 c0)).

(** After the finalized history, two revisions of a short segment that
    fits the growing line. *)
Definition calls_short : list (gsettings * list AprilToken) :=
  [(cfg_plain, [word "s" 0]); (cfg_plain, [word "!" 0])].

(** The state a sequence of calls ends in (the state itself where a call
    does not return one). *)
Definition run_calls (E : externals)
    (calls : list (gsettings * list AprilToken)) (fuel : nat)
    (lg : line_generator) : line_generator :=
  match update_calls E calls fuel lg with
  | Some (_, lg') => lg'
  | None => lg
  end.

(** ** The text shown ([line_generator_set_text], lines 312-324) *)

Definition newline : ascii := ascii_of_nat 10.

(** The loop [for(int i=AC_LINE_COUNT-1; i>=0; i--)], with [k] iterations
    left ([i = k - 1]) and [out] the text [output] holds. Each [sprintf]
    stores its bytes and a terminator: the text must stay shorter than the
    capacity [output_max] of [output] (declared in [line-gen.h], not among
    the sources, hence a parameter); [None] is a store past it. *)
Fixpoint set_text_loop (E : externals) (output_max : Z) (lg : line_generator)
    (k : nat) (out : bytes) : option bytes :=
  match k with
  | O => Some out
  | S i =>
      let curr := lines lg (REL_LINE_IDX E (current_line lg) (- Z.of_nat i)) in
      let out1 := out ++ text curr in
      if Z.of_nat (List.length out1) <? output_max then
        if Z.of_nat i =? 0 then set_text_loop E output_max lg i out1
        else
          let out2 := out1 ++ [newline] in
          if Z.of_nat (List.length out2) <? output_max
          then set_text_loop E output_max lg i out2
          else None
      else None
  end.

(** The markup handed to [gtk_label_set_markup]. *)
Definition line_generator_set_text (E : externals) (output_max : Z)
    (lg : line_generator) : option bytes :=
  if 0 <? output_max
  then set_text_loop E output_max lg (Z.to_nat (AC_LINE_COUNT E)) []
  else None.

(** The texts of the ring, the oldest first and the growing line last. *)
Definition ring_texts (E : externals) (lg : line_generator) : list bytes :=
  map (fun i => text (lines lg (REL_LINE_IDX E (current_line lg)
                                  (- Z.of_nat i))))
      (rev (seq 0 (Z.to_nat (AC_LINE_COUNT E)))).

Fixpoint join_lines (ls : list bytes) : bytes :=
  match ls with
  | [] => []
  | [l] => l
  | l :: rest => l ++ newline :: join_lines rest
  end.

(** ** What a call renders *)

Definition sumZ (l : list Z) : Z := fold_right Z.add 0 l.

(** The bytes appended for token [j] when the filter leaves it alone (the
    text drawn, in the span when fade is on), and the width measured for
    it. *)
Definition token_piece (E : externals) (cfg : gsettings) (caps : list bool)
    (j : Z) (tk : AprilToken) : bytes :=
  format_token (fade_text cfg)
    (match fade_alpha (logprob tk) with Some a => a | None => 0 end)
    (plain_token E cfg caps j tk).

Definition token_width (E : externals) (cfg : gsettings) (caps : list bool)
    (j : Z) (tk : AprilToken) : Z :=
  line_generator_get_text_width E (plain_token E cfg caps j tk).

(** The pieces and the widths of the tokens [ts], which sit at the indexes
    [j], [j + 1], ... of the token array. *)
Fixpoint pieces_from (E : externals) (cfg : gsettings) (caps : list bool)
    (j : Z) (ts : list AprilToken) : list bytes :=
  match ts with
  | [] => []
  | tk :: rest => token_piece E cfg caps j tk :: pieces_from E cfg caps (j + 1) rest
  end.

Fixpoint widths_from (E : externals) (cfg : gsettings) (caps : list bool)
    (j : Z) (ts : list AprilToken) : list Z :=
  match ts with
  | [] => []
  | tk :: rest => token_width E cfg caps j tk :: widths_from E cfg caps (j + 1) rest
  end.

(** The growing line is the only active slot of the array and starts at
    token 0: the state [line_generator_init], [line_generator_finalize] and
    [line_generator_break] leave. *)
Definition only_growing_line_active (E : externals) (lg : line_generator)
    : Prop :=
  in_array E (current_line lg) = true
  /\ active_start_of_lines lg (current_line lg) = 0
  /\ forall i, in_array E i = true -> i <> current_line lg ->
       active_start_of_lines lg i = -1.

(** A display 80 units wide. *)
Definition wide_generator : line_generator := fresh_generator E_ref 80.

(** ** Notions for the capitalizer *)

Definition sentence_end (t : AprilToken) : bool :=
  has_flag (flags t) APRIL_TOKEN_FLAG_SENTENCE_END_BIT.

Definition word_boundary (t : AprilToken) : bool :=
  has_flag (flags t) APRIL_TOKEN_FLAG_WORD_BOUNDARY_BIT.

(** What [token_capitalizer_next] is shown of the token after [t]. *)
Definition lookahead (rest : list AprilToken) : option (string * Z) :=
  match rest with
  | [] => None
  | t' :: _ => Some (token t', flags t')
  end.

(** " hi" and "." (a sentence end), then " there" in the next utterance. *)
Definition tokens_hi_period : list AprilToken := [word " hi" 1; word "." 2].
Definition tokens_there : list AprilToken := [word " there" 1].

(** ** Some [float] scores *)

(** [131072.0f] and [-131072.0f] (two to the 17). *)
Definition f_131072 : spec_float := S754_finite false (2 ^ 23)%positive (-6).
Definition f_minus_131072 : spec_float := S754_finite true (2 ^ 23)%positive (-6).

(** [6.0f] and [-8.0f]. *)
Definition f_6 : spec_float := S754_finite false (3 * 2 ^ 22)%positive (-21).
Definition f_minus_8 : spec_float := S754_finite true (2 ^ 23)%positive (-20).

(** The value [double_to_int] returns when there is one. *)
Definition int_of_scaled (v : Z) : option Z :=
  let t := Z.quot v (2 ^ bias) in
  if (INT_MIN <=? t) && (t <=? INT_MAX) then Some t else None.

(** ** Notions for the tail calls *)

(** Every token, as it is drawn (the replacement text included), is
    narrower than the display. *)
Definition tokens_narrower_than (E : externals) (cfg : gsettings)
    (tokens : list AprilToken) (width : Z) : Prop :=
  forall caps j tk,
    nth_error tokens (Z.to_nat j) = Some tk ->
    line_generator_get_text_width E (fst (select_token E cfg tokens caps j tk))
    < width.

(** The growing line starts at one of the tokens, with an empty
    checkpoint: the state a wrap leaves. *)
Definition fresh_growing_line (tokens : list AprilToken) (width : Z)
    (lg : line_generator) : Prop :=
  let c := current_line lg in
  0 <= active_start_of_lines lg c < Z.of_nat (List.length tokens)
  /\ start_head (lines lg c) = 0
  /\ start_len (lines lg c) = 0
  /\ max_text_width lg = width.

(** An 80-unit display on which " hi." was shown and finalized. *)
Definition frozen_wide : line_generator := frozen_generator 80.

(** ** The tokens a line shows *)

(** [end] of lines 176-177: where the tokens of slot [i] stop, the start
    marker of the next slot of the ring, or the end of the tokens for the
    growing line and when the next slot is inactive. *)
Definition line_end (E : externals) (tokens : list AprilToken)
    (lg : line_generator) (i : Z) : Z :=
  let end0 := active_start_of_lines lg (REL_LINE_IDX E i 1) in
  if (end0 =? -1) || (i =? current_line lg)
  then Z.of_nat (List.length tokens)
  else size_t_of end0.

(** The tokens [s], ..., [e - 1] of the array. *)
Definition token_range (tokens : list AprilToken) (s e : Z) : list AprilToken :=
  firstn (Z.to_nat (e - s)) (skipn (Z.to_nat s) tokens).
(** * Properties *)

(** ** The wrap point *)

Lemma find_word_boundary_spec (tokens : list AprilToken) (start : Z) :
  forall (fuel : nat) (t : Z),
    fuel = Z.to_nat (t - start) -> start <= t ->
    let r := find_word_boundary tokens start fuel t in
    start <= r <= t
    /\ (forall k, r < k <= t -> word_boundary_at tokens k = false)
    /\ (start < r -> word_boundary_at tokens r = true).
Proof.
  induction fuel as [|fuel IH]; intros t Hf Ht; cbn [find_word_boundary].
  - assert (t = start) by lia. subst t.
    repeat split; intros; lia.
  - fold (word_boundary_at tokens t).
    destruct (word_boundary_at tokens t) eqn:Hwb; cbn [negb andb].
    + repeat split; intros; auto; lia.
    + assert (Hgt : (t >? start) = true) by (apply Z.gtb_lt; lia).
      rewrite Hgt.
      destruct (IH (t - 1)) as (Hr & Hno & Hyes); try lia.
      split; [lia|]. split; [|exact Hyes].
      intros k Hk. destruct (Z.eq_dec k t) as [->|Hne]; auto.
      apply Hno. lia.
Qed.

(** ** Writing into a line buffer *)

Lemma write_at_nil_idem (pos : Z) (t : bytes) :
  0 <= pos -> write_at pos [] (write_at pos [] t) = write_at pos [] t.
Proof.
  intros Hpos. unfold write_at.
  destruct (pos <=? Z.of_nat (List.length t)) eqn:Hle.
  - apply Z.leb_le in Hle. rewrite app_nil_r.
    rewrite length_firstn, Nat.min_l by lia.
    rewrite Z2Nat.id by lia. rewrite Z.leb_refl.
    rewrite app_nil_r. apply firstn_all2. rewrite length_firstn. lia.
  - rewrite Hle. reflexivity.
Qed.

Lemma reset_line_idem (l : line) :
  0 <= start_head l -> reset_line (reset_line l) = reset_line l.
Proof.
  intros H. unfold reset_line; cbn. now rewrite write_at_nil_idem.
Qed.

Lemma reset_line_ok (l : line) : 0 <= start_head l -> line_ok (reset_line l).
Proof.
  intros H. unfold line_ok, reset_line, write_at; cbn.
  split; [lia|].
  destruct (start_head l <=? Z.of_nat (List.length (text l))) eqn:Hle.
  - left. apply Z.leb_le in Hle.
    rewrite app_nil_r, length_firstn, Nat.min_l by lia. lia.
  - right. apply Z.leb_gt in Hle. lia.
Qed.

Lemma append_line_ok (s : bytes) (l : line) :
  line_ok l -> line_ok (append_line s l).
Proof.
  intros [Hh Ht]. unfold line_ok, append_line, write_at; cbn.
  split; [lia|].
  destruct Ht as [Ht|Ht].
  - left. rewrite <- Ht, Z.leb_refl, Nat2Z.id, firstn_all.
    rewrite length_app. lia.
  - right. destruct (head l <=? Z.of_nat (List.length (text l))) eqn:Hle.
    + apply Z.leb_le in Hle. lia.
    + exact Ht.
Qed.

Lemma reset_append_line (s : bytes) (l : line) :
  line_ok l -> reset_line (append_line s l) = reset_line l.
Proof.
  intros [Hh Ht]. unfold reset_line, append_line; cbn. f_equal.
  unfold write_at. destruct Ht as [Ht|Ht].
  - rewrite <- Ht, Z.leb_refl, Nat2Z.id, firstn_all.
    assert (H1 : (start_head l <=? Z.of_nat (List.length (text l ++ s))) = true).
    { apply Z.leb_le. rewrite length_app. lia. }
    assert (H2 : (start_head l <=? Z.of_nat (List.length (text l))) = true).
    { apply Z.leb_le. lia. }
    rewrite H1, H2. f_equal. rewrite firstn_app.
    replace (Z.to_nat (start_head l) - List.length (text l))%nat with 0%nat by lia.
    cbn. apply app_nil_r.
  - assert (H1 : (head l <=? Z.of_nat (List.length (text l))) = false).
    { apply Z.leb_gt. lia. }
    now rewrite H1.
Qed.

(** ** The loop over one line's tokens *)

Section Printing.

Variable E : externals.
Variable cfg : gsettings.
Variable tokens : list AprilToken.
Variable caps : list bool.

Lemma select_token_skip_pos (j : Z) (tk : AprilToken) :
  1 <= snd (select_token E cfg tokens caps j tk).
Proof.
  unfold select_token.
  destruct (filter_active (filter_mode_of cfg)
            && has_flag (flags tk) APRIL_TOKEN_FLAG_WORD_BOUNDARY_BIT); cbn; [|lia].
  destruct (get_filter_skip E tokens j (Z.of_nat (List.length tokens))
              (filter_mode_of cfg) >? 0) eqn:Hs; cbn; [|lia].
  apply Z.gtb_lt in Hs. lia.
Qed.

(** Destructs, in order, the tests the body of [print_line] makes. *)
Ltac print_line_cases j curr :=
  cbn [print_line];
  destruct (j <? _) eqn:Hlt;
    [destruct (nth_error tokens (Z.to_nat j)) as [tk|] eqn:Htk;
       [destruct (select_token E cfg tokens caps j tk) as [tok skipahead] eqn:Hsel;
        destruct (head curr >? AC_LINE_MAX E - 256) eqn:Hbrk;
          [try tauto; try discriminate|]
       |try tauto; try discriminate]
    |try tauto; try discriminate].

Lemma print_line_frozen (cur : bool) (start mw end_ : Z) :
  forall (fuel : nat) (j : Z) (curr : line),
    line_ok curr ->
    match print_line E cfg tokens caps cur start mw end_ fuel j curr with
    | LDone l' | LWrap _ l' => reset_line l' = reset_line curr /\ line_ok l'
    | LFault _ => True
    end.
Proof.
  induction fuel as [|fuel IH]; intros j curr Hok; [cbn; tauto|].
  print_line_cases j curr.
  set (curr1 := if cur then set_len _ curr else curr).
  assert (H1 : reset_line curr1 = reset_line curr /\ line_ok curr1)
    by (subst curr1; destruct cur; auto).
  destruct H1 as [Hr1 Hok1].
  destruct (cur && (len curr1 >=? mw)); [auto|].
  destruct (fade_alpha (logprob tk)) as [alpha|]; [|exact I].
  set (s := format_token _ _ _).
  destruct (head (append_line s curr1) <? AC_LINE_MAX E); [|exact I].
  specialize (IH (j + skipahead) (append_line s curr1) (append_line_ok s _ Hok1)).
  destruct (print_line E cfg tokens caps cur start mw end_ fuel
              (j + skipahead) (append_line s curr1));
    try exact I; destruct IH as [IHr IHok]; split; auto;
    now rewrite IHr, reset_append_line.
Qed.

Lemma print_line_wrap (cur : bool) (start mw end_ : Z) :
  forall (fuel : nat) (j : Z) (curr : line) (t : Z) (l' : line),
    print_line E cfg tokens caps cur start mw end_ fuel j curr = LWrap t l' ->
    cur = true
    /\ exists j', j <= j' < end_
         /\ j' < Z.of_nat (List.length tokens)
         /\ t = wrap_target tokens start (start_head curr) j'
         /\ mw <= len l'.
Proof.
  induction fuel as [|fuel IH]; intros j curr t l'; [discriminate|].
  print_line_cases j curr.
  apply Z.ltb_lt in Hlt.
  assert (Hj : j < Z.of_nat (List.length tokens)).
  { assert (Z.to_nat j < List.length tokens)%nat
      by (apply nth_error_Some; congruence). lia. }
  set (curr1 := if cur then set_len _ curr else curr).
  destruct cur; cbn [andb].
  - destruct (len curr1 >=? mw) eqn:Hw.
    + intros H; inversion H; subst. split; [reflexivity|].
      apply Z.geb_le in Hw.
      exists j. repeat split; try lia; try reflexivity.
    + destruct (fade_alpha (logprob tk)) as [alpha|]; [|discriminate].
      set (s := format_token _ _ _).
      destruct (head (append_line s curr1) <? AC_LINE_MAX E); [|discriminate].
      intros H. apply IH in H. destruct H as (Hc & j' & Hj' & Hlen & Ht & Hm).
      split; [exact Hc|]. exists j'.
      pose proof (select_token_skip_pos j tk) as Hp. rewrite Hsel in Hp. cbn in Hp.
      repeat split; try lia; auto.
  - destruct (fade_alpha (logprob tk)) as [alpha|]; [|discriminate].
    set (s := format_token _ _ _).
    destruct (head (append_line s curr1) <? AC_LINE_MAX E); [|discriminate].
    intros H. apply IH in H. destruct H as [Hc _]. discriminate.
Qed.

End Printing.

(** ** One slot, and the loop over the slots *)

Lemma upd_same {A : Type} (a : Z -> A) (i : Z) (v : A) : upd a i v i = v.
Proof. unfold upd. now rewrite Z.eqb_refl. Qed.

Lemma upd_other {A : Type} (a : Z -> A) (i k : Z) (v : A) :
  k <> i -> upd a i v k = a k.
Proof. intros H. unfold upd. apply Z.eqb_neq in H. now rewrite H. Qed.

Lemma same_frame_refl (lg : line_generator) : same_frame lg lg.
Proof. unfold same_frame; repeat split; auto. Qed.

Lemma same_frame_start_head (lg lg' : line_generator) (k : Z) :
  same_frame lg lg' ->
  start_head (lines lg' k) = start_head (lines lg k)
  /\ start_len (lines lg' k) = start_len (lines lg k).
Proof.
  intros (_ & _ & _ & _ & _ & H). destruct (H k) as [->|(_ & _ & Hr)]; auto.
  unfold reset_line in Hr. now inversion Hr.
Qed.

Lemma same_frame_trans (lg1 lg2 lg3 : line_generator) :
  same_frame lg1 lg2 -> same_frame lg2 lg3 -> same_frame lg1 lg3.
Proof.
  intros H12 H23.
  pose proof (fun k => same_frame_start_head lg1 lg2 k H12) as Hsh.
  destruct H12 as (Hc & Ha & Hm & He & Ht & Hl).
  destruct H23 as (Hc' & Ha' & Hm' & He' & Ht' & Hl').
  unfold same_frame. repeat split; try congruence.
  intros k. destruct (Hl' k) as [E23|(Hact & Hsh3 & Hr3)].
  - rewrite E23. apply Hl.
  - destruct (Hl k) as [E12|(Hact1 & Hsh1 & Hr1)].
    + right. rewrite Ha in Hact. rewrite E12 in Hsh3, Hr3. auto.
    + right. repeat split; auto. congruence.
Qed.

Lemma same_frame_inactive (lg lg' : line_generator) (k : Z) :
  same_frame lg lg' -> active_start_of_lines lg k = -1 ->
  lines lg' k = lines lg k.
Proof.
  intros (_ & _ & _ & _ & _ & H) Hk. destruct (H k) as [->|(Hact & _)]; tauto.
Qed.

Section Slots.

Variable E : externals.
Variable cfg : gsettings.
Variable tokens : list AprilToken.
Variable caps : list bool.

Local Abbreviation num_tokens := (Z.of_nat (List.length tokens)).

(** A pass over a slot that completes re-renders that slot and nothing
    else. *)
Lemma update_line_Done (i : Z) (lg lg' : line_generator) :
  update_line E cfg tokens caps i lg = Done lg' ->
  same_frame lg lg' /\ forall k, k <> i -> lines lg' k = lines lg k.
Proof.
  unfold update_line.
  destruct (active_start_of_lines lg i =? -1) eqn:Hact.
  { intros H; inversion H; subst. split; [apply same_frame_refl|auto]. }
  apply Z.eqb_neq in Hact.
  destruct ((start_head (lines lg i) <? 0)
            || (start_head (lines lg i) >=? AC_LINE_MAX E)) eqn:Hb;
    [discriminate|].
  apply orb_false_elim in Hb. destruct Hb as [Hb0 _]. apply Z.ltb_ge in Hb0.
  set (lg1 := set_line i (reset_line (lines lg i)) lg).
  assert (Hgen : forall l', reset_line l' = reset_line (lines lg i) ->
            same_frame lg (set_line i l' lg1)
            /\ forall k, k <> i -> lines (set_line i l' lg1) k = lines lg k).
  { intros l' Hr. split.
    - unfold same_frame; cbn. repeat split; auto.
      intros k. destruct (Z.eq_dec k i) as [->|Hne].
      + right. rewrite upd_same. auto.
      + left. now rewrite !upd_other.
    - intros k Hne. cbn. now rewrite !upd_other. }
  assert (H1 : same_frame lg lg1
               /\ forall k, k <> i -> lines lg1 k = lines lg k).
  { split.
    - unfold same_frame; cbn. repeat split; auto.
      intros k. destruct (Z.eq_dec k i) as [->|Hne].
      + right. rewrite upd_same. repeat split; auto.
        now apply reset_line_idem.
      + left. now rewrite upd_other.
    - intros k Hne. cbn. now rewrite upd_other. }
  destruct (num_tokens =? 0); [intros H; injection H as <-; exact H1|].
  destruct (size_t_of (active_start_of_lines lg i) >=? num_tokens).
  { destruct (i =? current_line lg1); [discriminate|].
    intros H; injection H as <-; exact H1. }
  match goal with |- context [print_line ?a ?b ?c ?d ?e ?f ?g ?h ?n ?j ?l] =>
    pose proof (print_line_frozen a b c d e f g h n j l) as Hp;
    destruct (print_line a b c d e f g h n j l) as [l'|t l'|f'] end;
    try discriminate.
  intros H; injection H as <-. apply Hgen.
  destruct Hp as [Hr _].
  { apply reset_line_ok. exact Hb0. }
  rewrite Hr. now apply reset_line_idem.
Qed.

(** The tail call of line 169. *)
Lemma update_line_Backtrack (i : Z) (lg lg' : line_generator) :
  update_line E cfg tokens caps i lg = Retry Backtrack lg' ->
  i = current_line lg
  /\ active_start_of_lines lg i <> -1
  /\ num_tokens <> 0
  /\ num_tokens <= size_t_of (active_start_of_lines lg i)
  /\ current_line lg' = REL_LINE_IDX E i (-1)
  /\ active_start_of_lines lg' = upd (active_start_of_lines lg) i (-1)
  /\ lines lg' = upd (lines lg) i (reset_line (lines lg i))
  /\ max_text_width lg' = max_text_width lg
  /\ tcap lg' = tcap lg.
Proof.
  unfold update_line.
  destruct (active_start_of_lines lg i =? -1) eqn:Hact; [discriminate|].
  apply Z.eqb_neq in Hact.
  destruct ((start_head (lines lg i) <? 0)
            || (start_head (lines lg i) >=? AC_LINE_MAX E)); [discriminate|].
  set (lg1 := set_line i (reset_line (lines lg i)) lg).
  destruct (num_tokens =? 0) eqn:Hn; [discriminate|]. apply Z.eqb_neq in Hn.
  destruct (size_t_of (active_start_of_lines lg i) >=? num_tokens) eqn:Hge.
  - destruct (i =? current_line lg1) eqn:Hi; [|discriminate].
    apply Z.eqb_eq in Hi. cbn in Hi.
    intros H; inversion H; subst lg'; clear H. cbn.
    apply Z.geb_le in Hge. cbn in Hge.
    rewrite <- Hi. repeat split; auto.
  - match goal with |- context [print_line ?a ?b ?c ?d ?e ?f ?g ?h ?n ?j ?l] =>
      destruct (print_line a b c d e f g h n j l) as [l'|t l'|f'] end;
      discriminate.
Qed.

(** The tail call of line 257. *)
Lemma update_line_Wrap (i : Z) (lg lg' : line_generator) :
  update_line E cfg tokens caps i lg = Retry Wrap lg' ->
  i = current_line lg
  /\ active_start_of_lines lg i <> -1
  /\ 0 <= start_head (lines lg i) < AC_LINE_MAX E
  /\ exists j,
       size_t_of (active_start_of_lines lg i) <= j < num_tokens
       /\ current_line lg' = REL_LINE_IDX E i 1
       /\ active_start_of_lines lg'
          = upd (active_start_of_lines lg) (REL_LINE_IDX E i 1)
              (wrap_target tokens (size_t_of (active_start_of_lines lg i))
                 (start_head (lines lg i)) j)
       /\ max_text_width lg' = max_text_width lg
       /\ tcap lg' = tcap lg
       /\ start_head (lines lg' (REL_LINE_IDX E i 1)) = 0
       /\ start_len (lines lg' (REL_LINE_IDX E i 1)) = 0
       /\ (forall k, k <> i -> k <> REL_LINE_IDX E i 1 ->
             lines lg' k = lines lg k)
       /\ (REL_LINE_IDX E i 1 <> i ->
             lines lg' (REL_LINE_IDX E i 1)
             = set_start 0 0 (lines lg (REL_LINE_IDX E i 1)))
       /\ (REL_LINE_IDX E i 1 <> i ->
             reset_line (lines lg' i) = reset_line (lines lg i)).
Proof.
  unfold update_line.
  destruct (active_start_of_lines lg i =? -1) eqn:Hact; [discriminate|].
  apply Z.eqb_neq in Hact.
  destruct ((start_head (lines lg i) <? 0)
            || (start_head (lines lg i) >=? AC_LINE_MAX E)) eqn:Hb;
    [discriminate|].
  apply orb_false_elim in Hb. destruct Hb as [Hb0 Hb1].
  apply Z.ltb_ge in Hb0. rewrite Z.geb_leb in Hb1. apply Z.leb_gt in Hb1.
  set (lg1 := set_line i (reset_line (lines lg i)) lg).
  destruct (num_tokens =? 0) eqn:Hn; [discriminate|].
  destruct (size_t_of (active_start_of_lines lg i) >=? num_tokens) eqn:Hge.
  { destruct (i =? current_line lg1); discriminate. }
  match goal with |- context [print_line ?a ?b ?c ?d ?e ?f ?g ?h ?n ?j ?l] =>
    pose proof (print_line_wrap a b c d e f g h n j l) as Hp;
    pose proof (print_line_frozen a b c d e f g h n j l
                  (reset_line_ok _ Hb0)) as Hfz;
    destruct (print_line a b c d e f g h n j l) as [l'|t l'|f'] end;
    try discriminate.
  destruct Hfz as [Hfz _]. rewrite reset_line_idem in Hfz by exact Hb0.
  destruct (Hp t l' eq_refl) as (Hcur & j & Hj & Hjn & Ht & _). clear Hp.
  apply Z.eqb_eq in Hcur. cbn in Hcur.
  intros H; injection H as <-. cbn.
  rewrite <- Hcur. repeat split; auto; try lia.
  exists j. cbn in Ht. rewrite <- Ht.
  repeat split; auto; try lia.
  - now rewrite upd_same.
  - now rewrite upd_same.
  - intros k Hk1 Hk2. unfold upd.
    apply Z.eqb_neq in Hk1, Hk2. now rewrite Hk1, Hk2.
  - intros Hne. rewrite upd_same. now rewrite !upd_other.
  - intros Hne. rewrite upd_other by auto. now rewrite upd_same.
Qed.

(** The loop over the slots, seen through an invariant [P] of completed
    slots: a completed loop ends in a state satisfying [P], and a tail call
    or a fault is raised by one slot from such a state. *)
Lemma update_lines_inv (P : line_generator -> Prop) (idxs : list Z) :
  (forall i lg lg', In i idxs -> P lg ->
     update_line E cfg tokens caps i lg = Done lg' -> P lg') ->
  forall lg, P lg ->
    match update_lines E cfg tokens caps idxs lg with
    | Done lg' => P lg'
    | Retry r lg' =>
        exists i lgm, In i idxs /\ P lgm
          /\ update_line E cfg tokens caps i lgm = Retry r lg'
    | Fault f =>
        exists i lgm, In i idxs /\ P lgm
          /\ update_line E cfg tokens caps i lgm = Fault f
    end.
Proof.
  induction idxs as [|i rest IH]; intros Hstep lg HP; cbn [update_lines]; auto.
  destruct (update_line E cfg tokens caps i lg) as [lg1|r lg1|f] eqn:Hi.
  - assert (HP1 : P lg1) by (eapply Hstep; eauto; now left).
    specialize (IH (fun i' a b Hin => Hstep i' a b (or_intror Hin)) lg1 HP1).
    destruct (update_lines E cfg tokens caps rest lg1); auto;
      destruct IH as (i' & lgm & Hin & Hm & Hu);
      exists i', lgm; repeat split; auto; now right.
  - exists i, lg. repeat split; auto. now left.
  - exists i, lg. repeat split; auto. now left.
Qed.

Lemma update_lines_frame (idxs : list Z) (lg : line_generator) :
  match update_lines E cfg tokens caps idxs lg with
  | Done lg' => same_frame lg lg'
  | Retry r lg' =>
      exists i lgm, In i idxs /\ same_frame lg lgm
        /\ update_line E cfg tokens caps i lgm = Retry r lg'
  | Fault f => True
  end.
Proof.
  pose proof (update_lines_inv (same_frame lg) idxs) as H.
  match type of H with ?A -> _ => assert (Hs : A) end.
  { intros i a b _ Ha Hu. apply update_line_Done in Hu.
    eapply same_frame_trans; [exact Ha|apply Hu]. }
  specialize (H Hs lg (same_frame_refl lg)).
  destruct (update_lines E cfg tokens caps idxs lg); auto.
Qed.

End Slots.

(** ** One pass *)

Section Pass.

Variable E : externals.
Variable cfg : gsettings.
Variable tokens : list AprilToken.

Local Abbreviation num_tokens := (Z.of_nat (List.length tokens)).

Lemma update_pass_unfold (lg : line_generator) :
  update_pass E cfg tokens lg
  = if num_tokens >? 1024 then Fault CapitalizeOverflow
    else update_lines E cfg tokens (snd (scan_of tokens lg)) (slots E)
           (set_tcap (fst (scan_of tokens lg)) lg).
Proof.
  unfold update_pass, scan_of.
  destruct (num_tokens >? 1024); [reflexivity|].
  now destruct (capitalize_scan (token_capitalizer_rewind (tcap lg)) tokens).
Qed.

Lemma update_pass_Wrap (lg lg' : line_generator) :
  update_pass E cfg tokens lg = Retry Wrap lg' ->
  let c := current_line lg in
  let start := size_t_of (active_start_of_lines lg c) in
  In c (slots E)
  /\ active_start_of_lines lg c <> -1
  /\ 0 <= start_head (lines lg c) < AC_LINE_MAX E
  /\ num_tokens <= 1024
  /\ exists j,
       start <= j < num_tokens
       /\ current_line lg' = REL_LINE_IDX E c 1
       /\ active_start_of_lines lg'
          = upd (active_start_of_lines lg) (REL_LINE_IDX E c 1)
              (wrap_target tokens start (start_head (lines lg c)) j)
       /\ max_text_width lg' = max_text_width lg
       /\ start_head (lines lg' (REL_LINE_IDX E c 1)) = 0
       /\ start_len (lines lg' (REL_LINE_IDX E c 1)) = 0.
Proof.
  rewrite update_pass_unfold.
  destruct (num_tokens >? 1024) eqn:Hn; [discriminate|].
  rewrite Z.gtb_ltb in Hn. apply Z.ltb_ge in Hn.
  pose proof (update_lines_frame E cfg tokens (snd (scan_of tokens lg)) (slots E)
                (set_tcap (fst (scan_of tokens lg)) lg)) as Hf.
  intros Hu. rewrite Hu in Hf.
  destruct Hf as (i & lgm & Hin & Hfr & Hw).
  apply update_line_Wrap in Hw.
  destruct (same_frame_start_head _ _ i Hfr) as [Hsh _].
  destruct Hfr as (Hc & Ha & Hm & _).
  cbn in Hc, Ha, Hm, Hsh.
  destruct Hw as (Hi & Hact & Hb & j & Hj & Hc' & Ha' & Hm' & _ & Hs0 & Hl0 & _).
  rewrite Hc in Hi. subst i. rewrite Ha in *. rewrite Hsh in *.
  cbn. repeat split; auto; try lia.
  exists j. repeat split; auto; try lia; congruence.
Qed.

End Pass.

(** ** Where a full line wraps *)

Lemma wrap_target_spec (tokens : list AprilToken) (start sh j : Z) :
  start <= j ->
  let tgt := wrap_target tokens start sh j in
  start <= tgt <= j
  /\ (forall k, tgt < k <= j -> word_boundary_at tokens k = false)
  /\ ((start < tgt /\ word_boundary_at tokens tgt = true)
      \/ ((forall k, start < k <= j -> word_boundary_at tokens k = false)
          /\ tgt = if sh =? 0 then j else start)).
Proof.
  intros Hj. unfold wrap_target.
  destruct (find_word_boundary_spec tokens start (Z.to_nat (j - start)) j
              eq_refl Hj) as (Hr & Hno & Hyes).
  set (r := find_word_boundary tokens start (Z.to_nat (j - start)) j) in *.
  destruct (r =? start) eqn:Hrs; cbn [andb].
  - apply Z.eqb_eq in Hrs. rewrite Hrs in Hno.
    destruct (sh =? 0); cbn.
    + repeat split; try lia. right. split; auto.
    + rewrite Hrs. repeat split; try lia; auto.
  - apply Z.eqb_neq in Hrs. repeat split; try lia; auto.
    left. split; [lia|]. apply Hyes. lia.
Qed.

(** ** Repeating a call *)

Lemma token_capitalizer_next_keeps (tc : token_capitalizer) (tok : string)
    (fl : Z) (sub : option (string * Z)) :
  let tc' := fst (token_capitalizer_next tc tok fl sub) in
  is_english tc' = is_english tc
  /\ finished_at_period tc' = finished_at_period tc.
Proof.
  unfold token_capitalizer_next.
  destruct (has_flag fl APRIL_TOKEN_FLAG_SENTENCE_END_BIT); [cbn; auto|].
  destruct (force_next_cap tc); [cbn; auto|].
  destruct (previous_was_period tc
            && has_flag fl APRIL_TOKEN_FLAG_WORD_BOUNDARY_BIT).
  { destruct (is_bare_space tok); cbn; auto. }
  destruct (is_english tc && is_pronoun_I tok); [|cbn; auto].
  destruct sub as [[stok sfl]|]; [|cbn; auto].
  destruct (has_flag sfl _ || starts_with_apostrophe stok); cbn; auto.
Qed.

Lemma capitalize_scan_keeps (tokens : list AprilToken) :
  forall tc,
    let tc' := fst (capitalize_scan tc tokens) in
    is_english tc' = is_english tc
    /\ finished_at_period tc' = finished_at_period tc.
Proof.
  induction tokens as [|t rest IH]; intros tc; cbn [capitalize_scan]; [cbn; auto|].
  set (sub := match rest with [] => None | t' :: _ => Some (token t', flags t') end).
  pose proof (token_capitalizer_next_keeps tc (token t) (flags t) sub) as Hn.
  destruct (token_capitalizer_next tc (token t) (flags t) sub) as [tc1 b].
  specialize (IH tc1).
  destruct (capitalize_scan tc1 rest) as [tc2 bs].
  cbn in *. destruct Hn, IH. split; congruence.
Qed.

(** The scan starts from the rewound checkpoint, which it never moves: a
    second scan of the same tokens decides the same. *)
Lemma scan_of_rescan (tokens : list AprilToken) (lg lg' : line_generator) :
  tcap lg' = fst (scan_of tokens lg) -> scan_of tokens lg' = scan_of tokens lg.
Proof.
  intros Ht. unfold scan_of in *. rewrite Ht.
  destruct (capitalize_scan_keeps tokens (token_capitalizer_rewind (tcap lg)))
    as [He Hf].
  set (tc0 := token_capitalizer_rewind (tcap lg)) in *.
  set (tc' := fst (capitalize_scan tc0 tokens)) in *.
  cbv zeta in He, Hf.
  assert (Hrw : token_capitalizer_rewind tc' = tc0).
  { unfold token_capitalizer_rewind at 1. rewrite He, Hf. reflexivity. }
  now rewrite Hrw.
Qed.

Section Idempotence.

Variable E : externals.
Variable cfg : gsettings.
Variable tokens : list AprilToken.

(** A slot's pass reads of its line only what lies before the checkpoint:
    from two states that differ in re-rendered lines only, it completes
    alike and leaves the same line. *)
Lemma update_line_agree (caps : list bool) (i : Z) (a b a' : line_generator) :
  same_frame a b ->
  update_line E cfg tokens caps i a = Done a' ->
  exists b',
    update_line E cfg tokens caps i b = Done b'
    /\ same_frame a' b'
    /\ forall k, k = i \/ lines b k = lines a k -> lines b' k = lines a' k.
Proof.
  intros Hfr.
  pose proof (same_frame_start_head a b i Hfr) as [Hsh _].
  destruct Hfr as (Hc & Ha & Hm & He & Ht & Hl).
  unfold update_line. rewrite Ha.
  destruct (active_start_of_lines a i =? -1) eqn:Hact.
  { intros H; injection H as <-. exists b. split; [reflexivity|].
    split; [unfold same_frame; repeat split; auto|].
    intros k [->|Hk]; auto.
    apply Z.eqb_eq in Hact. destruct (Hl i) as [|(Hn & _)]; tauto. }
  apply Z.eqb_neq in Hact. rewrite Hsh.
  destruct ((start_head (lines a i) <? 0)
            || (start_head (lines a i) >=? AC_LINE_MAX E)) eqn:Hb;
    [discriminate|].
  assert (Hr : reset_line (lines b i) = reset_line (lines a i)).
  { destruct (Hl i) as [->|(_ & _ & Hr)]; auto. }
  rewrite Hr. cbn [current_line active_start_of_lines max_text_width set_line].
  rewrite Hc, Ha, Hm.
  assert (Hgen : forall l l0,
            same_frame (set_line i l (set_line i l0 a))
                       (set_line i l (set_line i l0 b))
            /\ forall k, k = i \/ lines b k = lines a k ->
                 lines (set_line i l (set_line i l0 b)) k
                 = lines (set_line i l (set_line i l0 a)) k).
  { intros l l0. split.
    - unfold same_frame; cbn. repeat split; auto.
      intros k. destruct (Z.eq_dec k i) as [->|Hne].
      + left. now rewrite !upd_same.
      + rewrite !upd_other by auto. apply Hl.
    - intros k Hk. cbn. destruct (Z.eq_dec k i) as [->|Hne].
      + now rewrite !upd_same.
      + rewrite !upd_other by auto. destruct Hk; tauto. }
  assert (Hgen1 : forall l,
            same_frame (set_line i l a) (set_line i l b)
            /\ forall k, k = i \/ lines b k = lines a k ->
                 lines (set_line i l b) k = lines (set_line i l a) k).
  { intros l. split.
    - unfold same_frame; cbn. repeat split; auto.
      intros k. destruct (Z.eq_dec k i) as [->|Hne].
      + left. now rewrite !upd_same.
      + rewrite !upd_other by auto. apply Hl.
    - intros k Hk. cbn. destruct (Z.eq_dec k i) as [->|Hne].
      + now rewrite !upd_same.
      + rewrite !upd_other by auto. destruct Hk; tauto. }
  destruct (Z.of_nat (List.length tokens) =? 0).
  { intros H; injection H as <-. eexists; split; [reflexivity|apply Hgen1]. }
  destruct (size_t_of (active_start_of_lines a i) >=? Z.of_nat (List.length tokens)).
  { destruct (i =? current_line a); [discriminate|].
    intros H; injection H as <-. eexists; split; [reflexivity|apply Hgen1]. }
  match goal with |- context [print_line ?x1 ?x2 ?x3 ?x4 ?x5 ?x6 ?x7 ?x8 ?x9 ?x10 ?x11] =>
    destruct (print_line x1 x2 x3 x4 x5 x6 x7 x8 x9 x10 x11) as [l'|t l'|f'] end;
    try discriminate.
  intros H; injection H as <-. eexists; split; [reflexivity|apply Hgen].
Qed.

Lemma update_lines_agree (caps : list bool) (idxs : list Z) :
  forall a b a',
    same_frame a b ->
    update_lines E cfg tokens caps idxs a = Done a' ->
    exists b',
      update_lines E cfg tokens caps idxs b = Done b'
      /\ same_frame a' b'
      /\ forall k, In k idxs \/ lines b k = lines a k ->
           lines b' k = lines a' k.
Proof.
  induction idxs as [|i rest IH]; intros a b a' Hfr; cbn [update_lines].
  - intros H; injection H as <-. exists b.
    split; [reflexivity|]. split; [exact Hfr|].
    intros k [[]|Hk]; exact Hk.
  - destruct (update_line E cfg tokens caps i a) as [a1|r a1|f] eqn:Hi;
      try discriminate.
    destruct (update_line_agree caps i a b a1 Hfr Hi) as (b1 & Hb1 & Hfr1 & Hk1).
    rewrite Hb1. intros Hrest.
    destruct (IH a1 b1 a' Hfr1 Hrest) as (b' & Hb' & Hfr' & Hk').
    exists b'. split; [exact Hb'|]. split; [exact Hfr'|].
    intros k Hk. apply Hk'. destruct Hk as [[->|Hin]|Heq]; auto.
Qed.

(** A pass that completes is a fixed point: run again on its result, it
    completes on a state with the same markers and the same lines. *)
Lemma update_pass_idempotent (lg lg1 : line_generator) :
  update_pass E cfg tokens lg = Done lg1 ->
  exists lg2,
    update_pass E cfg tokens lg1 = Done lg2
    /\ same_frame lg1 lg2
    /\ forall k, In k (slots E) -> lines lg2 k = lines lg1 k.
Proof.
  rewrite !update_pass_unfold.
  destruct (Z.of_nat (List.length tokens) >? 1024); [discriminate|].
  intros Hu.
  pose proof (update_lines_frame E cfg tokens (snd (scan_of tokens lg))
                (slots E) (set_tcap (fst (scan_of tokens lg)) lg)) as Hf.
  rewrite Hu in Hf.
  assert (Ht : tcap lg1 = fst (scan_of tokens lg)) by apply Hf.
  rewrite (scan_of_rescan tokens lg lg1 Ht).
  assert (Hfr : same_frame (set_tcap (fst (scan_of tokens lg)) lg)
                           (set_tcap (fst (scan_of tokens lg)) lg1)).
  { destruct Hf as (Hc & Ha & Hm & He & _ & Hl).
    unfold same_frame; cbn. repeat split; auto. }
  destruct (update_lines_agree _ _ _ _ _ Hfr Hu) as (lg2 & Hu2 & Hfr2 & Hk).
  exists lg2. split; [exact Hu2|]. split.
  - pose proof (update_lines_frame E cfg tokens (snd (scan_of tokens lg))
                  (slots E) (set_tcap (fst (scan_of tokens lg)) lg1)) as Hf2.
    rewrite Hu2 in Hf2.
    destruct Hf2 as (Hc & Ha & Hm & He & Ht2 & Hl).
    cbn in Hc, Ha, Hm, He, Ht2, Hl.
    unfold same_frame. repeat split; auto. congruence.
  - intros k Hin. apply Hk. now left.
Qed.

End Idempotence.

Section Calls.

Variable E : externals.
Variable cfg : gsettings.
Variable tokens : list AprilToken.

Lemma update_lines_outside (caps : list bool) (idxs : list Z)
    (lg lg' : line_generator) :
  update_lines E cfg tokens caps idxs lg = Done lg' ->
  forall k, ~ In k idxs -> lines lg' k = lines lg k.
Proof.
  intros Hu.
  pose proof (update_lines_inv E cfg tokens caps
                (fun x => forall k, ~ In k idxs -> lines x k = lines lg k)
                idxs) as H.
  match type of H with ?A -> _ => assert (Hs : A) end.
  { intros i a b Hin Ha Hd k Hk.
    apply update_line_Done in Hd. destruct Hd as [_ Hd].
    rewrite Hd; [now apply Ha|]. intros ->. contradiction. }
  specialize (H Hs lg (fun k _ => eq_refl)).
  now rewrite Hu in H.
Qed.

(** A call that returns a state returns what some pass completed with. *)
Lemma update_trace_last_pass :
  forall (fuel : nat) (lg lg1 : line_generator) (rs : list retry),
    update_trace E cfg tokens fuel lg = Some (rs, inl lg1) ->
    exists lgk, update_pass E cfg tokens lgk = Done lg1.
Proof.
  induction fuel as [|fuel IH]; intros lg lg1 rs; cbn [update_trace];
    [discriminate|].
  destruct (update_pass E cfg tokens lg) as [lg'|r lg'|f] eqn:Hp.
  - intros H; injection H as _ <-. now exists lg.
  - destruct (update_trace E cfg tokens fuel lg') as [[rs' res]|] eqn:Ht;
      [|discriminate].
    intros H; injection H as _ ->. eapply IH; eauto.
  - discriminate.
Qed.

(** C1. A call of [line_generator_update] that returns leaves a state on
    which a second call with the same tokens and settings returns at once
    (its first pass completes, with no tail call) and changes nothing: every
    line (text, cursors, widths), the growing line's index and the start
    markers are the same after the second call as after the first. *)
Theorem update_twice_same_lines (fuel : nat) (lg lg1 : line_generator) :
  line_generator_update E cfg tokens fuel lg = Some (inl lg1) ->
  exists lg2,
    (forall fuel', update_trace E cfg tokens (S fuel') lg1 = Some ([], inl lg2))
    /\ (forall k, lines lg2 k = lines lg1 k)
    /\ current_line lg2 = current_line lg1
    /\ active_start_of_lines lg2 = active_start_of_lines lg1
    /\ tcap lg2 = tcap lg1.
Proof.
  unfold line_generator_update.
  destruct (update_trace E cfg tokens fuel lg) as [[rs res]|] eqn:Ht;
    [|discriminate].
  cbn. intros H; injection H as ->.
  destruct (update_trace_last_pass fuel lg lg1 rs Ht) as (lgk & Hk).
  destruct (update_pass_idempotent E cfg tokens lgk lg1 Hk)
    as (lg2 & Hp2 & Hfr & Hin).
  exists lg2. split; [|split].
  - intros fuel'. cbn [update_trace]. now rewrite Hp2.
  - intros k. destruct (in_dec Z.eq_dec k (slots E)) as [Hk'|Hk']; [auto|].
    rewrite update_pass_unfold in Hp2.
    destruct (Z.of_nat (List.length tokens) >? 1024); [discriminate|].
    now rewrite (update_lines_outside _ _ _ _ Hp2 k Hk').
  - destruct Hfr as (Hc & Ha & _ & _ & Htc & _). auto.
Qed.

End Calls.

Lemma update_twice_same_lines_witness :
  let lg := fresh_generator E_ref 8 in
  let tokens := [word " " 1; word "hello" 0; word "." 2; word " " 1;
                 word "world" 0] in
  let lg1 := run E_ref cfg_plain tokens 5 lg in
  line_generator_update E_ref cfg_plain tokens 5 lg = Some (inl lg1)
  /\ exists lg2,
       line_generator_update E_ref cfg_plain tokens 1 lg1 = Some (inl lg2)
       /\ forall k, lines lg2 k = lines lg1 k.
Proof.
  cbn zeta. split; [vm_compute; reflexivity|].
  destruct (update_twice_same_lines E_ref cfg_plain
              [word " " 1; word "hello" 0; word "." 2; word " " 1;
               word "world" 0] 5 (fresh_generator E_ref 8)
              (run E_ref cfg_plain
                 [word " " 1; word "hello" 0; word "." 2; word " " 1;
                  word "world" 0] 5 (fresh_generator E_ref 8)))
    as (lg2 & Hrun & Hlines & _).
  - vm_compute; reflexivity.
  - exists lg2. split; [|exact Hlines].
    unfold line_generator_update. now rewrite (Hrun 0%nat).
Defined.

(** ** After [line_generator_finalize] *)

Lemma size_t_of_small (z : Z) : 0 <= z < 2 ^ 64 -> size_t_of z = z.
Proof. intros H. unfold size_t_of. now apply Z.mod_small. Qed.

Lemma size_t_of_nonneg (z : Z) : 0 <= size_t_of z.
Proof. unfold size_t_of. apply Z.mod_pos_bound. lia. Qed.

Section AfterFinalize.

Variable E : externals.
Variable cfg : gsettings.
Variable tokens : list AprilToken.

Local Abbreviation num_tokens := (Z.of_nat (List.length tokens)).

Lemma update_pass_Backtrack (lg lg' : line_generator) :
  update_pass E cfg tokens lg = Retry Backtrack lg' ->
  let c := current_line lg in
  In c (slots E)
  /\ active_start_of_lines lg c <> -1
  /\ num_tokens <> 0
  /\ num_tokens <= 1024
  /\ num_tokens <= size_t_of (active_start_of_lines lg c)
  /\ current_line lg' = REL_LINE_IDX E c (-1)
  /\ active_start_of_lines lg' = upd (active_start_of_lines lg) c (-1)
  /\ max_text_width lg' = max_text_width lg.
Proof.
  rewrite update_pass_unfold.
  destruct (num_tokens >? 1024) eqn:Hn; [discriminate|].
  rewrite Z.gtb_ltb in Hn. apply Z.ltb_ge in Hn.
  pose proof (update_lines_frame E cfg tokens (snd (scan_of tokens lg)) (slots E)
                (set_tcap (fst (scan_of tokens lg)) lg)) as Hf.
  intros Hu. rewrite Hu in Hf.
  destruct Hf as (i & lgm & Hin & Hfr & Hb).
  apply update_line_Backtrack in Hb.
  destruct Hfr as (Hc & Ha & Hm & _).
  cbn in Hc, Ha, Hm.
  destruct Hb as (Hi & Hact & Hn0 & Hge & Hc' & Ha' & _ & Hm' & _).
  rewrite Hc in Hi. subst i. rewrite Ha in *.
  cbn. repeat split; auto; congruence.
Qed.

(** A pass from a state whose growing line starts inside the tokens never
    backtracks; the slots it leaves inactive were inactive before and are
    untouched; and the growing line still starts inside the tokens. *)
Lemma update_pass_inactive_untouched (lg : line_generator) :
  growing_line_in_range tokens lg ->
  match update_pass E cfg tokens lg with
  | Done lg' | Retry Wrap lg' =>
      growing_line_in_range tokens lg'
      /\ forall k, active_start_of_lines lg' k = -1 ->
           active_start_of_lines lg k = -1 /\ lines lg' k = lines lg k
  | Retry Backtrack _ => False
  | Fault _ => True
  end.
Proof.
  intros HJ.
  destruct (update_pass E cfg tokens lg) as [lg'|[|] lg'|f] eqn:Hp; [| | |exact I].
  - rewrite update_pass_unfold in Hp.
    destruct (num_tokens >? 1024); [discriminate|].
    pose proof (update_lines_frame E cfg tokens (snd (scan_of tokens lg)) (slots E)
                  (set_tcap (fst (scan_of tokens lg)) lg)) as Hf.
    rewrite Hp in Hf.
    pose proof (fun k => same_frame_inactive _ _ k Hf) as Hin.
    destruct Hf as (Hc & Ha & _). cbn in Hc, Ha, Hin.
    split.
    + unfold growing_line_in_range in *. now rewrite Hc, Ha.
    + intros k Hk. rewrite Ha in Hk. auto.
  - apply update_pass_Backtrack in Hp. cbn zeta in Hp.
    destruct Hp as (_ & _ & Hn0 & Hn & Hge & _).
    destruct HJ as [->|HJ]; [now apply Hn0|].
    rewrite size_t_of_small in Hge by (change (2 ^ 64) with 18446744073709551616; lia).
    lia.
  - pose proof Hp as Hp'. apply update_pass_Wrap in Hp'. cbn zeta in Hp'.
    destruct Hp' as (_ & Hact & _ & Hn & j & Hj & Hc & Ha & _).
    pose proof (size_t_of_nonneg (active_start_of_lines lg (current_line lg))) as H0.
    set (start := size_t_of (active_start_of_lines lg (current_line lg))) in *.
    destruct (wrap_target_spec tokens start
                (start_head (lines lg (current_line lg))) j) as (Ht & _);
      [lia|].
    set (tgt := wrap_target tokens start
                  (start_head (lines lg (current_line lg))) j) in *.
    split.
    + right. rewrite Hc, Ha, upd_same. lia.
    + intros k Hk. rewrite Ha in Hk.
      assert (Hne : k <> REL_LINE_IDX E (current_line lg) 1).
      { intros ->. rewrite upd_same in Hk. lia. }
      rewrite upd_other in Hk by exact Hne. split; [exact Hk|].
      rewrite update_pass_unfold in Hp.
      destruct (num_tokens >? 1024); [discriminate|].
      pose proof (update_lines_frame E cfg tokens (snd (scan_of tokens lg))
                    (slots E) (set_tcap (fst (scan_of tokens lg)) lg)) as Hf.
      rewrite Hp in Hf. destruct Hf as (i & lgm & _ & Hfr & Hw).
      apply update_line_Wrap in Hw.
      destruct Hw as (Hi & _ & _ & j' & _ & _ & _ & _ & _ & _ & _ & Hl & _).
      pose proof (same_frame_inactive _ _ k Hfr Hk) as Hkm.
      destruct Hfr as (Hcm & _). cbn in Hcm, Hkm.
      rewrite Hcm in Hi. subst i.
      rewrite Hl; [exact Hkm| |exact Hne].
      intros ->. contradiction.
Qed.

End AfterFinalize.

(** ** The write cursor and the buffer capacity *)

Lemma in_slots (E : externals) (i : Z) :
  In i (slots E) <-> in_array E i = true.
Proof.
  unfold slots, in_array. rewrite in_map_iff. split.
  - intros (n & <- & Hn). apply in_seq in Hn.
    apply andb_true_intro. split; [apply Z.leb_le|apply Z.ltb_lt]; lia.
  - intros H. apply andb_prop in H. destruct H as [H0 H1].
    apply Z.leb_le in H0. apply Z.ltb_lt in H1.
    exists (Z.to_nat i). split; [lia|]. apply in_seq. lia.
Qed.

Lemma REL_LINE_IDX_in_array (E : externals) (hd idx : Z) :
  0 < AC_LINE_COUNT E -> in_array E (REL_LINE_IDX E hd idx) = true.
Proof.
  intros HN. unfold in_array, REL_LINE_IDX.
  pose proof (Z.mod_pos_bound (size_t_of (4 * AC_LINE_COUNT E + hd + idx))
                (AC_LINE_COUNT E) HN) as H.
  apply andb_true_intro. split; [apply Z.leb_le|apply Z.ltb_lt]; lia.
Qed.

Lemma in_array_count_pos (E : externals) (i : Z) :
  in_array E i = true -> 0 < AC_LINE_COUNT E.
Proof.
  unfold in_array. intros H. apply andb_prop in H. destruct H as [H0 H1].
  apply Z.leb_le in H0. apply Z.ltb_lt in H1. lia.
Qed.

Section Capacity.

Variable E : externals.
Variable cfg : gsettings.
Variable tokens : list AprilToken.

Hypothesis Hfit : pieces_fit E cfg tokens.

Lemma print_line_heads (caps : list bool) (cur : bool) (start mw end_ : Z) :
  forall (fuel : nat) (j : Z) (curr : line),
    head curr < AC_LINE_MAX E ->
    match print_line E cfg tokens caps cur start mw end_ fuel j curr with
    | LDone l' | LWrap _ l' => head l' < AC_LINE_MAX E
    | LFault f => f <> LineOverflow
    end.
Proof.
  induction fuel as [|fuel IH]; intros j curr Hh; [cbn; exact Hh|].
  cbn [print_line].
  destruct (j <? end_); [|exact Hh].
  destruct (nth_error tokens (Z.to_nat j)) as [tk|] eqn:Htk; [|discriminate].
  pose proof (Hfit caps j tk) as Hlen.
  destruct (select_token E cfg tokens caps j tk) as [tok skipahead] eqn:Hsel.
  destruct (head curr >? AC_LINE_MAX E - 256) eqn:Hbrk; [exact Hh|].
  rewrite Z.gtb_ltb in Hbrk. apply Z.ltb_ge in Hbrk.
  set (curr1 := if cur then set_len _ curr else curr).
  assert (Hh1 : head curr1 = head curr) by (subst curr1; now destruct cur).
  destruct (cur && (len curr1 >=? mw)); [now rewrite Hh1|].
  destruct (fade_alpha (logprob tk)) as [alpha|]; [|discriminate].
  specialize (Hlen alpha Htk eq_refl). cbn [fst] in Hlen.
  set (s := format_token _ _ _) in *.
  assert (Hh2 : head (append_line s curr1) < AC_LINE_MAX E)
    by (cbn [head append_line]; lia).
  apply Z.ltb_lt in Hh2. rewrite Hh2. apply Z.ltb_lt in Hh2.
  now apply IH.
Qed.

Lemma update_line_heads (caps : list bool) (i : Z) (lg : line_generator) :
  (active_start_of_lines lg i <> -1 ->
     0 <= start_head (lines lg i) < AC_LINE_MAX E) ->
  match update_line E cfg tokens caps i lg with
  | Done lg' =>
      active_start_of_lines lg i <> -1 -> cursor_in_buffer E (lines lg' i)
  | Retry _ _ => True
  | Fault f => f <> LineOverflow
  end.
Proof.
  intros Hcp. unfold update_line.
  destruct (active_start_of_lines lg i =? -1) eqn:Hact.
  { apply Z.eqb_eq in Hact. intros; contradiction. }
  apply Z.eqb_neq in Hact. specialize (Hcp Hact).
  assert (Hb : (start_head (lines lg i) <? 0)
               || (start_head (lines lg i) >=? AC_LINE_MAX E) = false).
  { apply orb_false_intro; [apply Z.ltb_ge|rewrite Z.geb_leb; apply Z.leb_gt]; lia. }
  rewrite Hb.
  assert (Hr : cursor_in_buffer E (reset_line (lines lg i)))
    by (unfold cursor_in_buffer; cbn; lia).
  destruct (Z.of_nat (List.length tokens) =? 0).
  { intros _. cbn. now rewrite upd_same. }
  cbn [set_line active_start_of_lines current_line max_text_width].
  destruct (size_t_of (active_start_of_lines lg i) >=? Z.of_nat (List.length tokens)).
  { destruct (i =? current_line lg); [exact I|].
    intros _. cbn. now rewrite upd_same. }
  match goal with |- context [print_line ?a ?b ?c ?d ?e ?f ?g ?h ?n ?j ?l] =>
    pose proof (print_line_heads d e f g h n j l) as Hp;
    pose proof (print_line_frozen a b c d e f g h n j l
                  (reset_line_ok _ (proj1 Hcp))) as Hfz;
    destruct (print_line a b c d e f g h n j l) as [l'|t l'|f'] end.
  - intros _. cbn. rewrite upd_same. destruct Hfz as [Hrs (Hok & _)].
    split; [exact Hok|]. apply Hp. cbn. lia.
  - exact I.
  - apply Hp. cbn. lia.
Qed.

Lemma update_line_checkpoints (caps : list bool) (i : Z) (lg : line_generator) :
  in_array E i = true ->
  checkpoints_in_buffer E lg ->
  match update_line E cfg tokens caps i lg with
  | Done lg' | Retry _ lg' => checkpoints_in_buffer E lg'
  | Fault _ => True
  end.
Proof.
  intros Hin Hcp.
  destruct (update_line E cfg tokens caps i lg) as [lg'|[|] lg'|f] eqn:Hu;
    [| | |exact I].
  - apply update_line_Done in Hu. destruct Hu as [Hfr _].
    intros k Hk Hact.
    destruct (same_frame_start_head _ _ k Hfr) as [-> _].
    destruct Hfr as (_ & Ha & _). rewrite Ha in Hact. auto.
  - apply update_line_Backtrack in Hu.
    destruct Hu as (_ & _ & _ & _ & _ & Ha & Hl & _).
    intros k Hk Hact. rewrite Ha in Hact. rewrite Hl.
    destruct (Z.eq_dec k i) as [->|Hne].
    + rewrite upd_same in Hact. contradiction.
    + rewrite upd_other in Hact by exact Hne.
      rewrite upd_other by exact Hne. auto.
  - apply update_line_Wrap in Hu.
    destruct Hu as (_ & Hact & Hb & j & _ & _ & Ha & _ & _ & Hs0 & _ & Hl & _ & Hr).
    intros k Hk Hactk. rewrite Ha in Hactk.
    destruct (Z.eq_dec k (REL_LINE_IDX E i 1)) as [->|Hne].
    + rewrite Hs0. lia.
    + rewrite upd_other in Hactk by exact Hne.
      destruct (Z.eq_dec k i) as [->|Hni].
      * assert (Hrk : reset_line (lines lg' i) = reset_line (lines lg i))
          by (apply Hr; auto).
        unfold reset_line in Hrk. injection Hrk as _ Hsh _. rewrite Hsh. auto.
      * rewrite Hl by auto. auto.
Qed.

Lemma update_lines_heads (caps : list bool) (idxs : list Z) :
  forall lg,
    (forall i, In i idxs -> in_array E i = true) ->
    checkpoints_in_buffer E lg ->
    match update_lines E cfg tokens caps idxs lg with
    | Done lg' =>
        checkpoints_in_buffer E lg'
        /\ forall i, In i idxs -> active_start_of_lines lg' i <> -1 ->
             cursor_in_buffer E (lines lg' i)
    | Retry _ lg' => checkpoints_in_buffer E lg'
    | Fault f => f <> LineOverflow
    end.
Proof.
  induction idxs as [|i rest IH]; intros lg Hidx Hcp; cbn [update_lines].
  { split; [exact Hcp|]. intros i []. }
  assert (Hi : in_array E i = true) by (apply Hidx; now left).
  pose proof (update_line_heads caps i lg (Hcp i Hi)) as Hh.
  pose proof (update_line_checkpoints caps i lg Hi Hcp) as Hc.
  destruct (update_line E cfg tokens caps i lg) as [lg1|r lg1|f] eqn:Hu;
    [|exact Hc|exact Hh].
  specialize (IH lg1 (fun k Hk => Hidx k (or_intror Hk)) Hc).
  destruct (update_lines E cfg tokens caps rest lg1) as [lg'|r lg'|f] eqn:Hrest;
    auto.
  destruct IH as [Hcp' IH]. split; [exact Hcp'|].
  intros k [<-|Hk] Hact; [|now apply IH].
  destruct (in_dec Z.eq_dec i rest) as [Hir|Hir]; [now apply IH|].
  rewrite (update_lines_outside E cfg tokens caps rest lg1 lg' Hrest i Hir).
  apply Hh.
  pose proof (update_lines_frame E cfg tokens caps rest lg1) as Hf1.
  rewrite Hrest in Hf1. destruct Hf1 as (_ & Ha1 & _).
  apply update_line_Done in Hu. destruct Hu as [(_ & Ha & _) _].
  congruence.
Qed.

Lemma update_pass_heads (lg : line_generator) :
  checkpoints_in_buffer E lg ->
  match update_pass E cfg tokens lg with
  | Done lg' =>
      checkpoints_in_buffer E lg'
      /\ forall i, in_array E i = true -> active_start_of_lines lg' i <> -1 ->
           cursor_in_buffer E (lines lg' i)
  | Retry _ lg' => checkpoints_in_buffer E lg'
  | Fault f => f <> LineOverflow
  end.
Proof.
  intros Hcp. rewrite update_pass_unfold.
  destruct (Z.of_nat (List.length tokens) >? 1024); [discriminate|].
  pose proof (update_lines_heads (snd (scan_of tokens lg)) (slots E)
                (set_tcap (fst (scan_of tokens lg)) lg)
                (fun i Hi => proj1 (in_slots E i) Hi) Hcp) as H.
  destruct (update_lines E cfg tokens (snd (scan_of tokens lg)) (slots E)
              (set_tcap (fst (scan_of tokens lg)) lg)); auto.
  destruct H as [H1 H2]. split; [exact H1|].
  intros i Hi. apply H2. now apply in_slots.
Qed.

Lemma update_trace_heads :
  forall (fuel : nat) (lg : line_generator),
    checkpoints_in_buffer E lg ->
    match update_trace E cfg tokens fuel lg with
    | Some (_, inl lg') =>
        checkpoints_in_buffer E lg'
        /\ forall i, in_array E i = true -> active_start_of_lines lg' i <> -1 ->
             cursor_in_buffer E (lines lg' i)
    | Some (_, inr f) => f <> LineOverflow
    | None => True
    end.
Proof.
  induction fuel as [|fuel IH]; intros lg Hcp; cbn [update_trace]; [exact I|].
  pose proof (update_pass_heads lg Hcp) as Hp.
  destruct (update_pass E cfg tokens lg) as [lg'|r lg'|f]; auto.
  specialize (IH lg' Hp).
  destruct (update_trace E cfg tokens fuel lg') as [[rs [lg2|f]]|]; auto.
Qed.

End Capacity.

(** *** The pieces that always fit: lower-case display *)

Lemma clamp_alpha_range (a : Z) : 10000 <= clamp_alpha a <= 65535.
Proof.
  unfold clamp_alpha.
  destruct (Z.quot a 2 + 32768 <? 10000) eqn:H1.
  - cbn. lia.
  - apply Z.ltb_ge in H1.
    destruct (Z.quot a 2 + 32768 >? 65535) eqn:H2; [lia|].
    rewrite Z.gtb_ltb in H2. apply Z.ltb_ge in H2. lia.
Qed.

Lemma fade_alpha_range (lp : spec_float) (alpha : Z) :
  fade_alpha lp = Some alpha -> 10000 <= alpha <= 65535.
Proof.
  unfold fade_alpha. destruct (scaled_confidence lp); [|discriminate].
  cbn. intros H; injection H as <-. apply clamp_alpha_range.
Qed.

Lemma little_double_digits (d : Decimal.uint) :
  (Decimal.nb_digits (Decimal.Little.double d) <= S (Decimal.nb_digits d))%nat
  /\ (Decimal.nb_digits (Decimal.Little.succ_double d)
      <= S (Decimal.nb_digits d))%nat.
Proof.
  induction d as [|d [IH1 IH2]|d [IH1 IH2]|d [IH1 IH2]|d [IH1 IH2]|d [IH1 IH2]
                  |d [IH1 IH2]|d [IH1 IH2]|d [IH1 IH2]|d [IH1 IH2]|d [IH1 IH2]];
    cbn; split; lia.
Qed.

Lemma to_little_uint_digits (p : positive) :
  forall n : nat, Zpos p < 2 ^ Z.of_nat n ->
    (Decimal.nb_digits (Pos.to_little_uint p) <= n)%nat.
Proof.
  induction p as [p IH|p IH|]; intros n Hn.
  - destruct n as [|n]; [cbn in Hn; lia|].
    rewrite Nat2Z.inj_succ, Z.pow_succ_r in Hn by lia.
    cbn [Pos.to_little_uint].
    pose proof (proj2 (little_double_digits (Pos.to_little_uint p))).
    specialize (IH n). assert (Zpos p < 2 ^ Z.of_nat n) by lia. lia.
  - destruct n as [|n]; [cbn in Hn; lia|].
    rewrite Nat2Z.inj_succ, Z.pow_succ_r in Hn by lia.
    cbn [Pos.to_little_uint].
    pose proof (proj1 (little_double_digits (Pos.to_little_uint p))).
    specialize (IH n). assert (Zpos p < 2 ^ Z.of_nat n) by lia. lia.
  - destruct n as [|n]; [cbn in Hn; lia|]. cbn. lia.
Qed.

Lemma string_of_uint_length (d : Decimal.uint) :
  String.length (NilZero.string_of_uint d)
  = match d with Decimal.Nil => 1%nat | _ => Decimal.nb_digits d end.
Proof.
  assert (H : forall u, String.length (NilEmpty.string_of_uint u)
                        = Decimal.nb_digits u).
  { induction u; cbn; congruence. }
  destruct d; cbn; now rewrite ?H.
Qed.

Lemma c_str_length (s : string) : List.length (c_str s) = String.length s.
Proof. unfold c_str. induction s; cbn; congruence. Qed.

(** [%d] prints an opacity in at most 16 characters (in fact five). *)
Lemma decimal_length (a : Z) :
  0 < a < 65536 -> (List.length (decimal a) <= 16)%nat.
Proof.
  intros Ha. destruct a as [|p|p]; try lia.
  unfold decimal. rewrite c_str_length. cbn [Z.to_int NilZero.string_of_int].
  rewrite string_of_uint_length.
  pose proof (to_little_uint_digits p 16) as H.
  unfold Pos.to_uint. rewrite DecimalFacts.nb_digits_rev.
  assert (Hd : (Decimal.nb_digits (Pos.to_little_uint p) <= 16)%nat)
    by (apply H; cbn; lia).
  destruct (Decimal.rev (Pos.to_little_uint p)); lia.
Qed.

Lemma span_markup_length (alpha : Z) (tok : bytes) :
  List.length (span_markup alpha tok)
  = (24 + List.length (decimal alpha) + List.length tok)%nat.
Proof.
  unfold span_markup. rewrite !length_app, !c_str_length. cbn. lia.
Qed.

Section LowerCase.

Variable E : externals.

Hypothesis Hutf8 : forall c, (List.length (g_unichar_to_utf8 E c) <= 6)%nat.

(** [token_scratch] never holds more than 71 bytes before its NUL. *)
Lemma lowercase_loop_length :
  forall (fuel : nat) (p out : bytes) (cap : bool),
    (List.length out + 6 < 72)%nat ->
    (List.length (lowercase_loop E fuel p out cap) <= 71)%nat.
Proof.
  induction fuel as [|fuel IH]; intros p out cap Hout; cbn [lowercase_loop];
    [lia|].
  destruct p as [|b p']; [lia|].
  destruct ((g_utf8_get_char_validated E (b :: p') =? 2 ^ 32 - 2)
            || (g_utf8_get_char_validated E (b :: p') =? 2 ^ 32 - 1)); [lia|].
  match goal with |- context [out ++ g_unichar_to_utf8 E ?c] =>
    pose proof (Hutf8 c) as Hc; set (out' := out ++ g_unichar_to_utf8 E c) in * end.
  assert (Hl : (List.length out' <= List.length out + 6)%nat)
    by (subst out'; rewrite length_app; lia).
  destruct (Z.of_nat (List.length out') + 6 >=? MAX_TOKEN_SCRATCH) eqn:Hfull;
    [lia|].
  rewrite Z.geb_leb in Hfull. apply Z.leb_gt in Hfull.
  unfold MAX_TOKEN_SCRATCH in Hfull. apply IH. lia.
Qed.

Lemma lowercase_token_length (tok : bytes) (cap : bool) :
  (List.length (lowercase_token E tok cap) <= 71)%nat.
Proof. unfold lowercase_token. apply lowercase_loop_length. cbn. lia. Qed.

Lemma pieces_fit_lowercase (cfg : gsettings) (tokens : list AprilToken) :
  text_uppercase cfg = false ->
  (List.length (SWEAR_REPLACEMENT E) <= 200)%nat ->
  pieces_fit E cfg tokens.
Proof.
  intros Hlow Hrep caps j tk alpha _ Halpha.
  apply fade_alpha_range in Halpha.
  assert (Htok : (List.length (fst (select_token E cfg tokens caps j tk))
                  <= 200)%nat).
  { unfold select_token. rewrite Hlow. cbn [negb].
    pose proof (lowercase_token_length (c_str (token tk))
                  (nth (Z.to_nat j) caps false)) as Hl.
    destruct (filter_active (filter_mode_of cfg)
              && has_flag (flags tk) APRIL_TOKEN_FLAG_WORD_BOUNDARY_BIT);
      [|cbn; lia].
    destruct (get_filter_skip E tokens j (Z.of_nat (List.length tokens))
                (filter_mode_of cfg) >? 0); cbn; lia. }
  unfold format_token. destruct (fade_text cfg); [|lia].
  rewrite span_markup_length.
  pose proof (decimal_length alpha). lia.
Qed.

End LowerCase.

(** X25. Where the 256-byte margin works. Provided every text appended
    for a token, markup included, is at most 255 bytes long (which holds by
    construction in lower-case display, where a token is drawn through the
    72-byte scratch buffer, for a GLib that encodes a character in at most
    6 bytes and a replacement text of at most 200 bytes), and every active
    slot starts from a checkpoint inside its buffer: a call of
    [line_generator_update] never stores outside a line buffer and never
    fails the assertion [head < AC_LINE_MAX] (no pass faults with
    [LineOverflow], which is checked after each append), and when it
    returns, the cursor of every active slot lies at or after its
    checkpoint and strictly below the capacity. A token met while the
    cursor is above [AC_LINE_MAX - 256] ends the line's loop at once,
    leaving the line as it is. *)
Theorem cursor_stays_below_capacity (E : externals) (cfg : gsettings)
    (tokens : list AprilToken) (lg : line_generator) (fuel : nat) :
  pieces_fit E cfg tokens
  \/ (text_uppercase cfg = false
      /\ (forall c, (List.length (g_unichar_to_utf8 E c) <= 6)%nat)
      /\ (List.length (SWEAR_REPLACEMENT E) <= 200)%nat) ->
  checkpoints_in_buffer E lg ->
  match line_generator_update E cfg tokens fuel lg with
  | Some (inl lg') =>
      forall i, in_array E i = true -> active_start_of_lines lg' i <> -1 ->
        cursor_in_buffer E (lines lg' i)
  | Some (inr f) => f <> LineOverflow
  | None => True
  end
  /\ forall caps cur start mw end_ fuel' j curr tk,
       j < end_ -> nth_error tokens (Z.to_nat j) = Some tk ->
       head curr > AC_LINE_MAX E - 256 ->
       print_line E cfg tokens caps cur start mw end_ (S fuel') j curr
       = LDone curr.
Proof.
  intros Hfit Hcp.
  assert (Hfit' : pieces_fit E cfg tokens).
  { destruct Hfit as [H|(Hlow & Hutf8 & Hrep)]; [exact H|].
    now apply pieces_fit_lowercase. }
  split.
  - unfold line_generator_update.
    pose proof (update_trace_heads E cfg tokens Hfit' fuel lg Hcp) as H.
    destruct (update_trace E cfg tokens fuel lg) as [[rs [lg'|f]]|]; cbn; auto.
    apply H.
  - intros caps cur start mw end_ fuel' j curr tk Hj Htk Hh.
    cbn [print_line]. apply Z.ltb_lt in Hj. rewrite Hj, Htk.
    destruct (select_token E cfg tokens caps j tk).
    assert (Hb : (head curr >? AC_LINE_MAX E - 256) = true)
      by (apply Z.gtb_lt; lia).
    now rewrite Hb.
Qed.

Lemma cursor_stays_below_capacity_witness :
  match line_generator_update E_ref cfg_plain tokens_hello_world 5
          (fresh_generator E_ref 8) with
  | Some (inl lg') =>
      forall i, in_array E_ref i = true -> active_start_of_lines lg' i <> -1 ->
        cursor_in_buffer E_ref (lines lg' i)
  | Some (inr f) => f <> LineOverflow
  | None => True
  end.
Proof.
  assert (Hfit : pieces_fit E_ref cfg_plain tokens_hello_world
                 \/ (text_uppercase cfg_plain = false
                     /\ (forall c,
                           (List.length (g_unichar_to_utf8 E_ref c) <= 6)%nat)
                     /\ (List.length (SWEAR_REPLACEMENT E_ref) <= 200)%nat)).
  { right. split; [reflexivity|]. split; [intros c; cbn; lia|cbn; lia]. }
  assert (Hcp : checkpoints_in_buffer E_ref (fresh_generator E_ref 8)).
  { intros i Hi _. cbn. rewrite Hi. cbn. lia. }
  pose proof (cursor_stays_below_capacity E_ref cfg_plain tokens_hello_world
                (fresh_generator E_ref 8) 5 Hfit Hcp) as H.
  destruct H as [H _]. exact H.
Defined.

(** C8, evaluated where it fails. In upper-case display a token is
    appended as it is, whatever its length. Sixteen tokens of 256 bytes:
    after fifteen of them the cursor is at 3840, which is not above
    [AC_LINE_MAX - 256], so the check of line 234 lets the sixteenth
    through; its append moves the cursor to 4096, the terminator is stored
    past the buffer and the assertion of line 273 fails. In lower-case
    display the same tokens go through the scratch buffer, 66 bytes each,
    and the call returns with the cursor at 1056. *)
Theorem long_tokens_overflow_line_buffer :
  observe_result
    (line_generator_update E_ref cfg_upper tokens_256_bytes 3
       (fresh_generator E_ref 100000))
  = Some (inr LineOverflow)
  /\ observe_result
       (line_generator_update E_ref cfg_upper (firstn 15 tokens_256_bytes) 3
          (fresh_generator E_ref 100000))
     = Some (inl (0, [(0, string_of_list_ascii (repeat "a"%char 3840));
                      (-1, ""%string)]))
  /\ (3840 >? AC_LINE_MAX E_ref - 256) = false
  /\ 3840 + 256 = AC_LINE_MAX E_ref
  /\ option_map
       (fun r => match r with
                 | inl lg' => Some (head (lines lg' 0))
                 | inr _ => None
                 end)
       (line_generator_update E_ref cfg_plain tokens_256_bytes 3
          (fresh_generator E_ref 100000))
     = Some (Some 1056).
Proof. vm_compute. repeat split; reflexivity. Qed.

(** ** The filter *)

Section Filter.

Variable E : externals.
Variable cfg : gsettings.
Variable tokens : list AprilToken.
Variables f1 f2 : list AprilToken -> Z -> Z -> FilterMode -> Z.

Hypothesis Hsame : same_answers cfg tokens f1 f2.

Lemma lowercase_loop_filter (f : list AprilToken -> Z -> Z -> FilterMode -> Z) :
  forall fuel p out cap,
    lowercase_loop (set_filter_skip f E) fuel p out cap
    = lowercase_loop E fuel p out cap.
Proof.
  induction fuel as [|fuel IH]; intros p out cap; cbn [lowercase_loop];
    [reflexivity|].
  destruct p as [|b p']; [reflexivity|].
  cbn [set_filter_skip g_utf8_get_char_validated g_unichar_tolower
       g_unichar_toupper g_unichar_to_utf8 g_utf8_next_char].
  now rewrite IH.
Qed.

Lemma select_token_filter (caps : list bool) (j : Z) (tk : AprilToken) :
  nth_error tokens (Z.to_nat j) = Some tk ->
  select_token (set_filter_skip f1 E) cfg tokens caps j tk
  = select_token (set_filter_skip f2 E) cfg tokens caps j tk.
Proof.
  intros Htk. unfold select_token, lowercase_token.
  rewrite !lowercase_loop_filter.
  cbn [set_filter_skip get_filter_skip SWEAR_REPLACEMENT].
  destruct (filter_active (filter_mode_of cfg)) eqn:Hm; [|reflexivity].
  destruct (has_flag (flags tk) APRIL_TOKEN_FLAG_WORD_BOUNDARY_BIT) eqn:Hwb;
    [|reflexivity].
  cbn [andb]. now rewrite (Hsame j tk Htk Hwb Hm).
Qed.

Lemma print_line_filter (caps : list bool) (cur : bool) (start mw end_ : Z) :
  forall fuel j curr,
    print_line (set_filter_skip f1 E) cfg tokens caps cur start mw end_ fuel j curr
    = print_line (set_filter_skip f2 E) cfg tokens caps cur start mw end_ fuel j curr.
Proof.
  induction fuel as [|fuel IH]; intros j curr; cbn [print_line]; [reflexivity|].
  destruct (j <? end_); [|reflexivity].
  destruct (nth_error tokens (Z.to_nat j)) as [tk|] eqn:Htk; [|reflexivity].
  rewrite (select_token_filter caps j tk Htk).
  destruct (select_token (set_filter_skip f2 E) cfg tokens caps j tk)
    as [tok skipahead].
  cbn [set_filter_skip AC_LINE_MAX].
  destruct (head curr >? AC_LINE_MAX E - 256); [reflexivity|].
  change (line_generator_get_text_width (set_filter_skip f1 E) tok)
    with (line_generator_get_text_width E tok).
  change (line_generator_get_text_width (set_filter_skip f2 E) tok)
    with (line_generator_get_text_width E tok).
  match goal with |- context [if cur && ?c then _ else _] =>
    destruct (cur && c) end; [reflexivity|].
  destruct (fade_alpha (logprob tk)); [|reflexivity].
  match goal with |- context [if ?c then print_line _ _ _ _ _ _ _ _ _ _ _ else _] =>
    destruct c end; [|reflexivity].
  apply IH.
Qed.

Lemma update_line_filter (caps : list bool) (i : Z) (lg : line_generator) :
  update_line (set_filter_skip f1 E) cfg tokens caps i lg
  = update_line (set_filter_skip f2 E) cfg tokens caps i lg.
Proof.
  unfold update_line. now rewrite print_line_filter.
Qed.

Lemma update_lines_filter (caps : list bool) (idxs : list Z) :
  forall lg,
    update_lines (set_filter_skip f1 E) cfg tokens caps idxs lg
    = update_lines (set_filter_skip f2 E) cfg tokens caps idxs lg.
Proof.
  induction idxs as [|i rest IH]; intros lg; cbn [update_lines]; [reflexivity|].
  rewrite update_line_filter.
  destruct (update_line (set_filter_skip f2 E) cfg tokens caps i lg); auto.
Qed.

Lemma update_pass_filter (lg : line_generator) :
  update_pass (set_filter_skip f1 E) cfg tokens lg
  = update_pass (set_filter_skip f2 E) cfg tokens lg.
Proof.
  unfold update_pass.
  destruct (Z.of_nat (List.length tokens) >? 1024); [reflexivity|].
  destruct (capitalize_scan (token_capitalizer_rewind (tcap lg)) tokens).
  apply update_lines_filter.
Qed.

Lemma update_trace_filter :
  forall fuel lg,
    update_trace (set_filter_skip f1 E) cfg tokens fuel lg
    = update_trace (set_filter_skip f2 E) cfg tokens fuel lg.
Proof.
  induction fuel as [|fuel IH]; intros lg; cbn [update_trace]; [reflexivity|].
  rewrite update_pass_filter.
  destruct (update_pass (set_filter_skip f2 E) cfg tokens lg); auto.
  now rewrite IH.
Qed.

End Filter.

(** C7. In the loop that prints a line, the filter provider is consulted
    only for a token that carries WORD_BOUNDARY and only in a filter mode
    above [FILTER_NONE]: the text and the scan increment chosen for token
    [j] are the fixed replacement text and the provider's skip-length [s]
    when that answer is positive, and the token's own (lower-cased or raw)
    text and 1 otherwise, also when the answer is 0. A token that is
    written (no capacity cutoff, no wrap, no fault) appends exactly that
    text, in its markup when fade is on, and the loop goes on at [j + s],
    respectively [j + 1]. Hence two providers that answer alike at the
    word-boundary tokens in the current mode give the same result of
    [line_generator_update], whatever they answer elsewhere. *)
Theorem filter_substitution (E : externals) (cfg : gsettings)
    (tokens : list AprilToken) :
  (forall caps j tk,
     select_token E cfg tokens caps j tk
     = (let skip := get_filter_skip E tokens j (Z.of_nat (List.length tokens))
                      (filter_mode_of cfg) in
        if filter_active (filter_mode_of cfg)
           && has_flag (flags tk) APRIL_TOKEN_FLAG_WORD_BOUNDARY_BIT
           && (skip >? 0)
        then (SWEAR_REPLACEMENT E, skip)
        else (plain_token E cfg caps j tk, 1)))
  /\ (forall caps (cur : bool) start mw end_ fuel j (curr : line) tk alpha,
        j < end_ ->
        nth_error tokens (Z.to_nat j) = Some tk ->
        head curr <= AC_LINE_MAX E - 256 ->
        let tok := fst (select_token E cfg tokens caps j tk) in
        let skipahead := snd (select_token E cfg tokens caps j tk) in
        let s := format_token (fade_text cfg) alpha tok in
        let curr1 :=
          if cur
          then set_len (len curr + line_generator_get_text_width E tok) curr
          else curr in
        cur = false \/ len curr1 < mw ->
        fade_alpha (logprob tk) = Some alpha ->
        head curr + Z.of_nat (List.length s) < AC_LINE_MAX E ->
        print_line E cfg tokens caps cur start mw end_ (S fuel) j curr
        = print_line E cfg tokens caps cur start mw end_ fuel (j + skipahead)
            (append_line s curr1))
  /\ (forall f1 f2 fuel lg,
        same_answers cfg tokens f1 f2 ->
        line_generator_update (set_filter_skip f1 E) cfg tokens fuel lg
        = line_generator_update (set_filter_skip f2 E) cfg tokens fuel lg).
Proof.
  split; [|split].
  - intros caps j tk. unfold select_token, plain_token. cbn zeta.
    destruct (filter_active (filter_mode_of cfg)
              && has_flag (flags tk) APRIL_TOKEN_FLAG_WORD_BOUNDARY_BIT);
      cbn [andb]; [|reflexivity].
    now destruct (get_filter_skip E tokens j (Z.of_nat (List.length tokens))
                    (filter_mode_of cfg) >? 0).
  - intros caps cur start mw end_ fuel j curr tk alpha Hj Htk Hh.
    cbn zeta. intros Hw Ha Hfit.
    cbn [print_line]. apply Z.ltb_lt in Hj. rewrite Hj, Htk.
    destruct (select_token E cfg tokens caps j tk) as [tok skipahead].
    cbn [fst snd] in *.
    assert (Hb : (head curr >? AC_LINE_MAX E - 256) = false)
      by (rewrite Z.gtb_ltb; apply Z.ltb_ge; lia).
    rewrite Hb.
    set (curr1 := if cur then set_len _ curr else curr) in *.
    assert (Hc : cur && (len curr1 >=? mw) = false).
    { destruct Hw as [->|Hw]; [reflexivity|].
      rewrite Z.geb_leb. apply andb_false_intro2, Z.leb_gt. exact Hw. }
    rewrite Hc, Ha.
    assert (Hh1 : head curr1 = head curr) by (subst curr1; now destruct cur).
    assert (Hlt : (head (append_line (format_token (fade_text cfg) alpha tok)
                           curr1) <? AC_LINE_MAX E) = true).
    { apply Z.ltb_lt. cbn [head append_line]. rewrite Hh1. exact Hfit. }
    now rewrite Hlt.
  - intros f1 f2 fuel lg Hsame. unfold line_generator_update.
    now rewrite (update_trace_filter E cfg tokens f1 f2 Hsame).
Qed.

(** The theorem at work: with a provider that reports a two-token match
    everywhere, " bad" + "word" and " ok" are each replaced, and the scan
    steps from token 0 to token 2 and past the end; with no token flagged
    as a word boundary nothing is replaced. *)
Lemma filter_substitution_witness :
  select_token (reference_externals 1 filter_two) cfg_filter tokens_filtered
    [] 0 (word " bad" 1)
  = (c_str " [__]", 2)
  /\ observe_result
       (line_generator_update (reference_externals 1 filter_two) cfg_filter
          tokens_filtered 3
          (fresh_generator (reference_externals 1 filter_two) 100))
     = Some (inl (0, [(0, " [__] [__]"); (-1, "")]))%string
  /\ observe_result
       (line_generator_update (reference_externals 1 filter_two) cfg_filter
          [word " bad" 0; word "word" 0; word " ok" 0] 3
          (fresh_generator (reference_externals 1 filter_two) 100))
     = Some (inl (0, [(0, " badword ok"); (-1, "")]))%string.
Proof.
  split.
  - rewrite (proj1 (filter_substitution (reference_externals 1 filter_two)
                      cfg_filter tokens_filtered)).
    reflexivity.
  - vm_compute. split; reflexivity.
Defined.

(** ** Capitalization *)

(** C5, evaluated. For the tokens [" ", "hello", ".", " ", "world"] (the
    spaces flagged WORD_BOUNDARY, the period SENTENCE_END) in lower-case
    display: right after [line_generator_init] the scan decides
    [false; false; false; true; true] and the line reads " hello. World",
    the first word left in lower case, because [line_generator_update]
    first rewinds the capitalizer to [finished_at_period], which init sets
    to false while it sets [previous_was_period] to true. From the same
    state with [finished_at_period] set, the decisions are
    [true; true; false; true; true] and the line reads " Hello. World". The
    period is never capitalized. *)
Theorem capitalization_after_init :
  previous_was_period (tcap (fresh_generator E_ref 100)) = true
  /\ previous_was_period
       (token_capitalizer_rewind (tcap (fresh_generator E_ref 100))) = false
  /\ snd (scan_of tokens_hello_world (fresh_generator E_ref 100))
     = [false; false; false; true; true]
  /\ observe_result
       (line_generator_update E_ref cfg_plain tokens_hello_world 3
          (fresh_generator E_ref 100))
     = Some (inl (0, [(0, " hello. World"); (-1, "")]))%string
  /\ snd (scan_of tokens_hello_world (generator_after_sentence E_ref 100))
     = [true; true; false; true; true]
  /\ observe_result
       (line_generator_update E_ref cfg_plain tokens_hello_world 3
          (generator_after_sentence E_ref 100))
     = Some (inl (0, [(0, " Hello. World"); (-1, "")]))%string.
Proof. vm_compute. repeat split; reflexivity. Qed.

(** C6 (amended). A token that carries no SENTENCE_END flag and is not
    capitalized as a sentence start (no forced capital pending, and not a
    word boundary after a period) is capitalized exactly when the language
    is English, the token is the single token " I" (space and capital I),
    and its lookahead is absent, or carries WORD_BOUNDARY or SENTENCE_END,
    or starts with an apostrophe; the capitalizer state is left as it is.
    So [" and", " I", "'", "ll"] renders " and I'll" with no sentence
    boundary before the pronoun. *)
Theorem pronoun_I_rule :
  (forall tc tok fl subsequent,
     has_flag fl APRIL_TOKEN_FLAG_SENTENCE_END_BIT = false ->
     force_next_cap tc = false ->
     previous_was_period tc
     && has_flag fl APRIL_TOKEN_FLAG_WORD_BOUNDARY_BIT = false ->
     token_capitalizer_next tc tok fl subsequent
     = (tc, is_english tc && is_pronoun_I tok && lookahead_allows subsequent))
  /\ (forall tok, is_pronoun_I tok = true <-> tok = " I"%string)
  /\ snd (scan_of tokens_pronoun_I (fresh_generator E_ref 100))
     = [false; true; false; false]
  /\ observe_result
       (line_generator_update E_ref cfg_plain tokens_pronoun_I 3
          (fresh_generator E_ref 100))
     = Some (inl (0, [(0, " and I'll"); (-1, "")]))%string.
Proof.
  split; [|split].
  - intros tc tok fl subsequent Hse Hf Hp. unfold token_capitalizer_next.
    rewrite Hse, Hf, Hp.
    destruct (is_english tc && is_pronoun_I tok); [|reflexivity].
    destruct subsequent as [[stok sfl]|]; [|reflexivity].
    cbn [lookahead_allows andb].
    now destruct (has_flag sfl _ || starts_with_apostrophe stok).
  - intros tok. split.
    + destruct tok as [|c [|d [|e rest]]]; cbn; try discriminate.
      intros H. apply andb_prop in H. destruct H as [Hc Hd].
      apply Ascii.eqb_eq in Hc, Hd. now subst.
    + intros ->. reflexivity.
  - vm_compute. split; reflexivity.
Qed.

(** C6 as stated fails: in English mode the sequence [" ", "I", "'", "ll"]
    is not capitalized anywhere (its "I" token is not the token " I") and
    renders " i'll". *)
Lemma split_pronoun_counterexample :
  is_english (tcap (fresh_generator E_ref 100)) = true
  /\ snd (scan_of tokens_split_I (fresh_generator E_ref 100))
     = [false; false; false; false]
  /\ observe_result
       (line_generator_update E_ref cfg_plain tokens_split_I 3
          (fresh_generator E_ref 100))
     = Some (inl (0, [(0, " i'll"); (-1, "")]))%string.
Proof. vm_compute. repeat split; reflexivity. Qed.

(** ** A token as wide as the line *)

Section WideToken.

Variable E : externals.
Variable cfg : gsettings.
Variable tokens : list AprilToken.
Variable caps : list bool.

Local Abbreviation num_tokens := (Z.of_nat (List.length tokens)).

Lemma wrap_target_at_start (a : Z) : wrap_target tokens a 0 a = a.
Proof.
  unfold wrap_target. rewrite Z.sub_diag. cbn [Z.to_nat find_word_boundary].
  now rewrite Z.eqb_refl.
Qed.

(** The growing line starts at token [a] with no frozen prefix, and the
    text drawn for token [a] is at least as wide as the line: the line
    wraps at token [a] itself, so the next slot starts where this one
    does. *)
Lemma update_line_rewrap (i : Z) (lg : line_generator) (tk : AprilToken) :
  let a := active_start_of_lines lg i in
  i = current_line lg ->
  0 <= a < num_tokens -> num_tokens <= 1024 ->
  start_head (lines lg i) = 0 -> start_len (lines lg i) = 0 ->
  256 <= AC_LINE_MAX E ->
  nth_error tokens (Z.to_nat a) = Some tk ->
  max_text_width lg
  <= line_generator_get_text_width E (fst (select_token E cfg tokens caps a tk)) ->
  exists lg',
    update_line E cfg tokens caps i lg = Retry Wrap lg'
    /\ current_line lg' = REL_LINE_IDX E i 1
    /\ active_start_of_lines lg' = upd (active_start_of_lines lg) (REL_LINE_IDX E i 1) a
    /\ max_text_width lg' = max_text_width lg
    /\ start_head (lines lg' (REL_LINE_IDX E i 1)) = 0
    /\ start_len (lines lg' (REL_LINE_IDX E i 1)) = 0
    /\ forall k, k <> REL_LINE_IDX E i 1 ->
         start_head (lines lg' k) = start_head (lines lg k).
Proof.
  intros a Hi Ha Hn Hsh Hsl Hmax Htk Hw. subst a.
  set (a := active_start_of_lines lg i) in *.
  unfold update_line. fold a.
  assert (Hact : (a =? -1) = false) by (apply Z.eqb_neq; lia).
  rewrite Hact, Hsh.
  assert (Hb : (0 <? 0) || (0 >=? AC_LINE_MAX E) = false).
  { cbn [orb Z.ltb Z.compare]. rewrite Z.geb_leb. apply Z.leb_gt. lia. }
  rewrite Hb.
  assert (Hn0 : (num_tokens =? 0) = false) by (apply Z.eqb_neq; lia).
  rewrite Hn0.
  rewrite (size_t_of_small a)
    by (change (2 ^ 64) with 18446744073709551616; lia).
  assert (Hge : (a >=? num_tokens) = false)
    by (rewrite Z.geb_leb; apply Z.leb_gt; lia).
  rewrite Hge.
  cbn [set_line current_line active_start_of_lines max_text_width].
  assert (Hp : print_line E cfg tokens caps (i =? current_line lg) a
                 (max_text_width lg)
                 (if (active_start_of_lines lg (REL_LINE_IDX E i 1) =? -1)
                     || (i =? current_line lg)
                  then num_tokens
                  else size_t_of (active_start_of_lines lg (REL_LINE_IDX E i 1)))
                 (Z.to_nat
                    ((if (active_start_of_lines lg (REL_LINE_IDX E i 1) =? -1)
                         || (i =? current_line lg)
                      then num_tokens
                      else size_t_of
                             (active_start_of_lines lg (REL_LINE_IDX E i 1)))
                     - a))
                 a (reset_line (lines lg i))
               = LWrap a (set_len
                            (0 + line_generator_get_text_width E
                                   (fst (select_token E cfg tokens caps a tk)))
                            (reset_line (lines lg i)))).
  { rewrite <- Hi, Z.eqb_refl, orb_true_r.
    destruct (Z.to_nat (num_tokens - a)) as [|fuel] eqn:Hfuel; [lia|].
    cbn [print_line].
    assert (Hlt : (a <? num_tokens) = true) by (apply Z.ltb_lt; lia).
    rewrite Hlt, Htk.
    destruct (select_token E cfg tokens caps a tk) as [tok skipahead].
    cbn [fst] in Hw |- *.
    cbn [head reset_line start_head len start_len set_len]. rewrite Hsh, Hsl.
    assert (Hbrk : (0 >? AC_LINE_MAX E - 256) = false)
      by (rewrite Z.gtb_ltb; apply Z.ltb_ge; lia).
    rewrite Hbrk.
    assert (Hov : (0 + line_generator_get_text_width E tok >=? max_text_width lg)
                  = true) by (rewrite Z.geb_leb; apply Z.leb_le; lia).
    rewrite Hov. cbn [andb]. now rewrite wrap_target_at_start. }
  rewrite Hp. eexists. split; [reflexivity|].
  cbn. rewrite <- Hi. repeat split; auto.
  - now rewrite upd_same.
  - now rewrite upd_same.
  - intros k Hk. rewrite upd_other by exact Hk.
    destruct (Z.eq_dec k i) as [->|Hne].
    + rewrite upd_same. cbn. lia.
    + rewrite !upd_other by exact Hne. reflexivity.
Qed.

(** A frozen line whose successor starts at the same token has nothing to
    print: its pass completes. *)
Lemma update_line_empty_range (i : Z) (lg : line_generator) :
  let a := active_start_of_lines lg i in
  i <> current_line lg ->
  0 <= a < 2 ^ 64 ->
  active_start_of_lines lg (REL_LINE_IDX E i 1) = a ->
  0 <= start_head (lines lg i) < AC_LINE_MAX E ->
  exists lg', update_line E cfg tokens caps i lg = Done lg'.
Proof.
  intros a Hi Ha Hnext Hsh. subst a.
  set (a := active_start_of_lines lg i) in *.
  unfold update_line. fold a.
  assert (Hact : (a =? -1) = false) by (apply Z.eqb_neq; lia).
  rewrite Hact.
  assert (Hb : (start_head (lines lg i) <? 0)
               || (start_head (lines lg i) >=? AC_LINE_MAX E) = false).
  { apply orb_false_intro; [apply Z.ltb_ge|rewrite Z.geb_leb; apply Z.leb_gt]; lia. }
  rewrite Hb.
  destruct (num_tokens =? 0); [eexists; reflexivity|].
  rewrite (size_t_of_small a) by exact Ha.
  destruct (a >=? num_tokens).
  { cbn [set_line current_line]. apply Z.eqb_neq in Hi. rewrite Hi.
    eexists; reflexivity. }
  cbn [set_line current_line active_start_of_lines max_text_width].
  rewrite Hnext, Hact. apply Z.eqb_neq in Hi. rewrite Hi. cbn [orb].
  rewrite (size_t_of_small a) by exact Ha.
  rewrite Z.sub_diag. cbn [Z.to_nat print_line].
  eexists; reflexivity.
Qed.

End WideToken.

Section Rewrapping.

Variable E : externals.
Variable cfg : gsettings.
Variable tokens : list AprilToken.
Variable a : Z.

(** The loop over the slots, from a state in which the growing line cannot
    take its first token: the slots before the growing line complete, and
    the growing line wraps at its own start. *)
Lemma update_lines_rewrap (caps : list bool) (idxs : list Z) :
  forall lg,
    rewrapping E cfg tokens a lg ->
    (forall i, In i idxs -> in_array E i = true) ->
    In (current_line lg) idxs ->
    exists lg',
      update_lines E cfg tokens caps idxs lg = Retry Wrap lg'
      /\ current_line lg' = REL_LINE_IDX E (current_line lg) 1
      /\ active_start_of_lines lg'
         = upd (active_start_of_lines lg) (REL_LINE_IDX E (current_line lg) 1) a
      /\ max_text_width lg' = max_text_width lg
      /\ start_head (lines lg' (REL_LINE_IDX E (current_line lg) 1)) = 0
      /\ start_len (lines lg' (REL_LINE_IDX E (current_line lg) 1)) = 0
      /\ forall k, k <> REL_LINE_IDX E (current_line lg) 1 ->
           start_head (lines lg' k) = start_head (lines lg k).
Proof.
  induction idxs as [|i rest IH]; intros lg Hrw Hidx Hin; [destruct Hin|].
  pose proof Hrw as Hrw0.
  destruct Hrw as (Hc & Hmax & Ha & Hn & (tk & Htk & Hw) & Hac & Hsh & Hsl & Hoth).
  cbn zeta in *. cbn [update_lines].
  destruct (Z.eq_dec i (current_line lg)) as [Hi|Hi].
  - subst i.
    pose proof (update_line_rewrap E cfg tokens caps (current_line lg) lg tk)
      as Hr.
    cbn zeta in Hr. rewrite Hac in Hr.
    destruct (Hr eq_refl Ha Hn Hsh Hsl Hmax Htk (Hw caps)) as (lg' & Hu & Hres).
    rewrite Hu. exists lg'. split; [reflexivity|exact Hres].
  - assert (Hin' : In (current_line lg) rest).
    { destruct Hin as [Hin|Hin]; [congruence|exact Hin]. }
    assert (Hdone : exists lg1, update_line E cfg tokens caps i lg = Done lg1).
    { destruct (Hoth i (Hidx i (or_introl eq_refl)) Hi) as [Hm1|(Hia & Hish & Hnext)].
      - exists lg. unfold update_line. now rewrite Hm1.
      - apply update_line_empty_range; auto.
        + rewrite Hia. change (2 ^ 64) with 18446744073709551616. lia.
        + now rewrite Hia. }
    destruct Hdone as (lg1 & Hu). rewrite Hu.
    apply update_line_Done in Hu. destruct Hu as [Hfr _].
    pose proof (fun k => same_frame_start_head lg lg1 k Hfr) as Hst.
    destruct Hfr as (Hc1 & Ha1 & Hm1 & _).
    assert (Hrw1 : rewrapping E cfg tokens a lg1).
    { unfold rewrapping. rewrite Hc1, Ha1, Hm1.
      destruct (Hst (current_line lg)) as [-> ->].
      repeat split; auto; try lia.
      - exists tk. split; auto.
      - intros k Hk Hkc. destruct (Hst k) as [-> _]. auto. }
    destruct (IH lg1 Hrw1 (fun k Hk => Hidx k (or_intror Hk)))
      as (lg' & Hu' & Hr1 & Hr2 & Hr3 & Hr4 & Hr5 & Hr6).
    { now rewrite Hc1. }
    exists lg'. split; [exact Hu'|].
    rewrite Hc1, Ha1, Hm1 in *. repeat split; auto.
    intros k Hk. rewrite Hr6 by exact Hk. apply Hst.
Qed.

Lemma update_pass_rewrap (lg : line_generator) :
  rewrapping E cfg tokens a lg ->
  exists lg',
    update_pass E cfg tokens lg = Retry Wrap lg'
    /\ rewrapping E cfg tokens a lg'.
Proof.
  intros Hrw. rewrite update_pass_unfold.
  pose proof Hrw as (Hc & Hmax & Ha & Hn & (tk & Htk & Hw) & Hac & Hsh & Hsl & Hoth).
  cbn zeta in *.
  assert (Hbig : (Z.of_nat (List.length tokens) >? 1024) = false)
    by (rewrite Z.gtb_ltb; apply Z.ltb_ge; lia).
  rewrite Hbig.
  destruct (update_lines_rewrap (snd (scan_of tokens lg)) (slots E)
              (set_tcap (fst (scan_of tokens lg)) lg))
    as (lg' & Hu & Hc' & Ha' & Hm' & Hs0 & Hl0 & Hst).
  { exact Hrw. }
  { intros i Hi. now apply in_slots. }
  { apply in_slots. exact Hc. }
  cbn [set_tcap current_line active_start_of_lines max_text_width lines] in *.
  exists lg'. split; [exact Hu|].
  set (c := current_line lg) in *. set (c' := REL_LINE_IDX E c 1) in *.
  assert (HN : 0 < AC_LINE_COUNT E) by (eapply in_array_count_pos; eauto).
  unfold rewrapping. rewrite Hc', Ha', Hm'. fold c'.
  rewrite upd_same, Hs0, Hl0.
  repeat split; auto; try lia.
  - apply REL_LINE_IDX_in_array. exact HN.
  - exists tk. split; auto.
  - intros i Hi Hic'. rewrite upd_other by exact Hic'.
    assert (Hnext : forall k, active_start_of_lines lg k = a ->
              upd (active_start_of_lines lg) c' a k = a).
    { intros k Hk. destruct (Z.eq_dec k c') as [->|Hne].
      - apply upd_same.
      - now rewrite upd_other. }
    destruct (Z.eq_dec i c) as [->|Hne].
    + right. rewrite Hst by exact Hic'. rewrite Hsh.
      repeat split; auto; try lia. fold c'. apply upd_same.
    + destruct (Hoth i Hi Hne) as [Hm1|(Hia & Hish & Hin)]; [now left|].
      right. rewrite Hst by exact Hic'. repeat split; auto; lia.
Qed.

(** From such a state [line_generator_update] never returns: every pass
    ends in the tail call of line 257. *)
Lemma rewrapping_never_returns :
  forall (fuel : nat) (lg : line_generator),
    rewrapping E cfg tokens a lg ->
    update_trace E cfg tokens fuel lg = None.
Proof.
  induction fuel as [|fuel IH]; intros lg Hrw; cbn [update_trace]; [reflexivity|].
  destruct (update_pass_rewrap lg Hrw) as (lg' & Hu & Hrw').
  rewrite Hu. now rewrite (IH lg' Hrw').
Qed.

End Rewrapping.

Lemma in_array_ref (i : Z) : in_array E_ref i = true -> i = 0 \/ i = 1.
Proof.
  intros H. apply in_slots in H. change (slots E_ref) with [0; 1] in H.
  destruct H as [H|[H|[]]]; auto.
Qed.

(** C4, evaluated where it fails. On an 8-unit display showing six short
    words in three lines, the growing line (slot 0) starts at token 4. The
    stream is revised to three tokens, the last one wider than the display:
    the growing line starts at or beyond the length of the stream, and the
    first pass deactivates slot 0, moves the growing line back to slot 1 and
    retries, as the claim says. But then slot 1, which starts at token 2,
    wraps at token 2 again and again: [line_generator_update] does not
    return, whatever the number of passes it is given. Separately, on a
    display showing " hello." and " World", a revision to two tokens makes
    the pass print the frozen slot 0 up to its old end, token 3, and read
    past the two tokens before it reaches the growing line. *)
Theorem shrunk_stream_wide_token_never_returns :
  current_line three_lines_shown = 0
  /\ active_start_of_lines three_lines_shown 0 = 4
  /\ Z.of_nat (List.length tokens_wide_word) = 3
  /\ observe_outcome (update_pass E_ref cfg_upper tokens_wide_word three_lines_shown)
     = inl (Some Backtrack, (1, [(-1, ""); (2, " cc dd")]))%string
  /\ (forall fuel,
        line_generator_update E_ref cfg_upper tokens_wide_word fuel
          three_lines_shown = None)
  /\ observe two_lines_shown = (1, [(0, " hello."); (3, " World")])%string
  /\ observe_result
       (line_generator_update E_ref cfg_plain [word " " 1; word "hello" 0] 9
          two_lines_shown)
     = Some (inr TokenOutOfRange).
Proof.
  assert (Hobs : observe_outcome
                   (update_pass E_ref cfg_upper tokens_wide_word three_lines_shown)
                 = inl (Some Backtrack, (1, [(-1, ""); (2, " cc dd")]))%string)
    by (vm_compute; reflexivity).
  split; [vm_compute; reflexivity|]. split; [vm_compute; reflexivity|].
  split; [reflexivity|]. split; [exact Hobs|].
  split; [|split; vm_compute; reflexivity].
  intros [|fuel]; [reflexivity|].
  unfold line_generator_update. cbn [update_trace].
  set (lgB := state_of
                (update_pass E_ref cfg_upper tokens_wide_word three_lines_shown)
                three_lines_shown).
  assert (Hp : update_pass E_ref cfg_upper tokens_wide_word three_lines_shown
               = Retry Backtrack lgB).
  { subst lgB.
    destruct (update_pass E_ref cfg_upper tokens_wide_word three_lines_shown)
      as [x|r x|f]; cbn in Hobs |- *; try discriminate.
    injection Hobs as -> _. reflexivity. }
  rewrite Hp.
  assert (Hrw : rewrapping E_ref cfg_upper tokens_wide_word 2 lgB).
  { unfold rewrapping.
    assert (Hc : current_line lgB = 1) by (vm_compute; reflexivity).
    rewrite Hc.
    split; [reflexivity|]. split; [cbn; lia|]. split; [cbn; lia|].
    split; [cbn; lia|].
    split.
    { exists (word " absolutely" 1). split; [reflexivity|].
      intros caps.
      replace (max_text_width lgB) with 8 by (vm_compute; reflexivity).
      vm_compute. discriminate. }
    split; [vm_compute; reflexivity|].
    split; [vm_compute; reflexivity|].
    split; [vm_compute; reflexivity|].
    intros i Hi Hne. destruct (in_array_ref i Hi) as [-> | ->]; [|congruence].
    left. vm_compute. reflexivity. }
  now rewrite (rewrapping_never_returns E_ref cfg_upper tokens_wide_word 2
                 fuel lgB Hrw).
Qed.

(** ** Confidence fade: the binary64 arithmetic of the opacity *)

(** iterating with a positive count *)
Lemma iter_pos_nat {A : Type} (f : A -> A) (p : positive) (x : A) :
  iter_pos f p x = Nat.iter (Pos.to_nat p) f x.
Proof.
  revert x. induction p as [p IH|p IH|]; intros x; cbn [iter_pos].
  - rewrite !IH. rewrite Pos2Nat.inj_xI.
    replace (S (2 * Pos.to_nat p)) with (Pos.to_nat p + (Pos.to_nat p + 1))%nat by lia.
    rewrite !Nat.iter_add. cbn. reflexivity.
  - rewrite !IH. rewrite Pos2Nat.inj_xO.
    replace (2 * Pos.to_nat p)%nat with (Pos.to_nat p + Pos.to_nat p)%nat by lia.
    now rewrite Nat.iter_add.
  - reflexivity.
Qed.

(** one right shift on a non-negative mantissa *)
Lemma shr_1_spec (m : Z) (r s : bool) :
  0 <= m ->
  shr_1 (Build_shr_record m r s)
  = Build_shr_record (m / 2) (Z.odd m) (r || s).
Proof.
  intros Hm. unfold shr_1.
  destruct m as [|p|p]; [reflexivity| |lia].
  destruct p as [p|p|]; cbn [Z.odd]; f_equal.
  - change (Z.pos p~1) with (2 * Z.pos p + 1).
    apply Z.div_unique with 1; lia.
  - change (Z.pos p~0) with (2 * Z.pos p).
    symmetry. rewrite Z.mul_comm. apply Z.div_mul. lia.
Qed.

Lemma iter_shr_1 (m : Z) (k : nat) :
  0 <= m -> Nat.iter k shr_1 (Build_shr_record m false false) = shifted m k.
Proof.
  intros Hm. induction k as [|k IH]; [reflexivity|].
  rewrite Nat.iter_succ, IH.
  destruct k as [|k].
  - cbn [shifted]. rewrite shr_1_spec by lia. cbn [orb].
    change (Z.of_nat 0) with 0. change (2 ^ Z.of_nat 1) with 2.
    rewrite Z.bit0_odd. change (2 ^ 0) with 1. now rewrite Z.mod_1_r.
  - cbn [shifted]. rewrite shr_1_spec by (apply Z.div_pos; lia).
    assert (E1 : m / 2 ^ Z.of_nat (S k) / 2 = m / 2 ^ Z.of_nat (S (S k))).
    { rewrite Z.div_div by lia. f_equal.
      rewrite (Nat2Z.inj_succ (S k)), Z.pow_succ_r by lia. lia. }
    assert (E2 : Z.odd (m / 2 ^ Z.of_nat (S k)) = Z.testbit m (Z.of_nat (S k))).
    { rewrite <- Z.bit0_odd. rewrite <- Z.shiftr_div_pow2 by lia.
      rewrite Z.shiftr_spec by lia. f_equal. }
    rewrite E1, E2. f_equal.
    + rewrite (Nat2Z.inj_succ k), Z.pow_succ_r by lia.
      set (P := 2 ^ Z.of_nat k). assert (0 < P) by (apply Z.pow_pos_nonneg; lia).
      pose proof (Z.testbit_spec' m (Z.of_nat k) ltac:(lia)) as Hb. fold P in Hb.
      assert (Hdec : m mod (2 * P) = P * ((m / P) mod 2) + m mod P).
      { rewrite Z.mul_comm, Z.rem_mul_r by lia. lia. }
      rewrite Hdec, <- Hb.
      assert (HP : 0 <= m mod P < P) by (apply Z.mod_pos_bound; lia).
      destruct (Z.testbit m (Z.of_nat k)); cbn [Z.b2z orb].
      * symmetry. apply negb_true_iff, Z.eqb_neq. nia.
      * now replace (P * 0 + m mod P) with (m mod P) by lia.
Qed.

Lemma shifted_round (m : Z) (k : nat) :
  round_nearest_even (shr_m (shifted m (S k)))
                     (loc_of_shr_record (shifted m (S k)))
  = half_even m (Z.of_nat (S k)).
Proof.
  unfold half_even, shifted.
  replace (Z.of_nat (S k) - 1) with (Z.of_nat k) by lia.
  cbn [shr_m loc_of_shr_record].
  destruct (Z.testbit m (Z.of_nat k));
    destruct (m mod 2 ^ Z.of_nat k =? 0); reflexivity.
Qed.

(** The same quotient read off the remainder. *)
Lemma half_even_cases (m n : Z) :
  0 <= m -> 1 <= n ->
  let q := m / 2 ^ n in
  let r := m mod 2 ^ n in
  let h := 2 ^ (n - 1) in
  (r < h /\ half_even m n = q)
  \/ (r = h /\ half_even m n = if Z.even q then q else q + 1)
  \/ (h < r /\ half_even m n = q + 1).
Proof.
  intros Hm Hn. cbn zeta. unfold half_even.
  set (h := 2 ^ (n - 1)).
  assert (Hh : 0 < h) by (apply Z.pow_pos_nonneg; lia).
  assert (HP : 2 ^ n = 2 * h).
  { subst h. rewrite <- Z.pow_succ_r by lia. f_equal. lia. }
  rewrite HP.
  pose proof (Z.testbit_spec' m (n - 1) ltac:(lia)) as Hb. fold h in Hb.
  assert (Hdec : m mod (2 * h) = h * ((m / h) mod 2) + m mod h).
  { rewrite Z.mul_comm, Z.rem_mul_r by lia. lia. }
  assert (Hl : 0 <= m mod h < h) by (apply Z.mod_pos_bound; lia).
  rewrite Hdec, <- Hb.
  destruct (Z.testbit m (n - 1)); cbn [Z.b2z].
  - destruct (m mod h =? 0) eqn:Hz.
    + apply Z.eqb_eq in Hz. right; left. split; [lia|reflexivity].
    + apply Z.eqb_neq in Hz. right; right. split; [lia|reflexivity].
  - left. split; [lia|reflexivity].
Qed.

Lemma half_even_bounds (m n : Z) :
  0 <= m -> 1 <= n -> m / 2 ^ n <= half_even m n <= m / 2 ^ n + 1.
Proof.
  intros Hm Hn.
  destruct (half_even_cases m n Hm Hn) as [[_ ->]|[[_ ->]|[_ ->]]]; try lia.
  destruct (Z.even (m / 2 ^ n)); lia.
Qed.

Lemma half_even_exact (m n : Z) :
  0 <= m -> 1 <= n -> m mod 2 ^ n = 0 -> half_even m n = m / 2 ^ n.
Proof.
  intros Hm Hn Hr.
  assert (Hh : 0 < 2 ^ (n - 1)) by (apply Z.pow_pos_nonneg; lia).
  destruct (half_even_cases m n Hm Hn) as [[_ ->]|[[H _]|[H _]]]; lia.
Qed.

Lemma half_even_mono (m m' n : Z) :
  0 <= m <= m' -> 1 <= n -> half_even m n <= half_even m' n.
Proof.
  intros Hm Hn.
  assert (HP : 0 < 2 ^ n) by (apply Z.pow_pos_nonneg; lia).
  assert (Hq : m / 2 ^ n <= m' / 2 ^ n) by (apply Z.div_le_mono; lia).
  pose proof (half_even_bounds m n ltac:(lia) Hn) as Hb.
  pose proof (half_even_bounds m' n ltac:(lia) Hn) as Hb'.
  destruct (Z.eq_dec (m / 2 ^ n) (m' / 2 ^ n)) as [Heq|Hne]; [|lia].
  assert (Hr : m mod 2 ^ n <= m' mod 2 ^ n).
  { pose proof (Z.div_mod m (2 ^ n) ltac:(lia)).
    pose proof (Z.div_mod m' (2 ^ n) ltac:(lia)). nia. }
  destruct (half_even_cases m n ltac:(lia) Hn) as [[H1 ->]|[[H1 ->]|[H1 ->]]];
    destruct (half_even_cases m' n ltac:(lia) Hn) as [[H2 ->]|[[H2 ->]|[H2 ->]]];
    rewrite <- ?Heq; try lia; destruct (Z.even (m / 2 ^ n)); lia.
Qed.

Lemma ulp_exp_pos (v : Z) : 1 <= ulp_exp v.
Proof. unfold ulp_exp, bias. lia. Qed.

Lemma ulp_exp_mono (v w : Z) : 0 < v <= w -> ulp_exp v <= ulp_exp w.
Proof.
  intros H. unfold ulp_exp.
  pose proof (Z.log2_le_mono v w ltac:(lia)). lia.
Qed.

Lemma RND_exact (v : Z) : 0 <= v -> v mod 2 ^ ulp_exp v = 0 -> RND v = v.
Proof.
  intros Hv Hm. unfold RND.
  rewrite half_even_exact by (auto using ulp_exp_pos).
  pose proof (ulp_exp_pos v).
  assert (0 < 2 ^ ulp_exp v) by (apply Z.pow_pos_nonneg; lia).
  pose proof (Z.div_mod v (2 ^ ulp_exp v) ltac:(lia)). lia.
Qed.

Lemma RND_nonneg (v : Z) : 0 <= v -> 0 <= RND v.
Proof.
  intros Hv. unfold RND. pose proof (ulp_exp_pos v).
  pose proof (half_even_bounds v (ulp_exp v) Hv ltac:(lia)).
  assert (0 < 2 ^ ulp_exp v) by (apply Z.pow_pos_nonneg; lia).
  assert (0 <= v / 2 ^ ulp_exp v) by (apply Z.div_pos; lia).
  nia.
Qed.

Lemma RND_pow2 (k : Z) : -1074 + bias <= k -> RND (2 ^ k) = 2 ^ k.
Proof.
  intros Hk. unfold bias in Hk.
  assert (Hp : 0 < 2 ^ k) by (apply Z.pow_pos_nonneg; lia).
  apply RND_exact; [lia|].
  assert (Hu : ulp_exp (2 ^ k) <= k).
  { unfold ulp_exp, bias. rewrite Z.log2_pow2 by lia. lia. }
  pose proof (ulp_exp_pos (2 ^ k)).
  replace k with ((k - ulp_exp (2 ^ k)) + ulp_exp (2 ^ k)) at 1 by lia.
  rewrite Z.pow_add_r by lia. apply Z.mod_mul.
  apply Z.pow_nonzero; lia.
Qed.

Lemma rnd_fixed_mono (v w n : Z) :
  0 <= v <= w -> 1 <= n -> half_even v n * 2 ^ n <= half_even w n * 2 ^ n.
Proof.
  intros H Hn. pose proof (half_even_mono v w n H Hn).
  assert (0 < 2 ^ n) by (apply Z.pow_pos_nonneg; lia). nia.
Qed.

Lemma rnd_fixed_pow2 (k n : Z) :
  1 <= n <= k -> half_even (2 ^ k) n * 2 ^ n = 2 ^ k.
Proof.
  intros H.
  assert (Hp : 0 < 2 ^ k) by (apply Z.pow_pos_nonneg; lia).
  assert (Hn : 0 < 2 ^ n) by (apply Z.pow_pos_nonneg; lia).
  assert (Hm : 2 ^ k mod 2 ^ n = 0).
  { replace k with ((k - n) + n) by lia.
    rewrite Z.pow_add_r by lia. apply Z.mod_mul. lia. }
  rewrite half_even_exact by lia.
  pose proof (Z.div_mod (2 ^ k) (2 ^ n) ltac:(lia)). lia.
Qed.

Lemma RND_mono (v w : Z) : 0 < v <= w -> RND v <= RND w.
Proof.
  intros H. unfold RND.
  pose proof (ulp_exp_mono v w H) as Hu.
  pose proof (ulp_exp_pos v) as Hv1.
  destruct (Z.eq_dec (ulp_exp v) (ulp_exp w)) as [Heq|Hne].
  - rewrite Heq. apply rnd_fixed_mono; [lia|]. rewrite <- Heq. exact Hv1.
  - assert (Hlt : ulp_exp v < ulp_exp w) by lia.
    set (k := Z.log2 w).
    assert (Hk : ulp_exp w = k - 52) by (unfold ulp_exp in *; subst k; lia).
    assert (Hkv : Z.log2 v + 1 <= k) by (unfold ulp_exp in *; subst k; lia).
    destruct (Z.log2_spec w ltac:(lia)) as [Hw1 _]. fold k in Hw1.
    destruct (Z.log2_spec v ltac:(lia)) as [_ Hv2].
    assert (Hvk : v <= 2 ^ k).
    { assert (2 ^ Z.succ (Z.log2 v) <= 2 ^ k)
        by (apply Z.pow_le_mono_r; lia). lia. }
    assert (Hk0 : 0 <= k) by (subst k; apply Z.log2_nonneg).
    transitivity (2 ^ k).
    + rewrite <- (rnd_fixed_pow2 k (ulp_exp v)) by lia.
      apply rnd_fixed_mono; lia.
    + rewrite <- (rnd_fixed_pow2 k (ulp_exp w)) at 1 by lia.
      apply rnd_fixed_mono; [|lia].
      assert (0 < 2 ^ k) by (apply Z.pow_pos_nonneg; lia). lia.
Qed.

Lemma digits2_pos_size (p : positive) : digits2_pos p = Pos.size p.
Proof. induction p; cbn; congruence. Qed.

Lemma Zdigits2_log2 (m : Z) : 0 < m -> Zdigits2 m = Z.log2 m + 1.
Proof.
  destruct m as [|p|p]; try lia. intros _. cbn [Zdigits2].
  rewrite digits2_pos_size. destruct p; cbn; lia.
Qed.

Lemma fexp_64 (k : Z) : fexp 53 1024 k = Z.max (k - 53) (-1074).
Proof. reflexivity. Qed.

Lemma shr_exact (m e n : Z) :
  0 <= m ->
  shr (Build_shr_record m false false) e n
  = if n <=? 0 then (Build_shr_record m false false, e)
    else (shifted m (Z.to_nat n), e + n).
Proof.
  intros Hm. destruct n as [|p|p]; cbn [shr Z.leb Z.compare]; try reflexivity.
  rewrite iter_pos_nat, iter_shr_1 by exact Hm. reflexivity.
Qed.

Lemma pow2_pos (k : Z) : 0 <= k -> 0 < 2 ^ k.
Proof. intros. apply Z.pow_pos_nonneg; lia. Qed.

Lemma pow2_lt_inv (a b : Z) : 0 <= b -> 2 ^ a < 2 ^ b -> a < b.
Proof.
  intros Hb H. destruct (Z_lt_le_dec a b) as [|Hle]; [assumption|].
  assert (2 ^ b <= 2 ^ a) by (apply Z.pow_le_mono_r; lia). lia.
Qed.

Lemma half_even_scale (m n t : Z) :
  0 <= m -> 1 <= n -> 0 <= t -> half_even (m * 2 ^ t) (n + t) = half_even m n.
Proof.
  intros Hm Hn Ht. unfold half_even.
  pose proof (pow2_pos t Ht). pose proof (pow2_pos n ltac:(lia)).
  pose proof (pow2_pos (n - 1) ltac:(lia)).
  rewrite Z.pow_add_r by lia.
  rewrite Z.div_mul_cancel_r by lia.
  rewrite Z.mul_pow2_bits by lia.
  replace (n + t - 1 - t) with (n - 1) by lia.
  replace (n + t - 1) with ((n - 1) + t) by lia.
  rewrite Z.pow_add_r by lia.
  rewrite Z.mul_mod_distr_r by lia.
  replace (m mod 2 ^ (n - 1) * 2 ^ t =? 0) with (m mod 2 ^ (n - 1) =? 0).
  - reflexivity.
  - destruct (m mod 2 ^ (n - 1) =? 0) eqn:Hz.
    + apply Z.eqb_eq in Hz. rewrite Hz. reflexivity.
    + apply Z.eqb_neq in Hz. symmetry. apply Z.eqb_neq. nia.
Qed.

Lemma RND_zero : RND 0 = 0.
Proof. reflexivity. Qed.

(** What [binary_round_aux] returns on an exact positive mantissa, read on
    scaled values. *)
Lemma binary_round_aux_spec (s : bool) (M : positive) (e : Z) :
  0 <= e + bias -> e <= 971 ->
  RND (Zpos M * 2 ^ (e + bias)) < 2 ^ (1024 + bias) ->
  (binary_round_aux 53 1024 s (Zpos M) e loc_Exact = S754_zero s
   /\ RND (Zpos M * 2 ^ (e + bias)) = 0)
  \/ exists m' e',
       binary_round_aux 53 1024 s (Zpos M) e loc_Exact = S754_finite s m' e'
       /\ Zpos m' * 2 ^ (e' + bias) = RND (Zpos M * 2 ^ (e + bias))
       /\ Zpos m' < 2 ^ 53 /\ -1074 <= e' <= 971.
Proof.
  intros He Hemax Hov.
  set (t := e + bias) in *.
  set (v := Zpos M * 2 ^ t) in *.
  assert (Ht2 : 0 < 2 ^ t) by (apply pow2_pos; lia).
  assert (Hv : 0 < v) by (subst v; nia).
  set (d := Z.log2 (Zpos M) + 1).
  assert (Hd : Zdigits2 (Zpos M) = d) by (apply Zdigits2_log2; lia).
  destruct (Z.log2_spec (Zpos M) ltac:(lia)) as [HM1 HM2].
  assert (Hl0 : 0 <= Z.log2 (Zpos M)) by apply Z.log2_nonneg.
  replace (Z.succ (Z.log2 (Zpos M))) with d in HM2 by (subst d; lia).
  set (n1 := Z.max (d + e - 53) (-1074) - e).
  assert (Hu : ulp_exp v = n1 + t).
  { unfold ulp_exp. subst v. rewrite Z.log2_mul_pow2 by lia.
    subst n1 d t. unfold bias. lia. }
  unfold binary_round_aux, shr_fexp. rewrite Hd, fexp_64.
  cbn [shr_record_of_loc]. rewrite shr_exact by lia. fold n1.
  destruct (n1 <=? 0) eqn:Hn1.
  - (* the mantissa already fits *)
    apply Z.leb_le in Hn1.
    cbn [shr_m loc_of_shr_record round_nearest_even shr_record_of_loc].
    rewrite Hd, fexp_64, shr_exact by lia. fold n1.
    apply Z.leb_le in Hn1 as Hn1'. rewrite Hn1'. cbn [shr_m].
    assert (Hle : (e <=? 1024 - 53) = true) by (apply Z.leb_le; lia).
    rewrite Hle. right. exists M, e. split; [reflexivity|].
    fold t. fold v. split; [|split].
    + symmetry. apply RND_exact; [lia|].
      pose proof (ulp_exp_pos v) as Hup. rewrite Hu in *.
      subst v. replace t with ((t - (n1 + t)) + (n1 + t)) at 1 by lia.
      rewrite Z.pow_add_r, Z.mul_assoc by lia.
      apply Z.mod_mul. pose proof (pow2_pos (n1 + t) ltac:(lia)). lia.
    + assert (d <= 53) by (subst n1; lia).
      assert (2 ^ d <= 2 ^ 53) by (apply Z.pow_le_mono_r; lia). lia.
    + subst n1. lia.
  - (* [n1] low bits are rounded away *)
    apply Z.leb_gt in Hn1.
    destruct (Z.to_nat n1) as [|k] eqn:Hk; [lia|].
    rewrite shifted_round. rewrite <- Hk, Z2Nat.id by lia.
    set (m1 := half_even (Zpos M) n1).
    set (e1 := e + n1).
    assert (He1 : e1 = Z.max (d + e - 53) (-1074)) by (subst e1 n1; lia).
    assert (HR : RND v = m1 * 2 ^ (e1 + bias)).
    { unfold RND. rewrite Hu. subst v.
      rewrite half_even_scale by lia. fold m1.
      f_equal. f_equal. subst e1 t. lia. }
    pose proof (half_even_bounds (Zpos M) n1 ltac:(lia) ltac:(lia)) as Hb.
    fold m1 in Hb.
    pose proof (pow2_pos n1 ltac:(lia)) as Hpn.
    assert (Hq0 : 0 <= Zpos M / 2 ^ n1) by (apply Z.div_pos; lia).
    assert (Hq53 : Zpos M / 2 ^ n1 < 2 ^ 53).
    { apply Z.div_lt_upper_bound; [lia|].
      rewrite <- Z.pow_add_r by lia.
      assert (2 ^ d <= 2 ^ (n1 + 53)) by (apply Z.pow_le_mono_r; lia). lia. }
    pose proof (pow2_pos (e1 + bias) ltac:(unfold bias; lia)) as Hpe.
    destruct (Z.eq_dec m1 0) as [Hz|Hnz].
    + (* rounded to zero *)
      rewrite Hz. change (Zdigits2 0) with 0. rewrite fexp_64.
      rewrite shr_exact by lia.
      assert (Hn2 : (Z.max (0 + e1 - 53) (-1074) - e1 <=? 0) = true)
        by (apply Z.leb_le; lia).
      rewrite Hn2. cbn [shr_m]. left. split; [reflexivity|].
      fold t. fold v. rewrite HR, Hz. lia.
    + assert (Hm1 : 0 < m1) by lia.
      assert (He1max : m1 < 2 ^ 53 -> e1 <= 971).
      { intros _. destruct (Z_le_gt_dec e1 (-1074)) as [|Hgt]; [lia|].
        assert (Hn1d : n1 = d - 53) by lia.
        assert (H52 : 2 ^ 52 <= Zpos M / 2 ^ n1).
        { apply Z.div_le_lower_bound; [lia|].
          rewrite <- Z.pow_add_r by lia.
          replace (n1 + 52) with (Z.log2 (Zpos M)) by (subst d; lia).
          exact HM1. }
        fold t in Hov. fold v in Hov. rewrite HR in Hov.
        assert (2 ^ (52 + (e1 + bias)) < 2 ^ (1024 + bias)).
        { rewrite Z.pow_add_r by (unfold bias; lia). nia. }
        apply pow2_lt_inv in H; unfold bias in *; lia. }
      rewrite (Zdigits2_log2 m1 Hm1), fexp_64, shr_exact by lia.
      destruct (Z.eq_dec m1 (2 ^ 53)) as [Hc|Hnc].
      * (* carry into the next binade *)
        rewrite Hc. change (Z.log2 (2 ^ 53)) with 53.
        replace (Z.max (53 + 1 + e1 - 53) (-1074) - e1) with 1 by lia.
        change (1 <=? 0) with false. cbv iota.
        change (shifted (2 ^ 53) (Z.to_nat 1))
          with (Build_shr_record (2 ^ 52) false false).
        cbn [shr_m]. change (2 ^ 52) with (Zpos (2 ^ 52)%positive).
        cbv iota.
        assert (He2 : e1 + 1 <= 971).
        { fold t in Hov. fold v in Hov. rewrite HR, Hc in Hov.
          rewrite <- Z.pow_add_r in Hov by (unfold bias; lia).
          apply pow2_lt_inv in Hov; unfold bias in *; lia. }
        assert (Hle : (e1 + 1 <=? 1024 - 53) = true) by (apply Z.leb_le; lia).
        rewrite Hle. right. exists (2 ^ 52)%positive, (e1 + 1).
        split; [reflexivity|]. fold t. fold v. rewrite HR, Hc.
        split; [|split; [reflexivity|lia]].
        replace (e1 + 1 + bias) with (1 + (e1 + bias)) by lia.
        rewrite Z.pow_add_r by (unfold bias; lia).
        change (Zpos (2 ^ 52)%positive) with (2 ^ 52).
        change (2 ^ 53) with (2 ^ 52 * 2 ^ 1). lia.
      * assert (Hlt : m1 < 2 ^ 53) by lia.
        assert (Hl : Z.log2 m1 < 53) by (apply Z.log2_lt_pow2; lia).
        assert (Hn2 : (Z.max (Z.log2 m1 + 1 + e1 - 53) (-1074) - e1 <=? 0)
                      = true) by (apply Z.leb_le; lia).
        rewrite Hn2. cbn [shr_m].
        destruct m1 as [|p|p] eqn:Ep; try lia.
        specialize (He1max Hlt).
        assert (Hle : (e1 <=? 1024 - 53) = true) by (apply Z.leb_le; lia).
        rewrite Hle. right. exists p, e1. split; [reflexivity|].
        fold t. fold v. rewrite HR. repeat split; lia.
Qed.

Lemma RNDz_mono (v w : Z) : v <= w -> RNDz v <= RNDz w.
Proof.
  intros H. unfold RNDz.
  destruct (v <? 0) eqn:Hv; destruct (w <? 0) eqn:Hw;
    try apply Z.ltb_lt in Hv; try apply Z.ltb_lt in Hw;
    try apply Z.ltb_ge in Hv; try apply Z.ltb_ge in Hw.
  - pose proof (RND_mono (- w) (- v) ltac:(lia)). lia.
  - pose proof (RND_nonneg (- v) ltac:(lia)).
    pose proof (RND_nonneg w ltac:(lia)). lia.
  - lia.
  - destruct (Z.eq_dec v 0) as [->|].
    + rewrite RND_zero. apply RND_nonneg. lia.
    + apply RND_mono. lia.
Qed.

Lemma RNDz_pow2 (k : Z) : -1074 + bias <= k -> RNDz (2 ^ k) = 2 ^ k.
Proof.
  intros Hk. unfold RNDz.
  pose proof (pow2_pos k ltac:(unfold bias in *; lia)).
  replace (2 ^ k <? 0) with false by (symmetry; apply Z.ltb_ge; lia).
  apply RND_pow2. exact Hk.
Qed.

Lemma RNDz_opp_pow2 (k : Z) : -1074 + bias <= k -> RNDz (- 2 ^ k) = - 2 ^ k.
Proof.
  intros Hk. unfold RNDz.
  pose proof (pow2_pos k ltac:(unfold bias in *; lia)).
  replace (- 2 ^ k <? 0) with true by (symmetry; apply Z.ltb_lt; lia).
  rewrite Z.opp_involutive, RND_pow2 by exact Hk. reflexivity.
Qed.

Lemma RNDz_zero : RNDz 0 = 0.
Proof. reflexivity. Qed.

Lemma RNDz_abs_le (v k : Z) :
  -1074 + bias <= k -> Z.abs v <= 2 ^ k -> Z.abs (RNDz v) <= 2 ^ k.
Proof.
  intros Hk Hv.
  pose proof (RNDz_mono v (2 ^ k) ltac:(lia)) as H1.
  pose proof (RNDz_mono (- 2 ^ k) v ltac:(lia)) as H2.
  rewrite RNDz_pow2 in H1 by exact Hk.
  rewrite RNDz_opp_pow2 in H2 by exact Hk. lia.
Qed.

Lemma RNDz_abs_ge (v k : Z) :
  -1074 + bias <= k -> 2 ^ k <= Z.abs v -> 2 ^ k <= Z.abs (RNDz v).
Proof.
  intros Hk Hv.
  destruct (Z_lt_le_dec v 0) as [Hn|Hp].
  - pose proof (RNDz_mono v (- 2 ^ k) ltac:(lia)) as H.
    rewrite RNDz_opp_pow2 in H by exact Hk.
    pose proof (pow2_pos k ltac:(unfold bias in *; lia)). lia.
  - pose proof (RNDz_mono (2 ^ k) v ltac:(lia)) as H.
    rewrite RNDz_pow2 in H by exact Hk.
    pose proof (pow2_pos k ltac:(unfold bias in *; lia)). lia.
Qed.

Lemma rounds_to_finite (y : spec_float) (s : bool) (r : Z) :
  rounds_to y s r ->
  finite_double y /\ scaled_value y = if s then - r else r.
Proof.
  intros [[-> ->]|(m' & e' & -> & <- & Hm & He)]; cbn.
  - split; [exact I|]. destruct s; reflexivity.
  - split; [split; assumption|reflexivity].
Qed.

Lemma RND_le_pow2 (v k : Z) :
  -1074 + bias <= k -> 0 < v <= 2 ^ k -> RND v <= 2 ^ k.
Proof.
  intros Hk Hv. rewrite <- (RND_pow2 k Hk). apply RND_mono. exact Hv.
Qed.

Lemma binary_round_aux_rounds (s : bool) (M e : Z) :
  0 < M -> 0 <= e + bias -> e <= 971 ->
  M * 2 ^ (e + bias) <= 2 ^ (1000 + bias) ->
  rounds_to (binary_round_aux 53 1024 s M e loc_Exact) s
            (RND (M * 2 ^ (e + bias))).
Proof.
  intros HM He Hemax Hv. destruct M as [|M|M]; try lia.
  apply binary_round_aux_spec; try assumption.
  pose proof (pow2_pos (e + bias) He).
  pose proof (RND_le_pow2 (Zpos M * 2 ^ (e + bias)) (1000 + bias)
                ltac:(unfold bias; lia) ltac:(nia)).
  assert (2 ^ (1000 + bias) < 2 ^ (1024 + bias))
    by (apply Z.pow_lt_mono_r; unfold bias; lia).
  lia.
Qed.

Lemma iter_xO (m p : positive) : Zpos (Pos.iter xO m p) = Zpos m * 2 ^ Zpos p.
Proof.
  induction p using Pos.peano_ind.
  - cbn [Pos.iter]. change (2 ^ 1) with 2. lia.
  - rewrite Pos.iter_succ, Pos2Z.inj_xO, IHp, Pos2Z.inj_succ.
    rewrite Z.pow_succ_r by lia. lia.
Qed.

Lemma shl_align_spec (mx : positive) (ex ex' : Z) :
  snd (shl_align mx ex ex') = Z.min ex ex'
  /\ Zpos (fst (shl_align mx ex ex'))
     = Zpos mx * 2 ^ (ex - Z.min ex ex').
Proof.
  unfold shl_align. destruct (ex' - ex) as [|p|p] eqn:E; cbn [fst snd].
  - replace (Z.min ex ex') with ex by lia.
    rewrite Z.sub_diag. change (2 ^ 0) with 1. lia.
  - replace (Z.min ex ex') with ex by lia.
    rewrite Z.sub_diag. change (2 ^ 0) with 1. lia.
  - replace (Z.min ex ex') with ex' by lia.
    split; [reflexivity|]. rewrite iter_xO. f_equal. f_equal. lia.
Qed.

Lemma log2_scaled_bound (M t k : Z) :
  0 < M -> 0 <= t -> M * 2 ^ t <= 2 ^ k -> Z.log2 M + t <= k.
Proof.
  intros HM Ht H.
  destruct (Z.log2_spec M HM) as [H1 _].
  pose proof (Z.log2_nonneg M).
  pose proof (pow2_pos t Ht).
  assert (Hp : 2 ^ (Z.log2 M + t) <= 2 ^ k).
  { rewrite Z.pow_add_r by lia. nia. }
  destruct (Z_le_gt_dec (Z.log2 M + t) k) as [|Hgt]; [assumption|].
  assert (2 ^ k < 2 ^ (Z.log2 M + t)) by (apply Z.pow_lt_mono_r; lia).
  lia.
Qed.

Lemma binary_round_rounds (s : bool) (M : positive) (e : Z) :
  0 <= e + bias ->
  Zpos M * 2 ^ (e + bias) <= 2 ^ (1000 + bias) ->
  rounds_to (binary_round 53 1024 s M e) s (RND (Zpos M * 2 ^ (e + bias))).
Proof.
  intros He Hv. unfold binary_round.
  pose proof (Zdigits2_log2 (Zpos M) ltac:(lia)) as Hd. cbn [Zdigits2] in Hd.
  rewrite Hd, fexp_64.
  set (fe := Z.max (Z.log2 (Zpos M) + 1 + e - 53) (-1074)).
  destruct (shl_align_spec M e fe) as [H2 H1].
  destruct (shl_align M e fe) as [mz ez]. cbn [fst snd] in H1, H2.
  pose proof (log2_scaled_bound (Zpos M) (e + bias) (1000 + bias)
                ltac:(lia) He Hv) as Hl.
  assert (Hval : Zpos mz * 2 ^ (ez + bias) = Zpos M * 2 ^ (e + bias)).
  { rewrite H1, <- Z.mul_assoc, <- Z.pow_add_r by (unfold bias in *; lia).
    f_equal. f_equal. lia. }
  rewrite <- Hval.
  apply binary_round_aux_rounds; unfold bias in *; try lia.
Qed.

Lemma binary_normalize_spec (sm ez : Z) :
  0 <= ez + bias ->
  Z.abs (sm * 2 ^ (ez + bias)) <= 2 ^ (1000 + bias) ->
  finite_double (binary_normalize 53 1024 sm ez false)
  /\ scaled_value (binary_normalize 53 1024 sm ez false)
     = RNDz (sm * 2 ^ (ez + bias)).
Proof.
  intros He Hv. pose proof (pow2_pos (ez + bias) He) as Hp.
  destruct sm as [|p|p]; cbn [binary_normalize].
  - split; [exact I|reflexivity].
  - destruct (rounds_to_finite _ _ _
                (binary_round_rounds false p ez He ltac:(lia))) as [Hf Hs].
    split; [exact Hf|]. rewrite Hs. unfold RNDz.
    replace (Zpos p * 2 ^ (ez + bias) <? 0) with false
      by (symmetry; apply Z.ltb_ge; nia).
    reflexivity.
  - assert (Hneg : Zneg p * 2 ^ (ez + bias) = - (Zpos p * 2 ^ (ez + bias)))
      by lia.
    destruct (rounds_to_finite _ _ _
                (binary_round_rounds true p ez He ltac:(lia))) as [Hf Hs].
    split; [exact Hf|]. rewrite Hs, Hneg. unfold RNDz.
    replace (- (Zpos p * 2 ^ (ez + bias)) <? 0) with true
      by (symmetry; apply Z.ltb_lt; nia).
    rewrite Z.opp_involutive. reflexivity.
Qed.

Lemma d_2_0_eq : d_2_0 = S754_finite false (2 ^ 52)%positive (-51).
Proof. reflexivity. Qed.
Lemma d_8_0_eq : d_8_0 = S754_finite false (2 ^ 52)%positive (-49).
Proof. reflexivity. Qed.
Lemma d_65536_0_eq : d_65536_0 = S754_finite false (2 ^ 52)%positive (-36).
Proof. reflexivity. Qed.

Lemma scaled_value_abs (s : bool) (m : positive) (e : Z) :
  Z.abs (scaled_value (S754_finite s m e)) = Zpos m * 2 ^ (e + bias).
Proof.
  cbn [scaled_value].
  assert (0 <= Zpos m * 2 ^ (e + bias))
    by (apply Z.mul_nonneg_nonneg; [lia|apply Z.pow_nonneg; lia]).
  destruct s; lia.
Qed.

(** [x + 2.0] *)
Lemma SFadd_2_spec (x : spec_float) :
  finite_double x ->
  Z.abs (scaled_value x) <= 2 ^ (999 + bias) ->
  finite_double (SFadd dprec demax x d_2_0)
  /\ scaled_value (SFadd dprec demax x d_2_0)
     = RNDz (scaled_value x + 2 ^ (1 + bias)).
Proof.
  intros Hx Hb. rewrite d_2_0_eq.
  destruct x as [s|s| |s m e]; cbn [finite_double] in Hx; try contradiction.
  - cbn [SFadd scaled_value]. split.
    + cbn. unfold bias. lia.
    + rewrite Z.add_0_l, RNDz_pow2 by (unfold bias; lia).
      change (Zpos (2 ^ 52)%positive) with (2 ^ 52).
      rewrite <- Z.pow_add_r by (unfold bias; lia). reflexivity.
  - destruct Hx as [Hm He]. rewrite scaled_value_abs in Hb.
    cbn [SFadd]. unfold dprec, demax.
    set (ez := Z.min e (-51)).
    destruct (shl_align_spec m e ez) as [_ H1].
    destruct (shl_align_spec (2 ^ 52)%positive (-51) ez) as [_ H2].
    replace (Z.min e ez) with ez in H1 by lia.
    replace (Z.min (-51) ez) with ez in H2 by lia.
    rewrite H1, H2. cbn [cond_Zopp].
    set (sm := (if s then - (Zpos m * 2 ^ (e - ez)) else Zpos m * 2 ^ (e - ez))
              + Zpos (2 ^ 52)%positive * 2 ^ (-51 - ez)).
    assert (HS : sm * 2 ^ (ez + bias)
                 = scaled_value (S754_finite s m e) + 2 ^ (1 + bias)).
    { subst sm. cbn [scaled_value].
      change (Zpos (2 ^ 52)%positive) with (2 ^ 52).
      replace (2 ^ (1 + bias)) with (2 ^ 52 * 2 ^ (-51 - ez) * 2 ^ (ez + bias)).
      2:{ rewrite <- !Z.pow_add_r by (unfold bias; lia).
          apply (f_equal (Z.pow 2)). lia. }
      replace (2 ^ (e + bias)) with (2 ^ (e - ez) * 2 ^ (ez + bias)).
      2:{ rewrite <- Z.pow_add_r by (unfold bias; lia).
          apply (f_equal (Z.pow 2)). lia. }
      destruct s; lia. }
    assert (Hp1 : 2 ^ (1 + bias) <= 2 ^ (999 + bias))
      by (apply Z.pow_le_mono_r; unfold bias; lia).
    assert (Hp2 : 2 ^ (1000 + bias) = 2 * 2 ^ (999 + bias)).
    { rewrite <- Z.pow_succ_r by (unfold bias; lia).
      apply (f_equal (Z.pow 2)). lia. }
    pose proof (pow2_pos (1 + bias) ltac:(unfold bias; lia)) as Hp3.
    pose proof (scaled_value_abs s m e) as Ha.
    destruct (binary_normalize_spec sm ez) as [Hf Hs].
    + unfold bias. lia.
    + rewrite HS. lia.
    + rewrite HS in Hs. split; assumption.
Qed.

Lemma div_eucl_eq (a b : Z) : Z.div_eucl a b = (a / b, a mod b).
Proof. unfold Z.div, Z.modulo. destruct (Z.div_eucl a b); reflexivity. Qed.

Lemma log2_digits_bound (m : positive) :
  Zpos m < 2 ^ 53 -> 0 <= Z.log2 (Zpos m) <= 52.
Proof.
  intros H. split; [apply Z.log2_nonneg|].
  assert (Z.log2 (Zpos m) < 53) by (apply Z.log2_lt_pow2; lia). lia.
Qed.

(** Division by [8.0]: the quotient of the mantissas is exact. *)
Lemma SFdiv_core_binary_8 (m : positive) (e : Z) :
  Zpos m < 2 ^ 53 ->
  -1017 <= Z.log2 (Zpos m) + 1 + e ->
  SFdiv_core_binary 53 1024 (Zpos m) e (Zpos (2 ^ 52)%positive) (-49)
  = (Zpos m * 2 ^ (53 - Z.log2 (Zpos m)), Z.log2 (Zpos m) + e - 56, loc_Exact).
Proof.
  intros Hm Hd. pose proof (log2_digits_bound m Hm) as Hl.
  unfold SFdiv_core_binary. cbv zeta.
  rewrite (Zdigits2_log2 (Zpos m)) by lia.
  change (Zdigits2 (Zpos (2 ^ 52)%positive)) with 53.
  rewrite fexp_64.
  change IntDef.Z.min with Z.min. change IntDef.Z.shiftl with Z.shiftl.
  change IntDef.Z.div_eucl with Z.div_eucl.
  set (l := Z.log2 (Zpos m)) in *.
  replace (Z.min (Z.max (l + 1 + e - (53 + -49) - 53) (-1074)) (e - -49))
    with (l + e - 56) by lia.
  replace (e - -49 - (l + e - 56)) with (105 - l) by lia.
  destruct (105 - l) as [|p|p] eqn:Ep; try lia.
  rewrite Z.shiftl_mul_pow2, <- Ep by lia.
  replace (2 ^ (105 - l)) with (2 ^ (53 - l) * 2 ^ 52).
  2:{ rewrite <- Z.pow_add_r by lia. apply (f_equal (Z.pow 2)). lia. }
  rewrite div_eucl_eq, Z.mul_assoc.
  change (Zpos (2 ^ 52)%positive) with (2 ^ 52).
  rewrite Z.div_mul, Z.mod_mul by lia.
  reflexivity.
Qed.

Lemma SFdiv_8_spec (y : spec_float) :
  finite_double y ->
  (scaled_value y = 0 \/ 2 ^ (bias - 1000) <= Z.abs (scaled_value y)) ->
  Z.abs (scaled_value y) <= 2 ^ (1000 + bias) ->
  finite_double (SFdiv dprec demax y d_8_0)
  /\ scaled_value (SFdiv dprec demax y d_8_0) = RNDz (scaled_value y / 8).
Proof.
  intros Hy Hlo Hhi. rewrite d_8_0_eq.
  destruct y as [s|s| |s m e]; cbn [finite_double] in Hy; try contradiction.
  - cbn [SFdiv scaled_value]. split; [exact I|reflexivity].
  - destruct Hy as [Hm He].
    pose proof (scaled_value_abs s m e) as Ha. rewrite Ha in Hlo, Hhi.
    pose proof (log2_digits_bound m Hm) as Hl.
    pose proof (pow2_pos (e + bias) ltac:(unfold bias; lia)) as Hpe.
    assert (Hlo' : 2 ^ (bias - 1000) <= Zpos m * 2 ^ (e + bias)).
    { destruct Hlo as [Hz|Hlo]; [|exact Hlo].
      rewrite <- Ha, Hz. cbn. nia. }
    set (l := Z.log2 (Zpos m)) in *.
    assert (Hd : -1017 <= l + 1 + e).
    { destruct (Z.log2_spec (Zpos m) ltac:(lia)) as [_ H2]. fold l in H2.
      assert (2 ^ (bias - 1000) < 2 ^ (Z.succ l + (e + bias))).
      { rewrite Z.pow_add_r by (unfold bias; lia). nia. }
      apply pow2_lt_inv in H; unfold bias in *; lia. }
    unfold SFdiv, dprec, demax.
    rewrite SFdiv_core_binary_8 by assumption. fold l.
    rewrite xorb_false_r.
    set (M := Zpos m * 2 ^ (53 - l)).
    pose proof (pow2_pos (53 - l) ltac:(lia)) as Hp53.
    assert (HM : 0 < M) by (subst M; nia).
    assert (Hval : M * 2 ^ (l + e - 56 + bias)
                   = Zpos m * 2 ^ (e + bias) / 8).
    { subst M. rewrite <- Z.mul_assoc, <- Z.pow_add_r by (unfold bias; lia).
      replace (53 - l + (l + e - 56 + bias)) with (e + bias - 3) by lia.
      replace (2 ^ (e + bias)) with (2 ^ (e + bias - 3) * 8).
      2:{ change 8 with (2 ^ 3). rewrite <- Z.pow_add_r by (unfold bias; lia).
          apply (f_equal (Z.pow 2)). lia. }
      rewrite Z.mul_assoc, Z.div_mul by lia. reflexivity. }
    assert (Hdiv : Zpos m * 2 ^ (e + bias) / 8 <= 2 ^ (1000 + bias)).
    { apply Z.div_le_upper_bound; [lia|].
      pose proof (pow2_pos (1000 + bias) ltac:(unfold bias; lia)) as Hq.
      revert Hhi Hq. generalize (2 ^ (1000 + bias)).
      generalize (Zpos m * 2 ^ (e + bias)). intros; lia. }
    destruct (rounds_to_finite _ _ _
                (binary_round_aux_rounds s M (l + e - 56)
                   HM ltac:(unfold bias; lia) ltac:(lia)
                   ltac:(rewrite Hval; exact Hdiv))) as [Hf Hs].
    split; [exact Hf|]. rewrite Hs, Hval. cbn [scaled_value].
    assert (H8 : 0 < Zpos m * 2 ^ (e + bias) / 8).
    { rewrite <- Hval.
      pose proof (pow2_pos (l + e - 56 + bias) ltac:(unfold bias; lia)).
      nia. }
    unfold RNDz. destruct s.
    + rewrite Z.div_opp_l_z; [|lia|].
      * replace (- (Zpos m * 2 ^ (e + bias) / 8) <? 0) with true
          by (symmetry; apply Z.ltb_lt; lia).
        rewrite Z.opp_involutive. reflexivity.
      * replace (2 ^ (e + bias)) with (2 ^ (e + bias - 3) * 8).
        2:{ change 8 with (2 ^ 3).
            rewrite <- Z.pow_add_r by (unfold bias; lia).
            apply (f_equal (Z.pow 2)). lia. }
        rewrite Z.mul_assoc. apply Z.mod_mul. lia.
    + replace (Zpos m * 2 ^ (e + bias) / 8 <? 0) with false
        by (symmetry; apply Z.ltb_ge; lia).
      reflexivity.
Qed.

(** Multiplication by [65536.0]. *)
Lemma SFmul_65536_spec (z : spec_float) :
  finite_double z ->
  Z.abs (scaled_value z) <= 2 ^ (900 + bias) ->
  finite_double (SFmul dprec demax z d_65536_0)
  /\ scaled_value (SFmul dprec demax z d_65536_0)
     = RNDz (scaled_value z * 2 ^ 16).
Proof.
  intros Hz Hhi. rewrite d_65536_0_eq.
  destruct z as [s|s| |s m e]; cbn [finite_double] in Hz; try contradiction.
  - cbn [SFmul scaled_value]. split; [exact I|reflexivity].
  - destruct Hz as [Hm He].
    pose proof (scaled_value_abs s m e) as Ha. rewrite Ha in Hhi.
    pose proof (pow2_pos (e + bias) ltac:(unfold bias; lia)) as Hpe.
    unfold SFmul, dprec, demax. rewrite xorb_false_r, Pos2Z.inj_mul.
    change (Zpos (2 ^ 52)%positive) with (2 ^ 52).
    set (M := Zpos m * 2 ^ 52).
    assert (HM : 0 < M) by (subst M; lia).
    assert (Hval : M * 2 ^ (e + -36 + bias)
                   = Zpos m * 2 ^ (e + bias) * 2 ^ 16).
    { subst M. rewrite <- !Z.mul_assoc. f_equal.
      rewrite <- !Z.pow_add_r by (unfold bias; lia).
      apply (f_equal (Z.pow 2)). lia. }
    assert (Hb : Zpos m * 2 ^ (e + bias) * 2 ^ 16 <= 2 ^ (1000 + bias)).
    { assert (2 ^ (900 + bias) * 2 ^ 16 <= 2 ^ (1000 + bias)).
      { rewrite <- Z.pow_add_r by (unfold bias; lia).
        apply Z.pow_le_mono_r; unfold bias; lia. }
      nia. }
    destruct (rounds_to_finite _ _ _
                (binary_round_aux_rounds s M (e + -36)
                   HM ltac:(unfold bias; lia) ltac:(lia)
                   ltac:(rewrite Hval; exact Hb))) as [Hf Hs].
    split; [exact Hf|]. rewrite Hs, Hval. cbn [scaled_value].
    unfold RNDz. destruct s.
    + replace (- (Zpos m * 2 ^ (e + bias)) * 2 ^ 16 <? 0) with true
        by (symmetry; apply Z.ltb_lt; nia).
      f_equal. f_equal. lia.
    + replace (Zpos m * 2 ^ (e + bias) * 2 ^ 16 <? 0) with false
        by (symmetry; apply Z.ltb_ge; nia).
      reflexivity.
Qed.

Lemma float32_bounds (s : bool) (m : positive) (e : Z) :
  valid_binary 24 128 (S754_finite s m e) = true ->
  Zpos m < 2 ^ 24 /\ -149 <= e <= 104 /\ (-149 < e -> 2 ^ 23 <= Zpos m).
Proof.
  cbn [valid_binary]. unfold bounded, canonical_mantissa. intros H.
  apply andb_prop in H as [Hc Hb].
  apply Z.eqb_eq in Hc. apply Z.leb_le in Hb.
  change (fexp 24 128 (Zpos (digits2_pos m) + e))
    with (Z.max (Zdigits2 (Zpos m) + e - 24) (-149)) in Hc.
  rewrite Zdigits2_log2 in Hc by lia.
  change (128 - 24) with 104 in Hb.
  destruct (Z.log2_spec (Zpos m) ltac:(lia)) as [H1 H2].
  pose proof (Z.log2_nonneg (Zpos m)) as H0.
  split; [|split].
  - apply Z.log2_lt_pow2; lia.
  - lia.
  - intros He. replace 23 with (Z.log2 (Zpos m)) by lia. exact H1.
Qed.

Lemma float32_lt_exp (s1 s2 : bool) (m1 m2 : positive) (e1 e2 : Z) :
  valid_binary 24 128 (S754_finite s1 m1 e1) = true ->
  valid_binary 24 128 (S754_finite s2 m2 e2) = true ->
  e1 < e2 ->
  Zpos m1 * 2 ^ (e1 + bias) < Zpos m2 * 2 ^ (e2 + bias).
Proof.
  intros H1 H2 He.
  apply float32_bounds in H1 as (Hm1 & He1 & _).
  apply float32_bounds in H2 as (_ & He2 & Hm2).
  specialize (Hm2 ltac:(lia)).
  pose proof (pow2_pos (e1 + bias) ltac:(unfold bias; lia)) as Hp1.
  pose proof (pow2_pos (e2 + bias) ltac:(unfold bias; lia)) as Hp2.
  assert (Hle : 2 ^ 24 * 2 ^ (e1 + bias) <= 2 ^ 23 * 2 ^ (e2 + bias)).
  { rewrite <- !Z.pow_add_r by (unfold bias; lia).
    apply Z.pow_le_mono_r; lia. }
  nia.
Qed.

Lemma SFleb_scaled (x y : spec_float) :
  finite_float x -> finite_float y ->
  SFleb x y = true -> scaled_value x <= scaled_value y.
Proof.
  intros [Hx Fx] [Hy Fy] Hle. unfold SFleb in Hle.
  destruct x as [sx|sx| |sx mx ex]; try contradiction;
    destruct y as [sy|sy| |sy my ey]; try contradiction;
    cbn [SFcompare scaled_value] in *.
  - lia.
  - pose proof (pow2_pos (ey + bias)
                  ltac:(apply float32_bounds in Hy; unfold bias; lia)).
    destruct sy; [discriminate|nia].
  - pose proof (pow2_pos (ex + bias)
                  ltac:(apply float32_bounds in Hx; unfold bias; lia)).
    destruct sx; [nia|discriminate].
  - pose proof (pow2_pos (ex + bias)
                  ltac:(apply float32_bounds in Hx; unfold bias; lia)).
    pose proof (pow2_pos (ey + bias)
                  ltac:(apply float32_bounds in Hy; unfold bias; lia)).
    destruct sx, sy; try discriminate; try nia.
    + destruct (Z.compare_spec ex ey) as [->|Hlt|Hgt]; try discriminate.
      * change (Pos.compare_cont Eq mx my) with (Pos.compare mx my) in Hle.
        destruct (Pos.compare_spec mx my) as [->|Hl|Hg];
          cbn in Hle; try discriminate; [lia|].
        assert (Zpos my < Zpos mx) by lia. nia.
      * pose proof (float32_lt_exp _ _ _ _ _ _ Hy Hx Hgt). lia.
    + destruct (Z.compare_spec ex ey) as [->|Hlt|Hgt]; try discriminate.
      * change (Pos.compare_cont Eq mx my) with (Pos.compare mx my) in Hle.
        destruct (Pos.compare_spec mx my) as [->|Hl|Hg];
          cbn in Hle; try discriminate; [lia|].
        assert (Zpos mx < Zpos my) by lia. nia.
      * pose proof (float32_lt_exp _ _ _ _ _ _ Hx Hy Hlt). lia.
Qed.

(** Promotion to [double] is exact. *)
Lemma double_of_float_spec (x : spec_float) :
  finite_float x ->
  finite_double (double_of_float x)
  /\ scaled_value (double_of_float x) = scaled_value x.
Proof.
  intros [Hx Fx].
  destruct x as [s|s| |s m e]; try contradiction.
  - split; [exact I|reflexivity].
  - apply float32_bounds in Hx as (Hm & He & _).
    cbn [double_of_float]. unfold dprec, demax.
    pose proof (pow2_pos (e + bias) ltac:(unfold bias; lia)) as Hp.
    set (v := Zpos m * 2 ^ (e + bias)).
    assert (Hv : 0 < v) by (subst v; nia).
    assert (Hhi : v <= 2 ^ (1000 + bias)).
    { assert (2 ^ 24 * 2 ^ (e + bias) <= 2 ^ (1000 + bias)).
      { rewrite <- Z.pow_add_r by (unfold bias; lia).
        apply Z.pow_le_mono_r; unfold bias; lia. }
      subst v. nia. }
    destruct (rounds_to_finite _ _ _
                (binary_round_rounds s m e ltac:(unfold bias; lia) Hhi))
      as [Hf Hs].
    split; [exact Hf|]. rewrite Hs. fold v.
    assert (Hex : RND v = v).
    { apply RND_exact; [lia|].
      assert (Hu : 1 <= ulp_exp v <= e + bias).
      { split; [apply ulp_exp_pos|]. unfold ulp_exp. subst v.
        rewrite Z.log2_mul_pow2 by (unfold bias; lia).
        assert (Z.log2 (Zpos m) < 24) by (apply Z.log2_lt_pow2; lia).
        unfold bias. lia. }
      subst v.
      replace (e + bias)
        with ((e + bias - ulp_exp (Zpos m * 2 ^ (e + bias)))
              + ulp_exp (Zpos m * 2 ^ (e + bias))) at 1 by lia.
      rewrite Z.pow_add_r, Z.mul_assoc by lia.
      apply Z.mod_mul.
      pose proof (pow2_pos (ulp_exp (Zpos m * 2 ^ (e + bias))) ltac:(lia)).
      lia. }
    rewrite Hex. reflexivity.
Qed.

(** The cast truncates the value toward zero. *)
Lemma double_to_int_spec (w : spec_float) (t : Z) :
  finite_double w ->
  double_to_int w = Some t -> t = Z.quot (scaled_value w) (2 ^ bias).
Proof.
  intros Hw H.
  pose proof (pow2_pos bias ltac:(unfold bias; lia)) as Hb.
  destruct w as [s|s| |s m e]; cbn [finite_double] in Hw; try contradiction.
  - cbn in H. injection H as <-. cbn [scaled_value].
    rewrite Z.quot_0_l by lia. reflexivity.
  - destruct Hw as [Hm He]. cbn [double_to_int] in H.
    pose proof (pow2_pos (e + bias) ltac:(unfold bias; lia)) as Hp.
    assert (Hmag : Z.shiftl (Zpos m) e = Zpos m * 2 ^ (e + bias) / 2 ^ bias).
    { destruct (Z_le_gt_dec 0 e) as [Hpos|Hneg].
      - rewrite Z.shiftl_mul_pow2 by lia.
        rewrite Z.pow_add_r, Z.mul_assoc, Z.div_mul by (unfold bias; lia).
        reflexivity.
      - rewrite Z.shiftl_div_pow2 by lia.
        replace (2 ^ bias) with (2 ^ (- e) * 2 ^ (e + bias)).
        2:{ rewrite <- Z.pow_add_r by (unfold bias; lia).
            apply (f_equal (Z.pow 2)). lia. }
        rewrite Z.div_mul_cancel_r by (apply Z.pow_nonzero; unfold bias; lia).
        reflexivity. }
    rewrite Hmag in H.
    assert (Hq : Zpos m * 2 ^ (e + bias) / 2 ^ bias
                 = Z.quot (Zpos m * 2 ^ (e + bias)) (2 ^ bias))
      by (symmetry; apply Z.quot_div_nonneg; nia).
    rewrite Hq in H. cbn [scaled_value].
    destruct s.
    + rewrite Z.quot_opp_l by lia.
      destruct (_ && _) in H; [|discriminate]. injection H as <-. reflexivity.
    + destruct (_ && _) in H; [|discriminate]. injection H as <-. reflexivity.
Qed.

Lemma confidence_path_mono (u v : Z) :
  u <= v -> confidence_path u <= confidence_path v.
Proof.
  intros H. unfold confidence_path.
  apply Z.quot_le_mono; [apply pow2_pos; unfold bias; lia|].
  apply RNDz_mono. apply Z.mul_le_mono_nonneg_r; [lia|].
  apply RNDz_mono. apply Z.div_le_mono; [lia|].
  apply RNDz_mono. lia.
Qed.

Lemma abs_div8_le (z b : Z) : Z.abs z <= b -> Z.abs (z / 8) <= b.
Proof.
  intros H.
  pose proof (Z.div_mod z 8 ltac:(lia)).
  pose proof (Z.mod_pos_bound z 8 ltac:(lia)).
  lia.
Qed.

Lemma float_scaled_bounds (x : spec_float) :
  finite_float x ->
  Z.abs (scaled_value x) <= 2 ^ (128 + bias)
  /\ (scaled_value x + 2 ^ (1 + bias) = 0
      \/ 2 ^ (bias - 149) <= Z.abs (scaled_value x + 2 ^ (1 + bias))).
Proof.
  intros [Hx Fx].
  pose proof (pow2_pos (128 + bias) ltac:(unfold bias; lia)) as H128.
  pose proof (pow2_pos (bias - 149) ltac:(unfold bias; lia)) as Hw.
  assert (H2 : 2 ^ (1 + bias) = 2 ^ 150 * 2 ^ (bias - 149)).
  { rewrite <- Z.pow_add_r by (unfold bias; lia).
    apply (f_equal (Z.pow 2)). lia. }
  destruct x as [s|s| |s m e]; try contradiction.
  - cbn [scaled_value]. split; [lia|]. right. rewrite H2. lia.
  - apply float32_bounds in Hx as (Hm & He & _).
    pose proof (scaled_value_abs s m e) as Ha.
    pose proof (pow2_pos (e + bias) ltac:(unfold bias; lia)) as Hp.
    split.
    + rewrite Ha.
      assert (2 ^ 24 * 2 ^ (e + bias) <= 2 ^ (128 + bias)).
      { rewrite <- Z.pow_add_r by (unfold bias; lia).
        apply Z.pow_le_mono_r; unfold bias; lia. }
      nia.
    + assert (He' : 2 ^ (e + bias) = 2 ^ (e + 149) * 2 ^ (bias - 149)).
      { rewrite <- Z.pow_add_r by (unfold bias; lia).
        apply (f_equal (Z.pow 2)). lia. }
      cbn [scaled_value]. rewrite H2, He'.
      set (w := 2 ^ (bias - 149)) in *.
      set (k := Zpos m * 2 ^ (e + 149)).
      assert (Hk : (if s then - (Zpos m * (2 ^ (e + 149) * w))
                    else Zpos m * (2 ^ (e + 149) * w)) + 2 ^ 150 * w
                   = ((if s then - k else k) + 2 ^ 150) * w)
        by (subst k; destruct s; lia).
      rewrite Hk.
      destruct (Z.eq_dec ((if s then - k else k) + 2 ^ 150) 0) as [Hz|Hnz].
      * left. rewrite Hz. lia.
      * right. nia.
Qed.

Lemma scaled_confidence_spec (x : spec_float) (a : Z) :
  finite_float x ->
  scaled_confidence x = Some a -> a = confidence_path (scaled_value x).
Proof.
  intros Hx H. unfold scaled_confidence in H.
  destruct (double_of_float_spec x Hx) as [F0 S0].
  destruct (float_scaled_bounds x Hx) as [B0 N0].
  assert (P1 : 2 ^ (128 + bias) <= 2 ^ (999 + bias))
    by (apply Z.pow_le_mono_r; unfold bias; lia).
  assert (P2 : 2 ^ (129 + bias) = 2 * 2 ^ (128 + bias)).
  { rewrite <- Z.pow_succ_r by (unfold bias; lia).
    apply (f_equal (Z.pow 2)). lia. }
  assert (P3 : 2 ^ (1 + bias) <= 2 ^ (128 + bias))
    by (apply Z.pow_le_mono_r; unfold bias; lia).
  assert (P4 : 2 ^ (129 + bias) <= 2 ^ (900 + bias))
    by (apply Z.pow_le_mono_r; unfold bias; lia).
  assert (P5 : 2 ^ (900 + bias) <= 2 ^ (1000 + bias))
    by (apply Z.pow_le_mono_r; unfold bias; lia).
  assert (P6 : 2 ^ (bias - 1000) <= 2 ^ (bias - 149))
    by (apply Z.pow_le_mono_r; unfold bias; lia).
  pose proof (pow2_pos (1 + bias) ltac:(unfold bias; lia)) as P7.
  set (x0 := double_of_float x) in *.
  destruct (SFadd_2_spec x0 F0 ltac:(rewrite S0; lia)) as [F1 S1].
  rewrite S0 in S1.
  set (x1 := SFadd dprec demax x0 d_2_0) in *.
  set (V := scaled_value x + 2 ^ (1 + bias)) in *.
  assert (B1 : Z.abs (scaled_value x1) <= 2 ^ (129 + bias)).
  { rewrite S1. apply RNDz_abs_le; [unfold bias; lia|]. subst V. lia. }
  assert (N1 : scaled_value x1 = 0
               \/ 2 ^ (bias - 1000) <= Z.abs (scaled_value x1)).
  { rewrite S1. destruct N0 as [Hz|Hn].
    - left. rewrite Hz. reflexivity.
    - right. pose proof (RNDz_abs_ge V (bias - 149)
                           ltac:(unfold bias; lia) Hn). lia. }
  destruct (SFdiv_8_spec x1 F1 N1 ltac:(lia)) as [F2 S2].
  set (x2 := SFdiv dprec demax x1 d_8_0) in *.
  assert (B2 : Z.abs (scaled_value x2) <= 2 ^ (129 + bias)).
  { rewrite S2. apply RNDz_abs_le; [unfold bias; lia|].
    apply abs_div8_le. exact B1. }
  destruct (SFmul_65536_spec x2 F2 ltac:(lia)) as [F3 S3].
  rewrite (double_to_int_spec _ _ F3 H), S3, S2, S1.
  reflexivity.
Qed.

Lemma scaled_confidence_finite (x : spec_float) (a : Z) :
  scaled_confidence x = Some a ->
  match x with S754_zero _ | S754_finite _ _ _ => True | _ => False end.
Proof.
  destruct x as [s|s| |s m e]; try exact (fun _ => I).
  - destruct s; intros H; vm_compute in H; discriminate.
  - intros H; vm_compute in H; discriminate.
Qed.

Lemma clamp_alpha_mono (a b : Z) : a <= b -> clamp_alpha a <= clamp_alpha b.
Proof.
  intros H. unfold clamp_alpha.
  pose proof (Z.quot_le_mono a b 2 ltac:(lia) H).
  destruct (Z.quot a 2 + 32768 <? 10000) eqn:A1;
    destruct (Z.quot b 2 + 32768 <? 10000) eqn:B1;
    try apply Z.ltb_lt in A1; try apply Z.ltb_lt in B1;
    try apply Z.ltb_ge in A1; try apply Z.ltb_ge in B1;
    repeat match goal with
           | |- context [?u >? ?v] =>
               let E := fresh in
               destruct (u >? v) eqn:E;
               [apply Z.gtb_lt in E|rewrite Z.gtb_ltb in E; apply Z.ltb_ge in E]
           end; lia.
Qed.

(** C9. The opacity written for a token is [fade_alpha] of its confidence
    score. For two scores [x <= y] whose casts to [int] are defined, the
    opacity of [x] is at most that of [y]; an opacity lies between 10000 and
    65535, so it is positive; with fade on the token is wrapped in the
    span carrying the opacity, with fade off it is written bare. *)
Theorem fade_is_monotone_and_clamped
    (x y : spec_float) (ax ay : Z) (tok : bytes) :
  valid_binary 24 128 x = true ->
  valid_binary 24 128 y = true ->
  SFleb x y = true ->
  fade_alpha x = Some ax ->
  fade_alpha y = Some ay ->
  ax <= ay
  /\ 0 < 10000 <= ax /\ ax <= 65535
  /\ format_token true ax tok = span_markup ax tok
  /\ format_token false ax tok = tok.
Proof.
  intros Vx Vy Hle Hx Hy.
  pose proof (fade_alpha_range x ax Hx) as Rx.
  split; [|split; [lia|split; [lia|split; reflexivity]]].
  unfold fade_alpha in Hx, Hy.
  destruct (scaled_confidence x) as [cx|] eqn:Cx; [|discriminate].
  destruct (scaled_confidence y) as [cy|] eqn:Cy; [|discriminate].
  cbn in Hx, Hy. injection Hx as <-. injection Hy as <-.
  assert (Fx : finite_float x)
    by (split; [exact Vx|exact (scaled_confidence_finite x cx Cx)]).
  assert (Fy : finite_float y)
    by (split; [exact Vy|exact (scaled_confidence_finite y cy Cy)]).
  apply clamp_alpha_mono.
  rewrite (scaled_confidence_spec x cx Fx Cx).
  rewrite (scaled_confidence_spec y cy Fy Cy).
  apply confidence_path_mono. apply SFleb_scaled; assumption.
Qed.

Lemma fade_is_monotone_and_clamped_witness :
  36864 <= 43008
  /\ 0 < 10000 <= 36864 /\ 36864 <= 65535
  /\ format_token true 36864 (c_str " hi"%string) = span_markup 36864 (c_str " hi"%string)
  /\ format_token false 36864 (c_str " hi"%string) = c_str " hi"%string.
Proof.
  apply (fade_is_monotone_and_clamped minus_one_f one_half_f
           36864 43008 (c_str " hi"%string)); reflexivity.
Defined.

(** ** The token that overflows, and where the line wraps *)

Section Overflow.

Variable E : externals.
Variable cfg : gsettings.
Variable tokens : list AprilToken.
Variable caps : list bool.

Local Abbreviation num_tokens := (Z.of_nat (List.length tokens)).

(** More fuel does not change the token found. *)
Lemma first_overflow_fuel (mw : Z) :
  forall (fuel fuel' : nat) (j len r : Z),
    first_overflow E cfg tokens caps mw fuel j len = Some r ->
    (fuel <= fuel')%nat ->
    first_overflow E cfg tokens caps mw fuel' j len = Some r.
Proof.
  induction fuel as [|fuel IH]; intros fuel' j len r; [discriminate|].
  destruct fuel' as [|fuel']; [lia|]. cbn [first_overflow].
  destruct (nth_error tokens (Z.to_nat j)) as [tk|]; [|discriminate].
  destruct (select_token E cfg tokens caps j tk) as [tok skipahead].
  destruct (len + line_generator_get_text_width E tok >=? mw); [auto|].
  intros H Hle. apply IH; [exact H|lia].
Qed.

(** A loop that asks for a wrap does so at the first token that brings the
    width to the maximum. *)
Lemma print_line_overflow (cur : bool) (start mw end_ : Z) :
  forall (fuel : nat) (j : Z) (curr : line) (t : Z) (l' : line),
    print_line E cfg tokens caps cur start mw end_ fuel j curr = LWrap t l' ->
    cur = true
    /\ exists j',
         first_overflow E cfg tokens caps mw fuel j (len curr) = Some j'
         /\ j <= j' < end_
         /\ j' < num_tokens
         /\ t = wrap_target tokens start (start_head curr) j'.
Proof.
  induction fuel as [|fuel IH]; intros j curr t l'; [discriminate|].
  cbn [print_line first_overflow].
  destruct (j <? end_) eqn:Hlt; [|discriminate]. apply Z.ltb_lt in Hlt.
  destruct (nth_error tokens (Z.to_nat j)) as [tk|] eqn:Htk; [|discriminate].
  assert (Hj : j < num_tokens).
  { assert (Z.to_nat j < List.length tokens)%nat
      by (apply nth_error_Some; congruence). lia. }
  pose proof (select_token_skip_pos E cfg tokens caps j tk) as Hp.
  destruct (select_token E cfg tokens caps j tk) as [tok skipahead].
  cbn [snd] in Hp.
  destruct (head curr >? AC_LINE_MAX E - 256); [discriminate|].
  destruct cur; cbn [andb].
  - cbn [len set_len].
    destruct (len curr + line_generator_get_text_width E tok >=? mw).
    + intros H; injection H as <- _. split; [reflexivity|].
      exists j. repeat split; try lia; reflexivity.
    + destruct (fade_alpha (logprob tk)) as [alpha|]; [|discriminate].
      match goal with |- context [append_line ?s ?c] =>
        set (curr2 := append_line s c) end.
      destruct (head curr2 <? AC_LINE_MAX E); [|discriminate].
      intros H. apply IH in H. destruct H as (_ & j' & Hov & Hj' & Hn & Ht).
      split; [reflexivity|]. exists j'.
      repeat split; try lia; [exact Hov|exact Ht].
  - destruct (fade_alpha (logprob tk)) as [alpha|]; [|discriminate].
    match goal with |- context [append_line ?s ?c] =>
      set (curr2 := append_line s c) end.
    destruct (head curr2 <? AC_LINE_MAX E); [|discriminate].
    intros H. apply IH in H. destruct H as [Hc _]. discriminate.
Qed.

(** The tail call of line 257, with the token that overflowed. *)
Lemma update_line_Wrap_at (i : Z) (lg lg' : line_generator) :
  update_line E cfg tokens caps i lg = Retry Wrap lg' ->
  let start := size_t_of (active_start_of_lines lg i) in
  i = current_line lg
  /\ exists j,
       first_overflow E cfg tokens caps (max_text_width lg)
         (List.length tokens) start (start_len (lines lg i)) = Some j
       /\ start <= j < num_tokens
       /\ current_line lg' = REL_LINE_IDX E i 1
       /\ active_start_of_lines lg' (REL_LINE_IDX E i 1)
          = wrap_target tokens start (start_head (lines lg i)) j.
Proof.
  unfold update_line.
  destruct (active_start_of_lines lg i =? -1); [discriminate|].
  destruct ((start_head (lines lg i) <? 0)
            || (start_head (lines lg i) >=? AC_LINE_MAX E)); [discriminate|].
  set (lg1 := set_line i (reset_line (lines lg i)) lg).
  destruct (num_tokens =? 0); [discriminate|].
  destruct (size_t_of (active_start_of_lines lg i) >=? num_tokens).
  { destruct (i =? current_line lg1); discriminate. }
  match goal with |- context [print_line ?a ?b ?c ?d ?e ?f ?g ?h ?n ?j ?l] =>
    pose proof (print_line_overflow e f g h n j l) as Hp;
    destruct (print_line a b c d e f g h n j l) as [l'|t l'|f'] end;
    try discriminate.
  destruct (Hp t l' eq_refl) as (Hcur & j & Hov & Hj & Hjn & Ht). clear Hp.
  apply Z.eqb_eq in Hcur. cbn in Hcur.
  intros H; injection H as <-. cbn zeta.
  split; [exact Hcur|]. exists j.
  pose proof (size_t_of_nonneg (active_start_of_lines lg i)) as H0.
  cbn [current_line active_start_of_lines max_text_width lines set_line lg1]
    in Hov, Hj, Ht.
  rewrite <- Hcur, Z.eqb_refl, orb_true_r in Hov, Hj.
  cbn [len start_head reset_line] in Hov, Ht.
  split.
  { apply (first_overflow_fuel _ _ _ _ _ _ Hov). lia. }
  split; [lia|].
  cbn. rewrite <- Hcur. split; [reflexivity|].
  rewrite upd_same. exact Ht.
Qed.

End Overflow.

Lemma update_pass_Wrap_at (E : externals) (cfg : gsettings)
    (tokens : list AprilToken) (lg lg' : line_generator) :
  update_pass E cfg tokens lg = Retry Wrap lg' ->
  let c := current_line lg in
  let start := size_t_of (active_start_of_lines lg c) in
  exists j,
    overflow_token E cfg tokens lg = Some j
    /\ start <= j < Z.of_nat (List.length tokens)
    /\ current_line lg' = REL_LINE_IDX E c 1
    /\ active_start_of_lines lg' (current_line lg')
       = wrap_target tokens start (start_head (lines lg c)) j.
Proof.
  rewrite update_pass_unfold.
  destruct (Z.of_nat (List.length tokens) >? 1024); [discriminate|].
  pose proof (update_lines_frame E cfg tokens (snd (scan_of tokens lg)) (slots E)
                (set_tcap (fst (scan_of tokens lg)) lg)) as Hf.
  intros Hu. rewrite Hu in Hf.
  destruct Hf as (i & lgm & _ & Hfr & Hw).
  apply update_line_Wrap_at in Hw. cbn zeta in Hw.
  destruct (same_frame_start_head _ _ i Hfr) as [Hsh Hsl].
  destruct Hfr as (Hc & Ha & Hm & _).
  cbn in Hc, Ha, Hm, Hsh, Hsl.
  destruct Hw as (Hi & j & Hov & Hj & Hc' & Ha').
  rewrite Hc in Hi. subst i. rewrite Ha, Hm, ?Hsh, ?Hsl in *.
  cbn zeta. exists j. unfold overflow_token.
  repeat split; auto; try lia. now rewrite Hc'.
Qed.

Lemma collapse_no_boundary (tokens : list AprilToken) (start j : Z) :
  start <= j ->
  find_word_boundary tokens start (Z.to_nat (j - start)) j = start
  <-> no_boundary_between tokens start j.
Proof.
  intros Hj.
  destruct (find_word_boundary_spec tokens start (Z.to_nat (j - start)) j
              eq_refl Hj) as (Hr & Hno & Hyes).
  set (r := find_word_boundary tokens start (Z.to_nat (j - start)) j) in *.
  split.
  - intros Hrs k Hk. apply Hno. lia.
  - intros Hnb. destruct (Z.eq_dec r start) as [Hrs|Hrs]; [exact Hrs|].
    assert (Hlt : start < r) by lia.
    specialize (Hyes Hlt). rewrite Hnb in Hyes by lia. discriminate.
Qed.

(** C2 (amended). When a pass ends in the wrap of the growing line, the
    line overflowed at a token [j]: the first token, in the order the loop
    visits them from the line's start token, whose width brought the line's
    width to [max_text_width]. The new growing line is the next slot of the
    ring, and its start token [tgt] lies between the old line's start and
    [j], with no word-boundary token after it up to [j]. Either it is a
    word-boundary token after the old start (hence the nearest one at or
    before [j]), or no token after the old start up to [j] is a word
    boundary (the line's first word alone overflows) and [tgt] is the
    current token [j] when the old line has no frozen prefix, the old
    line's own start token when it has one. *)
Theorem wrap_lands_on_word_boundary (E : externals) (cfg : gsettings)
    (tokens : list AprilToken) (lg lg' : line_generator) :
  update_pass E cfg tokens lg = Retry Wrap lg' ->
  let c := current_line lg in
  let start := size_t_of (active_start_of_lines lg c) in
  let tgt := active_start_of_lines lg' (current_line lg') in
  current_line lg' = REL_LINE_IDX E c 1
  /\ exists j,
       overflow_token E cfg tokens lg = Some j
       /\ start <= j < Z.of_nat (List.length tokens)
       /\ start <= tgt <= j
       /\ no_boundary_between tokens tgt j
       /\ ((start < tgt /\ word_boundary_at tokens tgt = true)
           \/ (no_boundary_between tokens start j
               /\ tgt = if start_head (lines lg c) =? 0 then j else start)).
Proof.
  intros Hu. apply update_pass_Wrap_at in Hu. cbn zeta in Hu.
  destruct Hu as (j & Hov & Hj & Hc & Ht).
  cbn zeta. split; [exact Hc|]. exists j.
  split; [exact Hov|]. split; [exact Hj|].
  rewrite Ht. apply wrap_target_spec. lia.
Qed.

(** The theorem at work on an 8-unit line: " ab cd" fits, "ef" overflows
    (token 2), and the new line starts at the word-boundary token 1. *)
Lemma wrap_lands_on_word_boundary_witness :
  let lg := fresh_generator E_ref 8 in
  let lg' := state_of (update_pass E_ref cfg_plain tokens_two_words lg) lg in
  update_pass E_ref cfg_plain tokens_two_words lg = Retry Wrap lg'
  /\ overflow_token E_ref cfg_plain tokens_two_words lg = Some 2
  /\ active_start_of_lines lg' (current_line lg') = 1
  /\ word_boundary_at tokens_two_words 1 = true.
Proof.
  cbn zeta.
  assert (Hu : update_pass E_ref cfg_plain tokens_two_words
                 (fresh_generator E_ref 8)
               = Retry Wrap
                   (state_of (update_pass E_ref cfg_plain tokens_two_words
                                (fresh_generator E_ref 8))
                             (fresh_generator E_ref 8)))
    by (vm_compute; reflexivity).
  split; [exact Hu|].
  pose proof (wrap_lands_on_word_boundary E_ref cfg_plain tokens_two_words
                _ _ Hu) as H.
  cbn zeta in H. destruct H as (_ & j & Hov & _ & Hle & _ & [[Hlt Hwb]|[Hnb _]]).
  - assert (Hj : j = 2) by (vm_compute in Hov; congruence). subst j.
    split; [exact Hov|].
    change (size_t_of _) with 0 in Hlt, Hle.
    set (lgW := state_of _ _) in *.
    set (tgt := active_start_of_lines lgW (current_line lgW)) in *.
    assert (Ht : tgt = 1).
    { assert (Hc : tgt = 1 \/ tgt = 2) by lia.
      destruct Hc as [Hc|Hc]; [exact Hc|].
      rewrite Hc in Hwb. vm_compute in Hwb. discriminate. }
    split; [exact Ht|]. now rewrite <- Ht.
  - assert (Hj : j = 2) by (vm_compute in Hov; congruence). subst j.
    change (size_t_of _) with 0 in Hnb.
    specialize (Hnb 1 ltac:(lia)). vm_compute in Hnb. discriminate.
Defined.

(** C2 as stated fails. The growing line holds the frozen prefix " hi." on
    an 8-unit display, and the tokens "ab", "cd", " efghij" are 11 units
    wide. The line overflows at token 1, inside the first word "abcd",
    which is 4 units wide and fits a line alone. The new line starts at
    token 0: a token without the word-boundary flag, and not the current
    token 1. *)
Lemma wrap_frozen_prefix_counterexample :
  map (fun tk => line_generator_get_text_width E_ref (c_str (token tk)))
    tokens_abcd_more = [2; 2; 7]
  /\ max_text_width (frozen_generator 8) = 8
  /\ observe (frozen_generator 8) = (0, [(0, " hi."); (-1, "")])%string
  /\ overflow_token E_ref cfg_plain tokens_abcd_more (frozen_generator 8)
     = Some 1
  /\ observe_outcome
       (update_pass E_ref cfg_plain tokens_abcd_more (frozen_generator 8))
     = inl (Some Wrap, (1, [(0, " hi.ab"); (0, "")]))%string
  /\ word_boundary_at tokens_abcd_more 0 = false
  /\ observe_outcome
       (update_pass E_ref cfg_plain (firstn 2 tokens_abcd_more)
          (fresh_generator E_ref 8))
     = inl (None, (0, [(0, "abcd"); (-1, "")]))%string.
Proof. vm_compute. repeat split; reflexivity. Qed.

(** C3 (amended). When a pass ends in the wrap of the growing line, which
    overflowed at token [j] (the first token whose width brought the line's
    width to [max_text_width]), the backward scan for a word boundary
    collapses to the line's own start token exactly when no token after
    the start up to [j] is a word boundary; and then the wrap point is the
    current token [j] if the line has no frozen prefix ([start_head = 0])
    and stays the line's start token if it has one: for [j] past the start,
    it is moved to the current token if and only if there is no frozen
    prefix. *)
Theorem wrap_collapse_to_start (E : externals) (cfg : gsettings)
    (tokens : list AprilToken) (lg lg' : line_generator) :
  update_pass E cfg tokens lg = Retry Wrap lg' ->
  let c := current_line lg in
  let start := size_t_of (active_start_of_lines lg c) in
  let frozen := start_head (lines lg c) in
  let tgt := active_start_of_lines lg' (current_line lg') in
  exists j,
    overflow_token E cfg tokens lg = Some j
    /\ start <= j < Z.of_nat (List.length tokens)
    /\ (find_word_boundary tokens start (Z.to_nat (j - start)) j = start
        <-> no_boundary_between tokens start j)
    /\ (no_boundary_between tokens start j ->
        (frozen = 0 -> tgt = j)
        /\ (frozen <> 0 -> tgt = start)
        /\ (start < j -> (tgt = j <-> frozen = 0))).
Proof.
  intros Hu. apply update_pass_Wrap_at in Hu. cbn zeta in Hu.
  destruct Hu as (j & Hov & Hj & Hc & Ht).
  cbn zeta. exists j. split; [exact Hov|]. split; [exact Hj|].
  split; [exact (collapse_no_boundary tokens _ j (proj1 Hj))|].
  intros Hnb. rewrite Ht. unfold wrap_target.
  rewrite (proj2 (collapse_no_boundary tokens _ j (proj1 Hj)) Hnb).
  rewrite Z.eqb_refl. cbn [andb].
  destruct (start_head (lines lg (current_line lg)) =? 0) eqn:Hf.
  - apply Z.eqb_eq in Hf. split; [reflexivity|]. split; [intros; contradiction|].
    intros _. split; auto.
  - apply Z.eqb_neq in Hf. split; [intros; contradiction|].
    split; [reflexivity|]. intros Hlt. split; [lia|intros; contradiction].
Qed.

(** Both cases at work. With the frozen prefix " hi." the first word "ab",
    "cd" overflows at token 1 and the wrap point stays the start token 0;
    with no frozen prefix the word " ab", "cd", "ef" overflows a 6-unit
    line at token 2 and the wrap point is that token. *)
Lemma wrap_collapse_to_start_witness :
  (let lg := frozen_generator 8 in
   let lg' := state_of (update_pass E_ref cfg_plain tokens_abcd lg) lg in
   update_pass E_ref cfg_plain tokens_abcd lg = Retry Wrap lg'
   /\ overflow_token E_ref cfg_plain tokens_abcd lg = Some 1
   /\ start_head (lines lg 0) = 4
   /\ active_start_of_lines lg' (current_line lg') = 0)
  /\ (let lg := fresh_generator E_ref 6 in
      let lg' := state_of (update_pass E_ref cfg_plain tokens_one_word lg) lg in
      update_pass E_ref cfg_plain tokens_one_word lg = Retry Wrap lg'
      /\ overflow_token E_ref cfg_plain tokens_one_word lg = Some 2
      /\ start_head (lines lg 0) = 0
      /\ active_start_of_lines lg' (current_line lg') = 2).
Proof.
  cbn zeta. split.
  - assert (Hu : update_pass E_ref cfg_plain tokens_abcd (frozen_generator 8)
                 = Retry Wrap
                     (state_of (update_pass E_ref cfg_plain tokens_abcd
                                  (frozen_generator 8))
                               (frozen_generator 8)))
      by (vm_compute; reflexivity).
    split; [exact Hu|].
    pose proof (wrap_collapse_to_start E_ref cfg_plain tokens_abcd _ _ Hu) as H.
    cbn zeta in H. destruct H as (j & Hov & _ & _ & Hcol).
    assert (Hj : j = 1) by (vm_compute in Hov; congruence). subst j.
    split; [exact Hov|]. split; [vm_compute; reflexivity|].
    change (current_line (frozen_generator 8)) with 0 in Hcol.
    change (size_t_of (active_start_of_lines (frozen_generator 8) 0))
      with 0 in Hcol.
    change (start_head (lines (frozen_generator 8) 0)) with 4 in Hcol.
    destruct Hcol as (_ & Hfz & _).
    + intros k Hk. assert (k = 1) by lia. subst k. reflexivity.
    + apply Hfz. lia.
  - assert (Hu : update_pass E_ref cfg_plain tokens_one_word
                   (fresh_generator E_ref 6)
                 = Retry Wrap
                     (state_of (update_pass E_ref cfg_plain tokens_one_word
                                  (fresh_generator E_ref 6))
                               (fresh_generator E_ref 6)))
      by (vm_compute; reflexivity).
    split; [exact Hu|].
    pose proof (wrap_collapse_to_start E_ref cfg_plain tokens_one_word _ _ Hu)
      as H.
    cbn zeta in H. destruct H as (j & Hov & _ & _ & Hcol).
    assert (Hj : j = 2) by (vm_compute in Hov; congruence). subst j.
    split; [exact Hov|]. split; [vm_compute; reflexivity|].
    change (current_line (fresh_generator E_ref 6)) with 0 in Hcol.
    change (size_t_of (active_start_of_lines (fresh_generator E_ref 6) 0))
      with 0 in Hcol.
    change (start_head (lines (fresh_generator E_ref 6) 0)) with 0 in Hcol.
    destruct Hcol as (Hfr & _).
    + intros k Hk. assert (k = 1 \/ k = 2) by lia.
      destruct H as [-> | ->]; reflexivity.
    + apply Hfr. reflexivity.
Defined.

(** C3 as stated fails in both directions. With a frozen prefix (four
    bytes) the line overflows at token 1, the scan collapses to the start
    and the wrap point stays the slot start 0: it is not moved to the
    current token 1. Without a frozen prefix the line overflows at token 2,
    the scan collapses to the start and the wrap point is moved to the
    current token 2. *)
Lemma wrap_collapse_counterexample :
  (start_head (lines (frozen_generator 8) 0) = 4
   /\ overflow_token E_ref cfg_plain tokens_abcd (frozen_generator 8) = Some 1
   /\ find_word_boundary tokens_abcd 0 1 1 = 0
   /\ wrap_target tokens_abcd 0 4 1 = 0
   /\ observe_outcome
        (update_pass E_ref cfg_plain tokens_abcd (frozen_generator 8))
      = inl (Some Wrap, (1, [(0, " hi.ab"); (0, "")]))%string)
  /\ (start_head (lines (fresh_generator E_ref 6) 0) = 0
      /\ overflow_token E_ref cfg_plain tokens_one_word
           (fresh_generator E_ref 6) = Some 2
      /\ find_word_boundary tokens_one_word 0 2 2 = 0
      /\ wrap_target tokens_one_word 0 0 2 = 2
      /\ observe_outcome
           (update_pass E_ref cfg_plain tokens_one_word (fresh_generator E_ref 6))
         = inl (Some Wrap, (1, [(0, " abcd"); (2, "")]))%string).
Proof. vm_compute. repeat split; reflexivity. Qed.

(** ** What a pass and a call keep of every line *)

Lemma write_at_nil_idem_all (pos : Z) (t : bytes) :
  write_at pos [] (write_at pos [] t) = write_at pos [] t.
Proof.
  destruct (Z_le_gt_dec 0 pos) as [Hp|Hn]; [now apply write_at_nil_idem|].
  unfold write_at.
  replace (pos <=? Z.of_nat (List.length t)) with true
    by (symmetry; apply Z.leb_le; lia).
  replace (Z.to_nat pos) with 0%nat by lia. cbn.
  replace (pos <=? 0) with true by (symmetry; apply Z.leb_le; lia).
  reflexivity.
Qed.

Lemma reset_line_idem_all (l : line) : reset_line (reset_line l) = reset_line l.
Proof. unfold reset_line; cbn. now rewrite write_at_nil_idem_all. Qed.

(** Two texts that agree once cut at [pos] agree on their first [pos]
    bytes. *)
Lemma write_at_nil_firstn (pos : Z) (t t' : bytes) :
  write_at pos [] t' = write_at pos [] t ->
  firstn (Z.to_nat pos) t' = firstn (Z.to_nat pos) t.
Proof.
  unfold write_at.
  destruct (pos <=? Z.of_nat (List.length t')) eqn:H';
    destruct (pos <=? Z.of_nat (List.length t)) eqn:H;
    rewrite ?app_nil_r; intros He.
  - exact He.
  - apply Z.leb_le in H'. apply Z.leb_gt in H.
    destruct (Z_le_gt_dec 0 pos) as [Hp|Hn].
    + assert (Hl : List.length (firstn (Z.to_nat pos) t') = Z.to_nat pos)
        by (rewrite length_firstn; lia).
      rewrite He in Hl. lia.
    + replace (Z.to_nat pos) with 0%nat by lia. reflexivity.
  - apply Z.leb_gt in H'. apply Z.leb_le in H.
    destruct (Z_le_gt_dec 0 pos) as [Hp|Hn].
    + assert (Hl : List.length (firstn (Z.to_nat pos) t) = Z.to_nat pos)
        by (rewrite length_firstn; lia).
      rewrite <- He in Hl. lia.
    + replace (Z.to_nat pos) with 0%nat by lia. reflexivity.
  - now rewrite He.
Qed.

Lemma reset_line_eq_frozen (l l' : line) :
  reset_line l' = reset_line l ->
  start_head l' = start_head l
  /\ start_len l' = start_len l
  /\ firstn (Z.to_nat (start_head l)) (text l')
     = firstn (Z.to_nat (start_head l)) (text l).
Proof.
  unfold reset_line. intros H. injection H as Ht Hh Hl.
  repeat split; auto. rewrite Hh in Ht. now apply write_at_nil_firstn.
Qed.

Lemma rerendered_refl (lg : line_generator) (k : Z) : rerendered lg lg k.
Proof. now left. Qed.

Lemma rerendered_reset (lg lg' : line_generator) (k : Z) :
  rerendered lg lg' k -> reset_line (lines lg' k) = reset_line (lines lg k).
Proof. intros [->|[_ H]]; auto. Qed.

Lemma same_frame_rerendered (lg lg' : line_generator) (k : Z) :
  same_frame lg lg' -> rerendered lg lg' k.
Proof.
  intros (_ & _ & _ & _ & _ & H).
  destruct (H k) as [Hk|(Ha & _ & Hr)]; [now left|now right].
Qed.

Section PassEffect.

Variable E : externals.
Variable cfg : gsettings.
Variable tokens : list AprilToken.

Local Abbreviation num_tokens := (Z.of_nat (List.length tokens)).

(** What a pass does to the markers and to every line, by the way it
    ends. *)
Lemma update_pass_effect (lg : line_generator) :
  match update_pass E cfg tokens lg with
  | Done lg' =>
      current_line lg' = current_line lg
      /\ active_start_of_lines lg' = active_start_of_lines lg
      /\ forall k, rerendered lg lg' k
  | Retry Backtrack lg' =>
      let c := current_line lg in
      In c (slots E)
      /\ active_start_of_lines lg c <> -1
      /\ num_tokens <> 0
      /\ num_tokens <= size_t_of (active_start_of_lines lg c)
      /\ current_line lg' = REL_LINE_IDX E c (-1)
      /\ active_start_of_lines lg' = upd (active_start_of_lines lg) c (-1)
      /\ forall k, rerendered lg lg' k
  | Retry Wrap lg' =>
      let c := current_line lg in
      let n := REL_LINE_IDX E c 1 in
      In c (slots E)
      /\ active_start_of_lines lg c <> -1
      /\ current_line lg' = n
      /\ (forall k, k <> n ->
            active_start_of_lines lg' k = active_start_of_lines lg k)
      /\ start_head (lines lg' n) = 0
      /\ start_len (lines lg' n) = 0
      /\ forall k, k <> n -> rerendered lg lg' k
  | Fault _ => True
  end.
Proof.
  rewrite update_pass_unfold.
  destruct (num_tokens >? 1024); [exact I|].
  pose proof (update_lines_frame E cfg tokens (snd (scan_of tokens lg))
                (slots E) (set_tcap (fst (scan_of tokens lg)) lg)) as Hf.
  destruct (update_lines E cfg tokens (snd (scan_of tokens lg)) (slots E)
              (set_tcap (fst (scan_of tokens lg)) lg)) as [lg'|[|] lg'|f];
    [| | |exact I].
  - pose proof (fun k => same_frame_rerendered _ _ k Hf) as Hr.
    destruct Hf as (Hc & Ha & _). cbn in Hc, Ha.
    split; [exact Hc|]. split; [exact Ha|]. exact Hr.
  - destruct Hf as (i & lgm & Hin & Hfr & Hb).
    pose proof (fun k => same_frame_rerendered _ _ k Hfr) as Hr.
    destruct Hfr as (Hc & Ha & _). cbn in Hc, Ha.
    apply update_line_Backtrack in Hb.
    destruct Hb as (Hi & Hact & Hn0 & Hge & Hc' & Ha' & Hl' & _).
    rewrite Hc in Hi. subst i. rewrite Ha in *.
    cbn zeta. repeat split; auto.
    intros k. unfold rerendered. rewrite Hl'.
    destruct (Z.eq_dec k (current_line lg)) as [->|Hne].
    + rewrite upd_same. right. split; [exact Hact|].
      rewrite reset_line_idem_all. apply (rerendered_reset _ _ _ (Hr _)).
    + rewrite upd_other by exact Hne. apply Hr.
  - destruct Hf as (i & lgm & Hin & Hfr & Hw).
    pose proof (fun k => same_frame_rerendered _ _ k Hfr) as Hr.
    destruct Hfr as (Hc & Ha & _). cbn in Hc, Ha.
    apply update_line_Wrap in Hw.
    destruct Hw as (Hi & Hact & _ & j & _ & Hc' & Ha' & _ & _ & Hs0 & Hl0
                    & Hk & _ & Hri).
    rewrite Hc in Hi. subst i. rewrite Ha in *.
    cbn zeta. repeat split; auto.
    + intros k Hne. rewrite Ha'. now rewrite upd_other.
    + intros k Hne. unfold rerendered.
      destruct (Z.eq_dec k (current_line lg)) as [->|Hnc].
      * right. split; [exact Hact|]. rewrite Hri by congruence.
        apply (rerendered_reset _ _ _ (Hr _)).
      * rewrite Hk by auto. apply Hr.
Qed.

End PassEffect.

(** ** Slots that no wrap restarts *)

Section History.

Variable E : externals.
Variable lg0 : line_generator.
Variable c0 : Z.

Lemma history_kept_weaken (ws ws' : list Z) (lg : line_generator) :
  (forall k, In k ws -> In k ws') ->
  history_kept E lg0 c0 ws lg -> history_kept E lg0 c0 ws' lg.
Proof.
  intros Hsub [Ha Hb]. split.
  - intros k Hin Hk. apply Ha; auto.
  - intros Hin Hk. apply Hb; auto.
Qed.

(** A line that is inactive is not drawn again. *)
Lemma rerendered_inactive (lg lg' : line_generator) (k : Z) :
  rerendered lg lg' k -> active_start_of_lines lg k = -1 ->
  lines lg' k = lines lg k.
Proof. intros [H|[Ha _]] Hk; [exact H|contradiction]. Qed.

Lemma update_pass_history (cfg : gsettings) (tokens : list AprilToken)
    (ws : list Z) (lg : line_generator) :
  history_kept E lg0 c0 ws lg ->
  match update_pass E cfg tokens lg with
  | Done lg' | Retry Backtrack lg' => history_kept E lg0 c0 ws lg'
  | Retry Wrap lg' =>
      history_kept E lg0 c0 (REL_LINE_IDX E (current_line lg) 1 :: ws) lg'
  | Fault _ => True
  end.
Proof.
  intros [Ha Hb].
  pose proof (update_pass_effect E cfg tokens lg) as He.
  destruct (update_pass E cfg tokens lg) as [lg'|[|] lg'|f]; [| | |exact I].
  - destruct He as (_ & Hact & Hr). split.
    + intros k Hin Hk Hne. destruct (Ha k Hin Hk Hne) as [Hl Hi].
      rewrite Hact. split; [|exact Hi].
      now rewrite (rerendered_inactive _ _ _ (Hr k) Hi).
    + intros Hin Hk. destruct (Hb Hin Hk) as [Hz Hl].
      rewrite Hact. split; [exact Hz|].
      now rewrite (rerendered_reset _ _ _ (Hr c0)).
  - cbn zeta in He.
    destruct He as (Hcin & Hcact & Hn0 & Hge & _ & Hact & Hr). split.
    + intros k Hin Hk Hne. destruct (Ha k Hin Hk Hne) as [Hl Hi].
      split; [now rewrite (rerendered_inactive _ _ _ (Hr k) Hi)|].
      rewrite Hact. unfold upd. destruct (k =? current_line lg); auto.
    + intros Hin Hk. destruct (Hb Hin Hk) as [Hz Hl].
      split; [|now rewrite (rerendered_reset _ _ _ (Hr c0))].
      rewrite Hact. rewrite upd_other; [exact Hz|].
      intros Heq. rewrite <- Heq, Hz in Hge.
      change (size_t_of 0) with 0 in Hge. lia.
  - cbn zeta in He.
    destruct He as (Hcin & Hcact & _ & Hact & _ & _ & Hr). split.
    + intros k Hin Hk Hne.
      assert (Hkn : k <> REL_LINE_IDX E (current_line lg) 1)
        by (intros ->; apply Hk; now left).
      destruct (Ha k Hin (fun H => Hk (or_intror H)) Hne) as [Hl Hi].
      rewrite (Hact k Hkn). split; [|exact Hi].
      now rewrite (rerendered_inactive _ _ _ (Hr k Hkn) Hi).
    + intros Hin Hk.
      assert (Hkn : c0 <> REL_LINE_IDX E (current_line lg) 1)
        by (intros Heq; apply Hk; left; now rewrite <- Heq).
      destruct (Hb Hin (fun H => Hk (or_intror H))) as [Hz Hl].
      rewrite (Hact c0 Hkn). split; [exact Hz|].
      now rewrite (rerendered_reset _ _ _ (Hr c0 Hkn)).
Qed.

Lemma update_trace_history (cfg : gsettings) (tokens : list AprilToken) :
  forall (fuel : nat) (lg lg' : line_generator) (rs : list retry)
         (ws : list Z),
    history_kept E lg0 c0 ws lg ->
    update_trace E cfg tokens fuel lg = Some (rs, inl lg') ->
    history_kept E lg0 c0 (wrapped_slots E (current_line lg) rs ++ ws) lg'.
Proof.
  induction fuel as [|fuel IH]; intros lg lg' rs ws Hk; cbn [update_trace];
    [discriminate|].
  pose proof (update_pass_history cfg tokens ws lg Hk) as Hp.
  pose proof (update_pass_effect E cfg tokens lg) as He.
  destruct (update_pass E cfg tokens lg) as [lg1|[|] lg1|f].
  - intros H; injection H as <- <-. exact Hp.
  - destruct (update_trace E cfg tokens fuel lg1) as [[rs' res]|] eqn:Ht;
      [|discriminate].
    intros H; injection H as <- ->.
    cbn zeta in He. destruct He as (_ & _ & _ & _ & Hc & _).
    cbn [wrapped_slots]. rewrite <- Hc. now apply IH.
  - destruct (update_trace E cfg tokens fuel lg1) as [[rs' res]|] eqn:Ht;
      [|discriminate].
    intros H; injection H as <- ->.
    cbn zeta in He. destruct He as (_ & _ & Hc & _).
    cbn [wrapped_slots]. rewrite <- Hc.
    apply history_kept_weaken
      with (ws := wrapped_slots E (current_line lg1) rs'
                    ++ current_line lg1 :: ws).
    + intros k Hin. apply in_app_or in Hin. cbn.
      destruct Hin as [Hin|[Hin|Hin]]; auto.
      right. apply in_or_app. now left.
      right. apply in_or_app. now right.
    + apply IH; [|exact Ht]. now rewrite Hc.
  - discriminate.
Qed.

Lemma update_calls_history :
  forall (calls : list (gsettings * list AprilToken)) (fuel : nat)
         (lg lg' : line_generator) (ws0 ws : list Z),
    history_kept E lg0 c0 ws0 lg ->
    update_calls E calls fuel lg = Some (ws, lg') ->
    history_kept E lg0 c0 (ws ++ ws0) lg'.
Proof.
  induction calls as [|[cfg tokens] rest IH]; intros fuel lg lg' ws0 ws Hk;
    cbn [update_calls].
  - intros H; injection H as <- <-. exact Hk.
  - destruct (update_trace E cfg tokens fuel lg) as [[rs [lg1|f]]|] eqn:Ht;
      try discriminate.
    destruct (update_calls E rest fuel lg1) as [[ws1 lg2]|] eqn:Hc;
      [|discriminate].
    intros H; injection H as <- <-.
    pose proof (update_trace_history cfg tokens fuel lg lg1 rs ws0 Hk Ht) as H1.
    pose proof (IH fuel lg1 lg2 _ ws1 H1 Hc) as H2.
    apply history_kept_weaken with (2 := H2).
    intros k Hin. rewrite !in_app_iff in *. tauto.
Qed.

End History.

(** ** After [line_generator_finalize]: the history *)

Lemma finalize_history_kept (E : externals) (lg : line_generator) :
  history_kept E (line_generator_finalize E lg) (current_line lg) []
    (line_generator_finalize E lg).
Proof.
  split.
  - intros k Hin _ Hne. split; [reflexivity|].
    cbn. rewrite upd_other by exact Hne. now rewrite Hin.
  - intros _ _. split; [cbn; apply upd_same|reflexivity].
Qed.

(** C10 (amended). [line_generator_finalize] keeps the growing line's index,
    marks every other slot of the array inactive, restarts the growing line
    at token 0 and freezes its checkpoint at the current cursor and width,
    without touching any text. After it, through any sequence of calls of
    [line_generator_update] that return (whatever their tokens and
    settings), every slot of the array that no wrap of these calls has made
    the growing line is kept: a slot other than the growing line of
    finalize stays inactive and keeps its line byte for byte, and the
    growing line of finalize still starts at token 0 with its checkpoint
    and the text frozen before it. Frozen history is rewritten only in the
    slots that a wrap restarts. *)
Theorem history_kept_until_wrap (E : externals)
    (calls : list (gsettings * list AprilToken)) (fuel : nat)
    (lg lg' : line_generator) (ws : list Z) :
  update_calls E calls fuel (line_generator_finalize E lg) = Some (ws, lg') ->
  let lgF := line_generator_finalize E lg in
  let c := current_line lg in
  (current_line lgF = c
   /\ active_start_of_lines lgF c = 0
   /\ (forall i, in_array E i = true -> i <> c ->
         active_start_of_lines lgF i = -1)
   /\ start_head (lines lgF c) = head (lines lg c)
   /\ start_len (lines lgF c) = len (lines lg c)
   /\ (forall k, text (lines lgF k) = text (lines lg k)))
  /\ (forall k, in_array E k = true -> ~ In k ws -> k <> c ->
        lines lg' k = lines lgF k /\ active_start_of_lines lg' k = -1)
  /\ (in_array E c = true -> ~ In c ws ->
        active_start_of_lines lg' c = 0
        /\ start_head (lines lg' c) = head (lines lg c)
        /\ start_len (lines lg' c) = len (lines lg c)
        /\ firstn (Z.to_nat (head (lines lg c))) (text (lines lg' c))
           = firstn (Z.to_nat (head (lines lg c))) (text (lines lg c))).
Proof.
  intros Hu. cbn zeta.
  pose proof (update_calls_history E _ _ calls fuel _ lg' [] ws
                (finalize_history_kept E lg) Hu) as [Ha Hb].
  split; [|split].
  - split; [reflexivity|]. split; [cbn; apply upd_same|].
    split.
    { intros i Hi Hne. cbn. rewrite upd_other by exact Hne. now rewrite Hi. }
    split; [cbn; now rewrite upd_same|]. split; [cbn; now rewrite upd_same|].
    intros k. cbn. destruct (Z.eq_dec k (current_line lg)) as [->|Hne].
    + now rewrite upd_same.
    + now rewrite upd_other.
  - intros k Hin Hk Hne. apply Ha; auto.
    rewrite app_nil_r. exact Hk.
  - intros Hin Hk. rewrite app_nil_r in Hb.
    destruct (Hb Hin Hk) as [Hz Hr]. split; [exact Hz|].
    apply reset_line_eq_frozen in Hr.
    assert (Hsh : start_head (lines (line_generator_finalize E lg)
                                (current_line lg)) = head (lines lg (current_line lg)))
      by (cbn; now rewrite upd_same).
    assert (Hsl : start_len (lines (line_generator_finalize E lg)
                               (current_line lg)) = len (lines lg (current_line lg)))
      by (cbn; now rewrite upd_same).
    assert (Htx : text (lines (line_generator_finalize E lg) (current_line lg))
                  = text (lines lg (current_line lg)))
      by (cbn; now rewrite upd_same).
    rewrite Hsh, Hsl, Htx in Hr. exact Hr.
Qed.

(** The theorem at work: the history " hello." in slot 0, the growing line
    " World" finalized in slot 1, then two revisions of a short segment.
    Neither call wraps, and slot 0 is as finalize left it. *)
Lemma history_kept_until_wrap_witness :
  let lg := run E_ref cfg_plain tokens_hello_world 5 (fresh_generator E_ref 8) in
  let lgW := run_calls E_ref calls_short 5 (line_generator_finalize E_ref lg) in
  update_calls E_ref calls_short 5 (line_generator_finalize E_ref lg)
  = Some ([], lgW)
  /\ observe lgW = (1, [(-1, " hello."); (0, " World!")])%string
  /\ lines lgW 0 = lines (line_generator_finalize E_ref lg) 0
  /\ active_start_of_lines lgW 0 = -1.
Proof.
  cbn zeta.
  assert (Hu : update_calls E_ref calls_short 5
                 (line_generator_finalize E_ref
                    (run E_ref cfg_plain tokens_hello_world 5
                       (fresh_generator E_ref 8)))
               = Some ([], run_calls E_ref calls_short 5
                             (line_generator_finalize E_ref
                                (run E_ref cfg_plain tokens_hello_world 5
                                   (fresh_generator E_ref 8)))))
    by (vm_compute; reflexivity).
  split; [exact Hu|]. split; [vm_compute; reflexivity|].
  pose proof (history_kept_until_wrap E_ref calls_short 5 _ _ [] Hu) as H.
  cbn zeta in H. destruct H as (_ & H & _).
  apply (H 0).
  - reflexivity.
  - intros [].
  - vm_compute. discriminate.
Defined.

(** C10 as stated fails: after finalize on the growing line 1 (" World"),
    with the history " hello." in slot 0, an update with the single token
    " foo" overflows line 1, wraps into slot 0 and rewrites it. *)
Lemma finalize_history_counterexample :
  observe finalized_history = (1, [(-1, " hello."); (0, " World")])%string
  /\ observe_result
       (line_generator_update E_ref cfg_plain [word " foo" 1] 5 finalized_history)
     = Some (inl (0, [(0, " foo"); (0, " World")]))%string
  /\ option_map fst
       (update_calls E_ref [(cfg_plain, [word " foo" 1])] 5 finalized_history)
     = Some [0].
Proof. vm_compute. repeat split; reflexivity. Qed.

(** ** The frozen prefix through one call *)

Lemma update_trace_frozen (E : externals) (cfg : gsettings)
    (tokens : list AprilToken) :
  forall (fuel : nat) (lg lg' : line_generator) (rs : list retry),
    update_trace E cfg tokens fuel lg = Some (rs, inl lg') ->
    forall k,
      (In k (wrapped_slots E (current_line lg) rs) ->
         start_head (lines lg' k) = 0 /\ start_len (lines lg' k) = 0)
      /\ (~ In k (wrapped_slots E (current_line lg) rs) ->
            reset_line (lines lg' k) = reset_line (lines lg k)).
Proof.
  induction fuel as [|fuel IH]; intros lg lg' rs; cbn [update_trace];
    [discriminate|].
  pose proof (update_pass_effect E cfg tokens lg) as He.
  destruct (update_pass E cfg tokens lg) as [lg1|[|] lg1|f].
  - intros H; injection H as <- <-. destruct He as (_ & _ & Hr).
    intros k. cbn [wrapped_slots]. split; [intros []|].
    intros _. apply (rerendered_reset _ _ _ (Hr k)).
  - destruct (update_trace E cfg tokens fuel lg1) as [[rs' res]|] eqn:Ht;
      [|discriminate].
    intros H; injection H as <- ->.
    cbn zeta in He. destruct He as (_ & _ & _ & _ & Hc & _ & Hr).
    intros k. cbn [wrapped_slots]. rewrite <- Hc.
    destruct (IH lg1 lg' rs' Ht k) as [Hin Hout].
    split; [exact Hin|]. intros Hk.
    rewrite (Hout Hk). apply (rerendered_reset _ _ _ (Hr k)).
  - destruct (update_trace E cfg tokens fuel lg1) as [[rs' res]|] eqn:Ht;
      [|discriminate].
    intros H; injection H as <- ->.
    cbn zeta in He. destruct He as (_ & _ & Hc & _ & Hs0 & Hl0 & Hr).
    intros k. cbn [wrapped_slots]. rewrite <- Hc in *.
    destruct (IH lg1 lg' rs' Ht k) as [Hin Hout].
    split.
    + intros [Hk|Hk]; [|now apply Hin].
      destruct (in_dec Z.eq_dec k (wrapped_slots E (current_line lg1) rs'))
        as [Hi|Hi]; [now apply Hin|].
      specialize (Hout Hi). unfold reset_line in Hout.
      injection Hout as _ Hh Hl. subst k. split; congruence.
    + intros Hk.
      assert (Hne : k <> current_line lg1) by (intros ->; apply Hk; now left).
      rewrite (Hout (fun H => Hk (or_intror H))).
      apply (rerendered_reset _ _ _ (Hr k Hne)).
  - discriminate.
Qed.

(** ** The ring of slots *)

Lemma REL_LINE_IDX_mod (E : externals) (c d : Z) :
  0 < AC_LINE_COUNT E <= 2 ^ 60 ->
  0 <= c < AC_LINE_COUNT E ->
  - AC_LINE_COUNT E <= d <= AC_LINE_COUNT E ->
  REL_LINE_IDX E c d = (c + d) mod AC_LINE_COUNT E.
Proof.
  intros HN Hc Hd. unfold REL_LINE_IDX.
  rewrite size_t_of_small
    by (change (2 ^ 64) with (16 * 2 ^ 60); lia).
  replace (4 * AC_LINE_COUNT E + c + d)
    with (c + d + 4 * AC_LINE_COUNT E) by lia.
  apply Z_mod_plus_full.
Qed.

Lemma in_array_bounds (E : externals) (i : Z) :
  in_array E i = true <-> 0 <= i < AC_LINE_COUNT E.
Proof.
  unfold in_array. rewrite andb_true_iff, Z.leb_le, Z.ltb_lt. tauto.
Qed.

Lemma join_lines_cons (l : bytes) (ls : list bytes) :
  ls <> [] -> join_lines (l :: ls) = l ++ newline :: join_lines ls.
Proof. destruct ls; [congruence|reflexivity]. Qed.

Lemma rev_seq_S (m : nat) : rev (seq 0 (S m)) = m :: rev (seq 0 m).
Proof. rewrite seq_S, rev_app_distr. reflexivity. Qed.

Lemma set_text_loop_joined (E : externals) (M : Z) (lg : line_generator) :
  forall (k : nat) (out : bytes),
    Z.of_nat (List.length out) < M ->
    let f := fun i => text (lines lg (REL_LINE_IDX E (current_line lg)
                                        (- Z.of_nat i))) in
    let final := out ++ join_lines (map f (rev (seq 0 k))) in
    set_text_loop E M lg k out
    = if Z.of_nat (List.length final) <? M then Some final else None.
Proof.
  induction k as [|i IH]; intros out Hout; cbn zeta.
  - cbn [seq rev map join_lines set_text_loop]. rewrite app_nil_r.
    apply Z.ltb_lt in Hout. now rewrite Hout.
  - rewrite rev_seq_S. cbn [map set_text_loop].
    set (f := fun i => text (lines lg (REL_LINE_IDX E (current_line lg)
                                         (- Z.of_nat i)))) in *.
    fold (f i).
    destruct i as [|i'].
    + cbn [seq rev map join_lines set_text_loop Z.of_nat Z.eqb].
      destruct (Z.of_nat (List.length (out ++ f 0%nat)) <? M); reflexivity.
    + replace (Z.of_nat (S i') =? 0) with false
        by (symmetry; apply Z.eqb_neq; lia).
      rewrite join_lines_cons
        by (rewrite rev_seq_S; cbn [map]; discriminate).
      set (rest := join_lines (map f (rev (seq 0 (S i'))))).
      assert (Hlen : Z.of_nat (List.length (out ++ f (S i') ++ newline :: rest))
                     = Z.of_nat (List.length ((out ++ f (S i')) ++ [newline]))
                       + Z.of_nat (List.length rest)).
      { rewrite ?length_app; cbn [List.length]; rewrite ?length_app;
        cbn [List.length]; lia. }
      assert (Hlen1 : Z.of_nat (List.length ((out ++ f (S i')) ++ [newline]))
                      = Z.of_nat (List.length (out ++ f (S i'))) + 1).
      { rewrite ?length_app; cbn [List.length]; lia. }
      destruct (Z.of_nat (List.length (out ++ f (S i'))) <? M) eqn:H1.
      * destruct (Z.of_nat (List.length ((out ++ f (S i')) ++ [newline])) <? M)
          eqn:H2.
        -- apply Z.ltb_lt in H2. rewrite (IH _ H2). cbn zeta. fold f. fold rest.
           replace (((out ++ f (S i')) ++ [newline]) ++ rest)
             with (out ++ f (S i') ++ newline :: rest)
             by (rewrite <- !app_assoc; reflexivity).
           reflexivity.
        -- apply Z.ltb_ge in H2. symmetry.
           replace (Z.of_nat (List.length (out ++ f (S i') ++ newline :: rest)) <? M)
             with false; [reflexivity|].
           symmetry. apply Z.ltb_ge. lia.
      * apply Z.ltb_ge in H1. symmetry.
        replace (Z.of_nat (List.length (out ++ f (S i') ++ newline :: rest)) <? M)
          with false; [reflexivity|].
        symmetry. apply Z.ltb_ge. lia.
Qed.

(** X11. [line_generator_set_text] shows the texts of all [AC_LINE_COUNT]
    slots in ring order, the oldest first and the growing line last, with a
    newline between two lines and none after the last; it does so exactly
    when that text, with its terminator, fits the output buffer, and stores
    past the buffer otherwise. *)
Theorem set_text_joins_ring (E : externals) (output_max : Z)
    (lg : line_generator) :
  0 < output_max ->
  line_generator_set_text E output_max lg
  = if Z.of_nat (List.length (join_lines (ring_texts E lg))) <? output_max
    then Some (join_lines (ring_texts E lg)) else None.
Proof.
  intros HM. unfold line_generator_set_text.
  apply Z.ltb_lt in HM as HM'. rewrite HM'.
  rewrite (set_text_loop_joined E output_max lg _ [] HM). reflexivity.
Qed.

Lemma set_text_joins_ring_witness :
  line_generator_set_text E_ref 8192 two_lines_shown
  = if Z.of_nat (List.length (join_lines (ring_texts E_ref two_lines_shown)))
       <? 8192
    then Some (join_lines (ring_texts E_ref two_lines_shown)) else None.
Proof.
  apply (set_text_joins_ring E_ref 8192 two_lines_shown). reflexivity.
Defined.

Lemma ring_texts_length (E : externals) (lg : line_generator) :
  List.length (ring_texts E lg) = Z.to_nat (AC_LINE_COUNT E).
Proof. unfold ring_texts. now rewrite length_map, length_rev, length_seq. Qed.

Lemma break_scroll_step (E : externals) (lg : line_generator) :
  AC_LINE_COUNT E <= 2 ^ 60 ->
  in_array E (current_line lg) = true ->
  ring_texts E (line_generator_break E lg) = tl (ring_texts E lg) ++ [[]].
Proof.
  intros HN Hc. pose proof (in_array_count_pos E _ Hc) as HN0.
  apply in_array_bounds in Hc.
  set (c := current_line lg) in *.
  set (N := AC_LINE_COUNT E) in *.
  assert (Hcur : current_line (line_generator_break E lg) = REL_LINE_IDX E c 1)
    by reflexivity.
  assert (Hlines : forall k,
            lines (line_generator_break E lg) k
            = if k =? REL_LINE_IDX E c 1
              then {| text := []; start_head := 0; start_len := 0;
                      head := 0; len := 0 |}
              else lines lg k) by reflexivity.
  assert (Hc1 : REL_LINE_IDX E c 1 = (c + 1) mod N)
    by (apply REL_LINE_IDX_mod; fold N; lia).
  pose proof (Z.mod_pos_bound (c + 1) N HN0) as Hc1b.
  unfold ring_texts. rewrite Hcur. fold N c.
  destruct (Z.to_nat N) as [|m] eqn:HNm; [lia|].
  rewrite (rev_seq_S m) at 2. cbn [map tl].
  change (seq 0 (S m)) with (0%nat :: seq 1 m).
  cbn [rev]. rewrite map_app. cbn [map].
  f_equal.
  - rewrite <- seq_shift, <- map_rev, map_map.
    apply map_ext_in. intros i Hi. apply in_rev, in_seq in Hi.
    rewrite Hlines.
    assert (Hidx : REL_LINE_IDX E (REL_LINE_IDX E c 1) (- Z.of_nat (S i))
                   = REL_LINE_IDX E c (- Z.of_nat i)).
    { rewrite Hc1.
      rewrite !REL_LINE_IDX_mod by (fold N; lia).
      fold N. rewrite Zplus_mod_idemp_l. f_equal. lia. }
    rewrite Hidx.
    assert (Hne : REL_LINE_IDX E c (- Z.of_nat i) <> REL_LINE_IDX E c 1).
    { rewrite !REL_LINE_IDX_mod by (fold N; lia). fold N.
      intros Heq.
      assert (Hd : (c + 1 - (c + - Z.of_nat i)) mod N = 0).
      { rewrite Zminus_mod, Heq, Z.sub_diag. apply Z.mod_0_l. lia. }
      replace (c + 1 - (c + - Z.of_nat i)) with (Z.of_nat i + 1) in Hd by lia.
      rewrite Z.mod_small in Hd by lia. lia. }
    apply Z.eqb_neq in Hne. now rewrite Hne.
  - rewrite Hlines.
    assert (Hidx : REL_LINE_IDX E (REL_LINE_IDX E c 1) (- Z.of_nat 0)
                   = REL_LINE_IDX E c 1).
    { rewrite Hc1. rewrite REL_LINE_IDX_mod by (fold N; cbn; lia).
      fold N. cbn [Z.of_nat Z.opp]. rewrite Z.add_0_r.
      apply Z.mod_small. lia. }
    rewrite Hidx, Z.eqb_refl. reflexivity.
Qed.

(** X12. [line_generator_break] scrolls the display by one line: the oldest
    line leaves, the others move up unchanged, and the new growing line is
    empty. *)
Theorem break_scrolls_one_line (E : externals) (lg : line_generator) :
  AC_LINE_COUNT E <= 2 ^ 60 ->
  in_array E (current_line lg) = true ->
  ring_texts E (line_generator_break E lg) = tl (ring_texts E lg) ++ [[]]
  /\ in_array E (current_line (line_generator_break E lg)) = true.
Proof.
  intros HN Hc. split; [now apply break_scroll_step|].
  apply REL_LINE_IDX_in_array. exact (in_array_count_pos E _ Hc).
Qed.

Lemma break_scrolls_one_line_witness :
  ring_texts E_ref (line_generator_break E_ref two_lines_shown)
  = tl (ring_texts E_ref two_lines_shown) ++ [[]]
  /\ in_array E_ref (current_line (line_generator_break E_ref two_lines_shown))
     = true.
Proof.
  apply (break_scrolls_one_line E_ref two_lines_shown);
    vm_compute; congruence.
Defined.

Lemma tl_skipn_app {A : Type} (k : nat) (l r : list A) :
  (k < List.length l)%nat ->
  tl (skipn k l ++ r) = skipn (S k) l ++ r.
Proof.
  revert l. induction k as [|k IH]; intros l Hk.
  - destruct l; [cbn in Hk; lia|reflexivity].
  - destruct l as [|a l]; [cbn in Hk; lia|].
    cbn [skipn]. rewrite IH by (cbn in Hk; lia). reflexivity.
Qed.

Lemma breaks_scroll (E : externals) (lg : line_generator) :
  AC_LINE_COUNT E <= 2 ^ 60 ->
  in_array E (current_line lg) = true ->
  forall k : nat,
    (k <= Z.to_nat (AC_LINE_COUNT E))%nat ->
    ring_texts E (Nat.iter k (line_generator_break E) lg)
    = skipn k (ring_texts E lg) ++ repeat [] k
    /\ in_array E (current_line (Nat.iter k (line_generator_break E) lg)) = true.
Proof.
  intros HN Hc. induction k as [|k IH]; intros Hk.
  - cbn [Nat.iter skipn repeat]. rewrite app_nil_r. auto.
  - destruct (IH ltac:(lia)) as [IHr IHc].
    rewrite Nat.iter_succ.
    pose proof (break_scroll_step E _ HN IHc) as Hr.
    split; [|apply REL_LINE_IDX_in_array; exact (in_array_count_pos E _ Hc)].
    rewrite Hr, IHr, tl_skipn_app by (rewrite ring_texts_length; lia).
    rewrite <- app_assoc. f_equal.
    change ([[]] : list bytes) with (repeat ([] : bytes) 1).
    rewrite <- repeat_app. f_equal. lia.
Qed.

(** X13. After [AC_LINE_COUNT] calls of [line_generator_break] in a row every
    line of the display is empty, whatever was shown before. *)
Theorem breaks_blank_the_display (E : externals) (lg : line_generator) :
  AC_LINE_COUNT E <= 2 ^ 60 ->
  in_array E (current_line lg) = true ->
  ring_texts E (Nat.iter (Z.to_nat (AC_LINE_COUNT E))
                         (line_generator_break E) lg)
  = repeat [] (Z.to_nat (AC_LINE_COUNT E)).
Proof.
  intros HN Hc.
  destruct (breaks_scroll E lg HN Hc (Z.to_nat (AC_LINE_COUNT E)) (le_n _))
    as [Hr _].
  rewrite Hr, skipn_all2 by (rewrite ring_texts_length; lia).
  reflexivity.
Qed.

Lemma breaks_blank_the_display_witness :
  ring_texts E_ref (Nat.iter (Z.to_nat (AC_LINE_COUNT E_ref))
                             (line_generator_break E_ref) two_lines_shown)
  = repeat [] (Z.to_nat (AC_LINE_COUNT E_ref)).
Proof.
  apply (breaks_blank_the_display E_ref two_lines_shown);
    vm_compute; congruence.
Defined.

(** ** A stream that fits the growing line *)

Lemma update_lines_app (E : externals) (cfg : gsettings)
    (tokens : list AprilToken) (caps : list bool) (l1 l2 : list Z)
    (lg : line_generator) :
  update_lines E cfg tokens caps (l1 ++ l2) lg
  = match update_lines E cfg tokens caps l1 lg with
    | Done lg' => update_lines E cfg tokens caps l2 lg'
    | other => other
    end.
Proof.
  revert lg. induction l1 as [|i l1 IH]; intros lg; [reflexivity|].
  cbn [app update_lines].
  destruct (update_line E cfg tokens caps i lg); auto.
Qed.

Lemma update_lines_inactive (E : externals) (cfg : gsettings)
    (tokens : list AprilToken) (caps : list bool) (idxs : list Z)
    (lg : line_generator) :
  (forall i, In i idxs -> active_start_of_lines lg i = -1) ->
  update_lines E cfg tokens caps idxs lg = Done lg.
Proof.
  induction idxs as [|i rest IH]; intros H; [reflexivity|].
  cbn [update_lines]. unfold update_line.
  rewrite (H i (or_introl eq_refl)). cbn [Z.eqb Pos.eqb].
  apply IH. intros k Hk. apply H. now right.
Qed.

Lemma slots_NoDup (E : externals) : NoDup (slots E).
Proof.
  unfold slots. generalize (seq_NoDup (Z.to_nat (AC_LINE_COUNT E)) 0).
  generalize (seq 0 (Z.to_nat (AC_LINE_COUNT E))).
  induction 1 as [|a l Hnin Hnd IH]; cbn [map]; constructor; [|exact IH].
  rewrite in_map_iff. intros (b & Hb & Hin).
  apply Nat2Z.inj in Hb. subst b. contradiction.
Qed.

Lemma slots_split (E : externals) (c : Z) :
  in_array E c = true ->
  exists l1 l2, slots E = l1 ++ c :: l2 /\ ~ In c l1 /\ ~ In c l2.
Proof.
  intros Hc. apply in_slots in Hc. destruct (in_split _ _ Hc) as (l1 & l2 & Hs).
  exists l1, l2. split; [exact Hs|].
  pose proof (slots_NoDup E) as Hnd. rewrite Hs in Hnd.
  apply NoDup_remove_2 in Hnd. split; intros Hin; apply Hnd, in_or_app; auto.
Qed.

Lemma select_token_unfiltered (E : externals) (cfg : gsettings)
    (tokens : list AprilToken) (caps : list bool) (j : Z) (tk : AprilToken) :
  filter_active (filter_mode_of cfg) = false ->
  select_token E cfg tokens caps j tk = (plain_token E cfg caps j tk, 1).
Proof. intros H. unfold select_token, plain_token. now rewrite H. Qed.

Lemma skipn_cons_nth {A : Type} (n : nat) (l : list A) (a : A) (rest : list A) :
  skipn n l = a :: rest ->
  nth_error l n = Some a /\ skipn (S n) l = rest /\ (n < List.length l)%nat.
Proof.
  revert l. induction n as [|n IH]; intros l H.
  - destruct l; [discriminate|]. cbn in H. injection H as -> ->.
    cbn. repeat split. lia.
  - destruct l as [|b l]; [discriminate|]. cbn [skipn] in H.
    destruct (IH l H) as (H1 & H2 & H3). cbn. repeat split; auto. lia.
Qed.

Section Fitting.

Variable E : externals.
Variable cfg : gsettings.
Variable tokens : list AprilToken.
Variable caps : list bool.

Hypothesis Hnofilter : filter_active (filter_mode_of cfg) = false.

Lemma print_line_fits (start mw : Z) :
  forall (rest : list AprilToken) (j : Z) (curr : line) (fuel : nat),
    0 <= j ->
    skipn (Z.to_nat j) tokens = rest ->
    (List.length rest <= fuel)%nat ->
    Z.of_nat (List.length (text curr)) = head curr ->
    Forall (fun tk => fade_alpha (logprob tk) <> None) rest ->
    (forall k, (1 <= k <= List.length rest)%nat ->
       len curr + sumZ (firstn k (widths_from E cfg caps j rest)) < mw) ->
    head curr + Z.of_nat (List.length (List.concat (pieces_from E cfg caps j rest)))
    <= AC_LINE_MAX E - 256 ->
    print_line E cfg tokens caps true start mw (Z.of_nat (List.length tokens))
      fuel j curr
    = LDone {| text := text curr ++ List.concat (pieces_from E cfg caps j rest);
               start_head := start_head curr;
               start_len := start_len curr;
               head := head curr
                       + Z.of_nat (List.length
                                     (List.concat (pieces_from E cfg caps j rest)));
               len := len curr + sumZ (widths_from E cfg caps j rest) |}.
Proof.
  induction rest as [|tk rest IH]; intros j curr fuel Hj Hskip Hfuel Htext Hal Hw Hh.
  - cbn [pieces_from widths_from List.concat sumZ fold_right List.length Z.of_nat].
    assert (Hcurr : LDone curr
                    = LDone {| text := text curr ++ []; start_head := start_head curr;
                               start_len := start_len curr; head := head curr + 0;
                               len := len curr + 0 |}).
    { destruct curr; cbn. now rewrite app_nil_r, !Z.add_0_r. }
    rewrite <- Hcurr.
    assert (Hge : (List.length tokens <= Z.to_nat j)%nat).
    { destruct (Nat.le_gt_cases (List.length tokens) (Z.to_nat j)) as [|Hlt];
        [assumption|].
      pose proof (length_skipn (Z.to_nat j) tokens) as Hl.
      rewrite Hskip in Hl. cbn in Hl. lia. }
    destruct fuel as [|fuel]; [reflexivity|]. cbn [print_line].
    replace (j <? Z.of_nat (List.length tokens)) with false
      by (symmetry; apply Z.ltb_ge; lia).
    reflexivity.
  - destruct (skipn_cons_nth _ _ _ _ Hskip) as (Hnth & Hskip' & Hlt).
    destruct fuel as [|fuel]; [cbn in Hfuel; lia|].
    cbn [print_line].
    replace (j <? Z.of_nat (List.length tokens)) with true
      by (symmetry; apply Z.ltb_lt; lia).
    rewrite Hnth, (select_token_unfiltered E cfg tokens caps j tk Hnofilter).
    cbn [pieces_from widths_from List.concat sumZ fold_right] in *.
    fold (sumZ (widths_from E cfg caps (j + 1) rest)) in *.
    rewrite length_app in Hh.
    replace (head curr >? AC_LINE_MAX E - 256) with false
      by (symmetry; rewrite Z.gtb_ltb; apply Z.ltb_ge; lia).
    fold (token_width E cfg caps j tk).
    pose proof (Hw 1%nat ltac:(cbn [List.length]; lia)) as Hw1.
    cbn [firstn fold_right sumZ] in Hw1.
    cbn [set_len len andb].
    replace (len curr + token_width E cfg caps j tk >=? mw) with false
      by (symmetry; rewrite Z.geb_leb; apply Z.leb_gt; lia).
    apply Forall_cons_iff in Hal as [Htk Hal'].
    unfold token_piece in Hh |- *.
    destruct (fade_alpha (logprob tk)) as [alpha|] eqn:Ha; [|congruence].
    set (s := format_token (fade_text cfg) alpha (plain_token E cfg caps j tk)) in *.
    set (curr1 := set_len (len curr + token_width E cfg caps j tk) curr).
    assert (Hc2 : append_line s curr1
                  = {| text := text curr ++ s; start_head := start_head curr;
                       start_len := start_len curr;
                       head := head curr + Z.of_nat (List.length s);
                       len := len curr + token_width E cfg caps j tk |}).
    { unfold append_line, curr1, set_len, write_at; cbn.
      rewrite <- Htext, Z.leb_refl, Nat2Z.id, firstn_all. reflexivity. }
    rewrite Hc2. cbn [head].
    replace (head curr + Z.of_nat (List.length s) <? AC_LINE_MAX E) with true
      by (symmetry; apply Z.ltb_lt; lia).
    rewrite (IH (j + 1)); cbn [text head len start_head start_len].
    + f_equal. f_equal.
      * now rewrite <- app_assoc.
      * rewrite length_app. lia.
      * lia.
    + lia.
    + replace (Z.to_nat (j + 1)) with (S (Z.to_nat j)) by lia. exact Hskip'.
    + cbn [List.length] in Hfuel. lia.
    + rewrite length_app. lia.
    + exact Hal'.
    + intros k Hk.
      pose proof (Hw (S k) ltac:(cbn [List.length]; lia)) as Hk'.
      cbn [firstn fold_right sumZ] in Hk'.
      fold (sumZ (firstn k (widths_from E cfg caps (j + 1) rest))) in Hk'.
      lia.
    + lia.
Qed.

End Fitting.

Lemma reset_line_inside (l : line) :
  0 <= start_head l <= Z.of_nat (List.length (text l)) ->
  reset_line l
  = {| text := firstn (Z.to_nat (start_head l)) (text l);
       start_head := start_head l; start_len := start_len l;
       head := start_head l; len := start_len l |}.
Proof.
  intros H. unfold reset_line, write_at.
  replace (start_head l <=? Z.of_nat (List.length (text l))) with true
    by (symmetry; apply Z.leb_le; lia).
  now rewrite app_nil_r.
Qed.

Section FittingCall.

Variable E : externals.
Variable cfg : gsettings.
Variable tokens : list AprilToken.
Variable caps : list bool.

Hypothesis Hnofilter : filter_active (filter_mode_of cfg) = false.

Lemma update_line_fits (lg : line_generator) :
  let c := current_line lg in
  let l0 := lines lg c in
  active_start_of_lines lg c = 0 ->
  tokens <> [] ->
  Forall (fun tk => fade_alpha (logprob tk) <> None) tokens ->
  0 <= start_head l0 <= Z.of_nat (List.length (text l0)) ->
  (forall k, (1 <= k <= List.length tokens)%nat ->
     start_len l0 + sumZ (firstn k (widths_from E cfg caps 0 tokens))
     < max_text_width lg) ->
  start_head l0
  + Z.of_nat (List.length (List.concat (pieces_from E cfg caps 0 tokens)))
  <= AC_LINE_MAX E - 256 ->
  exists lg',
    update_line E cfg tokens caps c lg = Done lg'
    /\ lines lg' c
       = {| text := firstn (Z.to_nat (start_head l0)) (text l0)
                    ++ List.concat (pieces_from E cfg caps 0 tokens);
            start_head := start_head l0;
            start_len := start_len l0;
            head := start_head l0
                    + Z.of_nat (List.length
                                  (List.concat
                                     (pieces_from E cfg caps 0 tokens)));
            len := start_len l0 + sumZ (widths_from E cfg caps 0 tokens) |}
    /\ (forall k, k <> c -> lines lg' k = lines lg k)
    /\ current_line lg' = c
    /\ active_start_of_lines lg' = active_start_of_lines lg
    /\ tcap lg' = tcap lg.
Proof.
  cbn zeta. intros Hact Hne Hal Hsh Hw Hh.
  set (c := current_line lg) in *. set (l0 := lines lg c) in *.
  assert (Hn : 0 < Z.of_nat (List.length tokens))
    by (destruct tokens; [congruence|cbn [List.length]; lia]).
  unfold update_line. fold c. rewrite Hact. cbn [Z.eqb].
  rewrite size_t_of_small by (change (2 ^ 64) with 18446744073709551616; lia).
  fold l0.
  replace ((start_head l0 <? 0) || (start_head l0 >=? AC_LINE_MAX E)) with false.
  2:{ symmetry. apply orb_false_intro; [apply Z.ltb_ge; lia|].
      rewrite Z.geb_leb. apply Z.leb_gt. lia. }
  replace (Z.of_nat (List.length tokens) =? 0) with false
    by (symmetry; apply Z.eqb_neq; lia).
  replace (0 >=? Z.of_nat (List.length tokens)) with false
    by (symmetry; rewrite Z.geb_leb; apply Z.leb_gt; lia).
  cbn [current_line set_line active_start_of_lines max_text_width].
  fold c. rewrite Z.eqb_refl, orb_true_r.
  rewrite (reset_line_inside l0 Hsh).
  rewrite (print_line_fits E cfg tokens caps Hnofilter 0 (max_text_width lg)
             tokens 0); cbn [text head len start_head start_len];
    try assumption; try reflexivity; try lia.
  - eexists. split; [reflexivity|]. cbn.
    split; [now rewrite upd_same|].
    split; [|auto].
    intros k Hk. now rewrite !upd_other.
  - rewrite length_firstn. lia.
Qed.

End FittingCall.

Lemma update_pass_fits (E : externals) (cfg : gsettings)
    (tokens : list AprilToken) (lg : line_generator) :
  let c := current_line lg in
  let l0 := lines lg c in
  let caps := snd (scan_of tokens lg) in
  only_growing_line_active E lg ->
  tokens <> [] ->
  Z.of_nat (List.length tokens) <= 1024 ->
  filter_active (filter_mode_of cfg) = false ->
  Forall (fun tk => fade_alpha (logprob tk) <> None) tokens ->
  0 <= start_head l0 <= Z.of_nat (List.length (text l0)) ->
  (forall k, (1 <= k <= List.length tokens)%nat ->
     start_len l0 + sumZ (firstn k (widths_from E cfg caps 0 tokens))
     < max_text_width lg) ->
  start_head l0
  + Z.of_nat (List.length (List.concat (pieces_from E cfg caps 0 tokens)))
  <= AC_LINE_MAX E - 256 ->
  exists lg',
    update_pass E cfg tokens lg = Done lg'
    /\ lines lg' c
       = {| text := firstn (Z.to_nat (start_head l0)) (text l0)
                    ++ List.concat (pieces_from E cfg caps 0 tokens);
            start_head := start_head l0;
            start_len := start_len l0;
            head := start_head l0
                    + Z.of_nat (List.length
                                  (List.concat
                                     (pieces_from E cfg caps 0 tokens)));
            len := start_len l0 + sumZ (widths_from E cfg caps 0 tokens) |}
    /\ (forall k, k <> c -> lines lg' k = lines lg k)
    /\ current_line lg' = c
    /\ active_start_of_lines lg' = active_start_of_lines lg.
Proof.
  cbn zeta. intros (Hc & Hact & Hothers) Hne Hn Hnf Hal Hsh Hw Hh.
  set (c := current_line lg) in *.
  set (lg0 := set_tcap (fst (scan_of tokens lg)) lg).
  destruct (update_line_fits E cfg tokens (snd (scan_of tokens lg)) Hnf lg0
              Hact Hne Hal Hsh Hw Hh)
    as (lg' & Hu & Hl & Hk & Hcur & Ha & _).
  exists lg'. split; [|auto].
  rewrite update_pass_unfold.
  replace (Z.of_nat (List.length tokens) >? 1024) with false
    by (symmetry; rewrite Z.gtb_ltb; apply Z.ltb_ge; lia).
  fold lg0.
  destruct (slots_split E c Hc) as (l1 & l2 & Hs & Hn1 & Hn2).
  assert (Hin : forall i, In i l1 \/ In i l2 ->
            in_array E i = true /\ i <> c).
  { intros i Hi. split.
    - apply in_slots. rewrite Hs. apply in_or_app.
      destruct Hi; [left|right; right]; assumption.
    - intros ->. destruct Hi; contradiction. }
  rewrite Hs, update_lines_app.
  rewrite update_lines_inactive.
  2:{ intros i Hi. destruct (Hin i (or_introl Hi)). now apply Hothers. }
  cbn [update_lines]. change (current_line lg0) with c in Hu. rewrite Hu.
  rewrite update_lines_inactive; [reflexivity|].
  intros i Hi. destruct (Hin i (or_intror Hi)). rewrite Ha. now apply Hothers.
Qed.

(** X1. A stream that fits. From a state in which the growing line is the
    only active slot and starts at token 0 (as after init, finalize or
    break), with the filter off, at most 1024 tokens whose confidence casts
    are defined, a running width that stays below [max_text_width] and a
    text that ends at least 256 bytes before the end of the buffer: the call
    returns in its first pass, with no tail call, and the growing line is
    its frozen prefix followed by the tokens' pieces in order; its cursor
    and width are the sums; no other line, no start marker and not the
    growing line's index change. *)
Theorem update_renders_fitting_stream (E : externals) (cfg : gsettings)
    (tokens : list AprilToken) (lg : line_generator) (fuel : nat) :
  let c := current_line lg in
  let l0 := lines lg c in
  let caps := snd (scan_of tokens lg) in
  only_growing_line_active E lg ->
  tokens <> [] ->
  Z.of_nat (List.length tokens) <= 1024 ->
  filter_active (filter_mode_of cfg) = false ->
  Forall (fun tk => fade_alpha (logprob tk) <> None) tokens ->
  0 <= start_head l0 <= Z.of_nat (List.length (text l0)) ->
  (forall k, (1 <= k <= List.length tokens)%nat ->
     start_len l0 + sumZ (firstn k (widths_from E cfg caps 0 tokens))
     < max_text_width lg) ->
  start_head l0
  + Z.of_nat (List.length (List.concat (pieces_from E cfg caps 0 tokens)))
  <= AC_LINE_MAX E - 256 ->
  exists lg',
    update_trace E cfg tokens (S fuel) lg = Some ([], inl lg')
    /\ lines lg' c
       = {| text := firstn (Z.to_nat (start_head l0)) (text l0)
                    ++ List.concat (pieces_from E cfg caps 0 tokens);
            start_head := start_head l0;
            start_len := start_len l0;
            head := start_head l0
                    + Z.of_nat (List.length
                                  (List.concat
                                     (pieces_from E cfg caps 0 tokens)));
            len := start_len l0 + sumZ (widths_from E cfg caps 0 tokens) |}
    /\ (forall k, k <> c -> lines lg' k = lines lg k)
    /\ current_line lg' = c
    /\ active_start_of_lines lg' = active_start_of_lines lg.
Proof.
  cbn zeta. intros Hone Hne Hn Hnf Hal Hsh Hw Hh.
  destruct (update_pass_fits E cfg tokens lg Hone Hne Hn Hnf Hal Hsh Hw Hh)
    as (lg' & Hp & Hrest).
  exists lg'. split; [|exact Hrest].
  cbn [update_trace]. now rewrite Hp.
Qed.

Lemma update_renders_fitting_stream_witness :
  exists lg',
    update_trace E_ref cfg_plain tokens_hello_world 1 wide_generator
    = Some ([], inl lg')
    /\ string_of_list_ascii (text (lines lg' 0)) = " hello. World"%string.
Proof.
  destruct (update_renders_fitting_stream E_ref cfg_plain tokens_hello_world
              wide_generator 0) as (lg' & Ht & Hl & _).
  - repeat split; try reflexivity.
    intros i Hi Hne. apply in_array_bounds in Hi.
    change (AC_LINE_COUNT E_ref) with 2 in Hi.
    change (current_line wide_generator) with 0 in Hne.
    assert (Hi1 : i = 1) by lia. subst i. reflexivity.
  - discriminate.
  - vm_compute. congruence.
  - reflexivity.
  - repeat constructor; vm_compute; discriminate.
  - vm_compute. split; congruence.
  - intros k Hk. cbn [tokens_hello_world List.length] in Hk.
    destruct k as [|[|[|[|[|[|k]]]]]]; try lia; vm_compute; reflexivity.
  - vm_compute. congruence.
  - exists lg'. split; [exact Ht|].
    change (current_line wide_generator) with 0 in Hl.
    rewrite Hl. vm_compute. reflexivity.
Defined.

(** ** What the entry points leave *)

Lemma init_only_growing_line (E : externals) (lg : line_generator) :
  0 < AC_LINE_COUNT E -> only_growing_line_active E (line_generator_init E lg).
Proof.
  intros HN. unfold only_growing_line_active.
  cbn [current_line active_start_of_lines line_generator_init].
  split; [apply in_array_bounds; lia|].
  split; [apply upd_same|].
  intros i Hi Hne. rewrite upd_other by exact Hne. now rewrite Hi.
Qed.

Lemma finalize_only_growing_line (E : externals) (lg : line_generator) :
  in_array E (current_line lg) = true ->
  only_growing_line_active E (line_generator_finalize E lg).
Proof.
  intros Hc. unfold only_growing_line_active.
  cbn [current_line active_start_of_lines line_generator_finalize
       deactivate_all set_line set_tcap set_active].
  split; [exact Hc|]. split; [apply upd_same|].
  intros i Hi Hne. rewrite upd_other by exact Hne. now rewrite Hi.
Qed.

Lemma break_only_growing_line (E : externals) (lg : line_generator) :
  0 < AC_LINE_COUNT E ->
  only_growing_line_active E (line_generator_break E lg).
Proof.
  intros HN. unfold only_growing_line_active.
  cbn [current_line active_start_of_lines line_generator_break
       deactivate_all set_line set_current_line set_active].
  split; [now apply REL_LINE_IDX_in_array|]. split; [apply upd_same|].
  intros i Hi Hne. rewrite upd_other by exact Hne. now rewrite Hi.
Qed.

(** X9. [line_generator_init], [line_generator_finalize] and
    [line_generator_break] all leave the growing line as the only active
    slot of the array, starting at token 0; init and break give it an empty
    checkpoint, finalize the checkpoint (cursor and width) the line has
    reached, without touching its text. *)
Theorem entry_points_leave_one_active_line (E : externals)
    (lg : line_generator) :
  in_array E (current_line lg) = true ->
  let c := current_line lg in
  let i := line_generator_init E lg in
  let f := line_generator_finalize E lg in
  let b := line_generator_break E lg in
  only_growing_line_active E i
  /\ start_head (lines i (current_line i)) = 0
  /\ start_len (lines i (current_line i)) = 0
  /\ only_growing_line_active E f
  /\ lines f c = set_start (head (lines lg c)) (len (lines lg c)) (lines lg c)
  /\ only_growing_line_active E b
  /\ lines b (current_line b) = blank_line.
Proof.
  intros Hc. pose proof (in_array_count_pos E _ Hc) as HN. cbn zeta.
  split; [now apply init_only_growing_line|].
  assert (H0 : in_array E 0 = true) by (apply in_array_bounds; lia).
  split; [cbn [lines line_generator_init current_line]; now rewrite H0|].
  split; [cbn [lines line_generator_init current_line]; now rewrite H0|].
  split; [now apply finalize_only_growing_line|].
  split; [cbn; now rewrite upd_same|].
  split; [now apply break_only_growing_line|].
  cbn. now rewrite upd_same.
Qed.

Lemma entry_points_leave_one_active_line_witness :
  only_growing_line_active E_ref (line_generator_finalize E_ref two_lines_shown).
Proof.
  destruct (entry_points_leave_one_active_line E_ref two_lines_shown)
    as (_ & _ & _ & H & _).
  - reflexivity.
  - exact H.
Defined.

(** X2. After [line_generator_finalize] the next utterance is appended to
    what the growing line shows: from a line whose cursor sits at the end of
    its text, finalize and then a call with a stream that fits (filter off,
    at most 1024 tokens, defined confidence casts, running width below
    [max_text_width], 256 bytes left in the buffer) leave the old text,
    unchanged, followed by the pieces of the new tokens. *)
Theorem finalize_then_update_appends (E : externals) (cfg : gsettings)
    (tokens : list AprilToken) (lg : line_generator) (fuel : nat) :
  let c := current_line lg in
  let l := lines lg c in
  let lgF := line_generator_finalize E lg in
  let caps := snd (scan_of tokens lgF) in
  in_array E c = true ->
  0 <= head l -> Z.of_nat (List.length (text l)) = head l ->
  tokens <> [] ->
  Z.of_nat (List.length tokens) <= 1024 ->
  filter_active (filter_mode_of cfg) = false ->
  Forall (fun tk => fade_alpha (logprob tk) <> None) tokens ->
  (forall k, (1 <= k <= List.length tokens)%nat ->
     len l + sumZ (firstn k (widths_from E cfg caps 0 tokens))
     < max_text_width lg) ->
  head l
  + Z.of_nat (List.length (List.concat (pieces_from E cfg caps 0 tokens)))
  <= AC_LINE_MAX E - 256 ->
  exists lg',
    update_trace E cfg tokens (S fuel) lgF = Some ([], inl lg')
    /\ current_line lg' = c
    /\ text (lines lg' c)
       = text l ++ List.concat (pieces_from E cfg caps 0 tokens)
    /\ start_head (lines lg' c) = head l
    /\ forall k, k <> c -> lines lg' k = lines lg k.
Proof.
  cbn zeta. intros Hc Hh Ht Hne Hn Hnf Hal Hw Hb.
  set (lgF := line_generator_finalize E lg).
  assert (HlF : lines lgF (current_line lgF)
                = set_start (head (lines lg (current_line lg)))
                    (len (lines lg (current_line lg)))
                    (lines lg (current_line lg)))
    by (cbn; now rewrite upd_same).
  destruct (update_pass_fits E cfg tokens lgF) as (lg' & Hu & Hl & Hk & Hcur & _);
    try assumption.
  - now apply finalize_only_growing_line.
  - rewrite HlF. cbn. lia.
  - rewrite HlF. exact Hw.
  - rewrite HlF. exact Hb.
  - exists lg'. change (current_line lgF) with (current_line lg) in *.
    split; [cbn [update_trace]; now rewrite Hu|]. split; [exact Hcur|].
    rewrite Hl, HlF. cbn [text start_head set_start].
    split; [|split; [reflexivity|]].
    + rewrite <- Ht, Nat2Z.id, firstn_all. reflexivity.
    + intros k Hne'. rewrite (Hk k Hne'). cbn. now rewrite upd_other.
Qed.

Lemma finalize_then_update_appends_witness :
  exists lg',
    update_trace E_ref cfg_plain tokens_there 1
      (line_generator_finalize E_ref
         (run E_ref cfg_plain tokens_hi_period 3 wide_generator))
    = Some ([], inl lg')
    /\ string_of_list_ascii (text (lines lg' 0)) = " hi. There"%string.
Proof.
  destruct (finalize_then_update_appends E_ref cfg_plain tokens_there
              (run E_ref cfg_plain tokens_hi_period 3 wide_generator) 0)
    as (lg' & Hu & _ & Ht & _).
  - reflexivity.
  - vm_compute. congruence.
  - reflexivity.
  - discriminate.
  - vm_compute. congruence.
  - reflexivity.
  - repeat constructor; vm_compute; discriminate.
  - intros k Hk. cbn [tokens_there List.length] in Hk.
    destruct k as [|[|k]]; try lia; vm_compute; reflexivity.
  - vm_compute. congruence.
  - exists lg'. split; [exact Hu|].
    change (current_line (run E_ref cfg_plain tokens_hi_period 3 wide_generator))
      with 0 in Ht.
    rewrite Ht. vm_compute. reflexivity.
Defined.

(** ** A call without tokens *)

Lemma update_lines_no_tokens (E : externals) (cfg : gsettings)
    (caps : list bool) (idxs : list Z) :
  forall lg,
    (forall i, In i idxs -> active_start_of_lines lg i <> -1 ->
       0 <= start_head (lines lg i) < AC_LINE_MAX E) ->
    exists lg',
      update_lines E cfg [] caps idxs lg = Done lg'
      /\ current_line lg' = current_line lg
      /\ active_start_of_lines lg' = active_start_of_lines lg
      /\ tcap lg' = tcap lg
      /\ (forall i, In i idxs -> active_start_of_lines lg i <> -1 ->
            lines lg' i = reset_line (lines lg i))
      /\ (forall i, ~ In i idxs \/ active_start_of_lines lg i = -1 ->
            lines lg' i = lines lg i).
Proof.
  induction idxs as [|i rest IH]; intros lg Hcp.
  - exists lg. cbn. repeat split; auto. intros i [].
  - cbn [update_lines]. unfold update_line.
    destruct (active_start_of_lines lg i =? -1) eqn:Hact.
    + apply Z.eqb_eq in Hact.
      destruct (IH lg) as (lg' & Hu & Hc & Ha & Ht & Hr & Hs).
      { intros k Hk. apply Hcp. now right. }
      exists lg'. repeat split; auto.
      * intros k [<-|Hk] Hk'; [contradiction|auto].
      * intros k [Hk|Hk]; apply Hs; [left|right; assumption].
        intros Hin. apply Hk. now right.
    + apply Z.eqb_neq in Hact.
      pose proof (Hcp i (or_introl eq_refl) Hact) as Hb.
      replace ((start_head (lines lg i) <? 0)
               || (start_head (lines lg i) >=? AC_LINE_MAX E)) with false.
      2:{ symmetry. apply orb_false_intro; [apply Z.ltb_ge; lia|].
          rewrite Z.geb_leb. apply Z.leb_gt. lia. }
      cbn [List.length Z.of_nat Z.eqb].
      set (lg1 := set_line i (reset_line (lines lg i)) lg).
      destruct (IH lg1) as (lg' & Hu & Hc & Ha & Ht & Hr & Hs).
      { intros k Hk Hk'. cbn in Hk' |- *.
        destruct (Z.eq_dec k i) as [->|Hne].
        - rewrite upd_same. cbn. exact Hb.
        - rewrite upd_other by exact Hne. apply Hcp; [now right|exact Hk']. }
      exists lg'. split; [exact Hu|]. repeat split; auto.
      * intros k Hk Hk'.
        destruct (in_dec Z.eq_dec k rest) as [Hin|Hnin].
        -- rewrite (Hr k Hin Hk'). cbn.
           destruct (Z.eq_dec k i) as [->|Hne].
           ++ rewrite upd_same. apply reset_line_idem. lia.
           ++ now rewrite upd_other.
        -- destruct Hk as [<-|Hk]; [|contradiction].
           rewrite (Hs i (or_introl Hnin)). cbn. apply upd_same.
      * intros k Hk.
        assert (Hne : k <> i).
        { intros ->. destruct Hk as [Hk|Hk]; [apply Hk; now left|contradiction]. }
        rewrite Hs.
        -- cbn. now rewrite upd_other.
        -- destruct Hk as [Hk|Hk]; [left|right; exact Hk].
           intros Hin. apply Hk. now right.
Qed.

(** X6. A call with no tokens returns in its first pass, with no tail call:
    it rewinds the capitalizer and cuts every active line of the array back
    to its checkpoint (the three stores [text[start_head] = 0],
    [head = start_head], [len = start_len]); the inactive lines, the start
    markers and the growing line's index stay as they are. *)
Theorem update_without_tokens (E : externals) (cfg : gsettings)
    (lg : line_generator) (fuel : nat) :
  checkpoints_in_buffer E lg ->
  exists lg',
    update_trace E cfg [] (S fuel) lg = Some ([], inl lg')
    /\ current_line lg' = current_line lg
    /\ active_start_of_lines lg' = active_start_of_lines lg
    /\ tcap lg' = token_capitalizer_rewind (tcap lg)
    /\ (forall i, in_array E i = true -> active_start_of_lines lg i <> -1 ->
          lines lg' i = reset_line (lines lg i))
    /\ (forall i, in_array E i = false \/ active_start_of_lines lg i = -1 ->
          lines lg' i = lines lg i).
Proof.
  intros Hcp.
  destruct (update_lines_no_tokens E cfg [] (slots E)
              (set_tcap (token_capitalizer_rewind (tcap lg)) lg))
    as (lg' & Hu & Hc & Ha & Ht & Hr & Hs).
  { intros i Hi Hact. apply Hcp; [now apply in_slots|exact Hact]. }
  exists lg'. split.
  { cbn [update_trace]. unfold update_pass.
    cbn [List.length Z.of_nat Z.gtb Z.compare capitalize_scan].
    now rewrite Hu. }
  repeat split; auto.
  - intros i Hi Hact. apply Hr; [now apply in_slots|exact Hact].
  - intros i Hi. apply Hs. destruct Hi as [Hi|Hi]; [left|right; exact Hi].
    intros Hin. apply in_slots in Hin. congruence.
Qed.

Lemma update_without_tokens_witness :
  exists lg',
    update_trace E_ref cfg_plain [] 1 two_lines_shown = Some ([], inl lg')
    /\ current_line lg' = current_line two_lines_shown.
Proof.
  destruct (update_without_tokens E_ref cfg_plain two_lines_shown 0)
    as (lg' & Ht & Hc & _).
  - intros i Hi _. apply in_array_bounds in Hi.
    change (AC_LINE_COUNT E_ref) with 2 in Hi.
    assert (Hi' : i = 0 \/ i = 1) by lia.
    destruct Hi' as [-> | ->]; vm_compute; split; congruence.
  - exists lg'. split; assumption.
Defined.

(** ** The growing line's index *)

Lemma update_pass_current_line (E : externals) (cfg : gsettings)
    (tokens : list AprilToken) (lg : line_generator) :
  in_array E (current_line lg) = true ->
  match update_pass E cfg tokens lg with
  | Done lg' | Retry _ lg' => in_array E (current_line lg') = true
  | Fault _ => True
  end.
Proof.
  intros Hc. pose proof (in_array_count_pos E _ Hc) as HN.
  destruct (update_pass E cfg tokens lg) as [lg'|[|] lg'|f] eqn:Hp; [| | |exact I].
  - rewrite update_pass_unfold in Hp.
    destruct (Z.of_nat (List.length tokens) >? 1024); [discriminate|].
    pose proof (update_lines_frame E cfg tokens (snd (scan_of tokens lg))
                  (slots E) (set_tcap (fst (scan_of tokens lg)) lg)) as Hf.
    rewrite Hp in Hf. destruct Hf as (Hc' & _). cbn in Hc'. now rewrite Hc'.
  - apply update_pass_Backtrack in Hp. cbn zeta in Hp.
    destruct Hp as (_ & _ & _ & _ & _ & -> & _).
    now apply REL_LINE_IDX_in_array.
  - apply update_pass_Wrap in Hp. cbn zeta in Hp.
    destruct Hp as (_ & _ & _ & _ & j & _ & -> & _).
    now apply REL_LINE_IDX_in_array.
Qed.

Lemma update_trace_current_line (E : externals) (cfg : gsettings)
    (tokens : list AprilToken) :
  forall (fuel : nat) (lg lg' : line_generator) (rs : list retry),
    in_array E (current_line lg) = true ->
    update_trace E cfg tokens fuel lg = Some (rs, inl lg') ->
    in_array E (current_line lg') = true.
Proof.
  induction fuel as [|fuel IH]; intros lg lg' rs Hc; cbn [update_trace];
    [discriminate|].
  pose proof (update_pass_current_line E cfg tokens lg Hc) as Hp.
  destruct (update_pass E cfg tokens lg) as [lg1|r lg1|f].
  - intros H; injection H as _ <-. exact Hp.
  - destruct (update_trace E cfg tokens fuel lg1) as [[rs' res]|] eqn:Ht;
      [|discriminate].
    intros H; injection H as _ ->. eapply IH; eauto.
  - discriminate.
Qed.

(** X8. The growing line's index never leaves the array of lines: it is a
    slot of the array after [line_generator_init], and
    [line_generator_finalize], [line_generator_break],
    [line_generator_set_language] and every call of [line_generator_update]
    that returns (whatever tail calls it took) keep it one. *)
Theorem current_line_stays_in_array (E : externals) (cfg : gsettings)
    (tokens : list AprilToken) (language : string) (fuel : nat)
    (lg : line_generator) :
  in_array E (current_line lg) = true ->
  in_array E (current_line (line_generator_init E lg)) = true
  /\ in_array E (current_line (line_generator_finalize E lg)) = true
  /\ in_array E (current_line (line_generator_break E lg)) = true
  /\ in_array E (current_line (line_generator_set_language language lg)) = true
  /\ forall lg',
       line_generator_update E cfg tokens fuel lg = Some (inl lg') ->
       in_array E (current_line lg') = true.
Proof.
  intros Hc. pose proof (in_array_count_pos E _ Hc) as HN.
  split; [apply in_array_bounds; cbn; lia|].
  split; [exact Hc|].
  split; [now apply REL_LINE_IDX_in_array|].
  split; [exact Hc|].
  intros lg'. unfold line_generator_update.
  destruct (update_trace E cfg tokens fuel lg) as [[rs res]|] eqn:Ht;
    [|discriminate].
  cbn. intros H; injection H as ->.
  eapply update_trace_current_line; eauto.
Qed.

Lemma current_line_stays_in_array_witness :
  in_array E_ref (current_line (line_generator_break E_ref two_lines_shown))
  = true.
Proof.
  destruct (current_line_stays_in_array E_ref cfg_plain [] EmptyString 0
              two_lines_shown) as (_ & _ & H & _).
  - reflexivity.
  - exact H.
Defined.

(** ** The frozen prefix *)

(** X5. The frozen prefix survives. After a call of [line_generator_update]
    that returns, whatever tail calls it took: a line that one of the
    call's wraps made the growing line has an empty checkpoint (line 255
    and 256 zeroed it, and no later pass moved it); every other line still
    has the checkpoint it had and, before it, the very bytes it had. What
    [line_generator_finalize] froze is rewritten only in a slot that a wrap
    restarts. *)
Theorem frozen_prefix_survives_update (E : externals) (cfg : gsettings)
    (tokens : list AprilToken) (fuel : nat) (lg lg' : line_generator)
    (rs : list retry) (k : Z) :
  update_trace E cfg tokens fuel lg = Some (rs, inl lg') ->
  (In k (wrapped_slots E (current_line lg) rs) ->
     start_head (lines lg' k) = 0 /\ start_len (lines lg' k) = 0)
  /\ (~ In k (wrapped_slots E (current_line lg) rs) ->
        start_head (lines lg' k) = start_head (lines lg k)
        /\ start_len (lines lg' k) = start_len (lines lg k)
        /\ firstn (Z.to_nat (start_head (lines lg k))) (text (lines lg' k))
           = firstn (Z.to_nat (start_head (lines lg k))) (text (lines lg k))).
Proof.
  intros Ht.
  destruct (update_trace_frozen E cfg tokens fuel lg lg' rs Ht k)
    as [Hin Hout].
  split; [exact Hin|].
  intros Hk. specialize (Hout Hk).
  unfold reset_line in Hout. injection Hout as Htx Hh Hl.
  split; [exact Hh|]. split; [exact Hl|].
  rewrite Hh in Htx. apply write_at_nil_firstn. exact Htx.
Qed.

(** The theorem at work on an 8-unit display showing the frozen " hi.": the
    token " there" does not fit after it, the call wraps once into slot 1,
    which starts from an empty checkpoint, and slot 0 keeps " hi.". *)
Lemma frozen_prefix_survives_update_witness :
  let lg := frozen_generator 8 in
  let lg' := run E_ref cfg_plain [word " there" 1] 5 lg in
  update_trace E_ref cfg_plain [word " there" 1] 5 lg = Some ([Wrap], inl lg')
  /\ observe lg' = (1, [(0, " hi."); (0, " there")])%string
  /\ (start_head (lines lg' 1) = 0 /\ start_len (lines lg' 1) = 0)
  /\ (start_head (lines lg' 0) = 4
      /\ firstn 4 (text (lines lg' 0)) = firstn 4 (text (lines lg 0))).
Proof.
  cbn zeta.
  assert (Hu : update_trace E_ref cfg_plain [word " there" 1] 5
                 (frozen_generator 8)
               = Some ([Wrap],
                       inl (run E_ref cfg_plain [word " there" 1] 5
                              (frozen_generator 8))))
    by (vm_compute; reflexivity).
  split; [exact Hu|]. split; [vm_compute; reflexivity|].
  split.
  - pose proof (frozen_prefix_survives_update E_ref cfg_plain _ 5 _ _ _ 1 Hu)
      as [H _].
    apply H. vm_compute. now left.
  - pose proof (frozen_prefix_survives_update E_ref cfg_plain _ 5 _ _ _ 0 Hu)
      as [_ H].
    destruct H as (Hh & _ & Hp).
    + vm_compute. intros [H|[]]. discriminate.
    + change (start_head (lines (frozen_generator 8) 0)) with 4 in Hh, Hp.
      split; [exact Hh|exact Hp].
Defined.

(** ** The capitalizer over a whole scan *)

Lemma capitalize_scan_cons (tc : token_capitalizer) (t : AprilToken)
    (rest : list AprilToken) :
  capitalize_scan tc (t :: rest)
  = let n := token_capitalizer_next tc (token t) (flags t) (lookahead rest) in
    (fst (capitalize_scan (fst n) rest),
     snd n :: snd (capitalize_scan (fst n) rest)).
Proof.
  cbn [capitalize_scan]. fold (lookahead rest).
  destruct (token_capitalizer_next tc (token t) (flags t) (lookahead rest))
    as [tc1 b].
  cbn. now destruct (capitalize_scan tc1 rest).
Qed.

Lemma capitalize_scan_length (tokens : list AprilToken) :
  forall tc, List.length (snd (capitalize_scan tc tokens)) = List.length tokens.
Proof.
  induction tokens as [|t rest IH]; intros tc; [reflexivity|].
  rewrite capitalize_scan_cons. cbn. now rewrite IH.
Qed.

Lemma next_sentence_end (tc : token_capitalizer) (t : AprilToken)
    (sub : option (string * Z)) :
  sentence_end t = true ->
  token_capitalizer_next tc (token t) (flags t) sub
  = (set_previous_was_period true tc, false).
Proof.
  unfold sentence_end, token_capitalizer_next. now intros ->.
Qed.

Lemma next_after_period (tc : token_capitalizer) (t : AprilToken)
    (sub : option (string * Z)) :
  previous_was_period tc = true ->
  sentence_end t = false -> word_boundary t = true ->
  snd (token_capitalizer_next tc (token t) (flags t) sub) = true.
Proof.
  unfold sentence_end, word_boundary, token_capitalizer_next.
  intros Hp -> ->. rewrite Hp. cbn [andb].
  destruct (force_next_cap tc); reflexivity.
Qed.

(** X14. In any scan, from any capitalizer state: there is one decision per
    token; a token flagged SENTENCE_END is never capitalized; and a token
    flagged WORD_BOUNDARY (and not SENTENCE_END) that directly follows a
    SENTENCE_END token is always capitalized. *)
Theorem scan_capitalizes_sentence_starts (tokens : list AprilToken)
    (tc : token_capitalizer) :
  let caps := snd (capitalize_scan tc tokens) in
  List.length caps = List.length tokens
  /\ (forall i t, nth_error tokens i = Some t -> sentence_end t = true ->
        nth_error caps i = Some false)
  /\ (forall i t1 t2,
        nth_error tokens i = Some t1 -> nth_error tokens (S i) = Some t2 ->
        sentence_end t1 = true ->
        sentence_end t2 = false -> word_boundary t2 = true ->
        nth_error caps (S i) = Some true).
Proof.
  cbn zeta. split; [apply capitalize_scan_length|]. split.
  - revert tc. induction tokens as [|t rest IH]; intros tc i t0 Hn Hs.
    + destruct i; discriminate.
    + rewrite capitalize_scan_cons. cbn zeta. cbn [snd].
      destruct i as [|i]; cbn [nth_error] in *.
      * injection Hn as ->. now rewrite next_sentence_end.
      * eapply IH; eauto.
  - revert tc. induction tokens as [|t rest IH]; intros tc i t1 t2 H1 H2 Hs1 Hs2 Hw.
    + destruct i; discriminate.
    + rewrite capitalize_scan_cons. cbn zeta. cbn [snd].
      destruct i as [|i]; cbn [nth_error] in H1, H2 |- *.
      * injection H1 as ->.
        destruct rest as [|t' rest']; [discriminate|].
        cbn [nth_error] in H2. injection H2 as ->.
        rewrite next_sentence_end by exact Hs1. cbn [fst].
        rewrite capitalize_scan_cons. cbn zeta. cbn [snd nth_error].
        f_equal. now apply next_after_period.
      * eapply IH; eauto.
Qed.

(** X15. With a language other than English, a stream that resumes
    mid-sentence (the previous utterance did not end at a period) and holds
    no SENTENCE_END token is left without any capital, the pronoun " I"
    included. *)
Theorem non_english_stream_has_no_capital (language : string)
    (tokens : list AprilToken) (lg : line_generator) :
  language_is_english language = false ->
  finished_at_period (tcap lg) = false ->
  Forall (fun t => sentence_end t = false) tokens ->
  snd (scan_of tokens (line_generator_set_language language lg))
  = repeat false (List.length tokens).
Proof.
  intros Hl Hf Hall. unfold scan_of.
  cbn [tcap line_generator_set_language]. rewrite Hl.
  set (tc := token_capitalizer_rewind (set_is_english false (tcap lg))).
  assert (Htc : is_english tc = false /\ previous_was_period tc = false
                /\ force_next_cap tc = false).
  { subst tc. cbn. auto. }
  clearbody tc. revert tc Htc.
  induction Hall as [|t rest Ht Hall IH]; intros tc (He & Hp & Hc);
    [reflexivity|].
  rewrite capitalize_scan_cons. cbn zeta.
  assert (Hn : token_capitalizer_next tc (token t) (flags t) (lookahead rest)
               = (tc, false)).
  { unfold token_capitalizer_next. unfold sentence_end in Ht.
    now rewrite Ht, Hc, Hp, He. }
  rewrite Hn. cbn [fst snd List.length repeat]. f_equal. now apply IH.
Qed.

Lemma non_english_stream_has_no_capital_witness :
  snd (scan_of tokens_pronoun_I
         (line_generator_set_language "de" (fresh_generator E_ref 100)))
  = repeat false (List.length tokens_pronoun_I).
Proof.
  apply (non_english_stream_has_no_capital "de" tokens_pronoun_I
           (fresh_generator E_ref 100)).
  - reflexivity.
  - reflexivity.
  - repeat constructor.
Defined.

(** ** From one utterance to the next *)

Lemma update_pass_tcap (E : externals) (cfg : gsettings)
    (tokens : list AprilToken) (lg : line_generator) :
  match update_pass E cfg tokens lg with
  | Done lg' | Retry _ lg' => tcap lg' = fst (scan_of tokens lg)
  | Fault _ => True
  end.
Proof.
  rewrite update_pass_unfold.
  destruct (Z.of_nat (List.length tokens) >? 1024); [exact I|].
  pose proof (update_lines_frame E cfg tokens (snd (scan_of tokens lg))
                (slots E) (set_tcap (fst (scan_of tokens lg)) lg)) as Hf.
  destruct (update_lines E cfg tokens (snd (scan_of tokens lg)) (slots E)
              (set_tcap (fst (scan_of tokens lg)) lg)) as [lg'|[|] lg'|f];
    [| | |exact I].
  - destruct Hf as (_ & _ & _ & _ & Ht & _). exact Ht.
  - destruct Hf as (i & lgm & _ & Hfr & Hb).
    apply update_line_Backtrack in Hb.
    destruct Hb as (_ & _ & _ & _ & _ & _ & _ & _ & Ht).
    destruct Hfr as (_ & _ & _ & _ & Ht' & _). cbn in Ht'. congruence.
  - destruct Hf as (i & lgm & _ & Hfr & Hw).
    apply update_line_Wrap in Hw.
    destruct Hw as (_ & _ & _ & j & _ & _ & _ & _ & Ht & _).
    destruct Hfr as (_ & _ & _ & _ & Ht' & _). cbn in Ht'. congruence.
Qed.

(** Whatever tail calls a call takes, it leaves the capitalizer where one
    scan of the tokens from the rewound checkpoint ends. *)
Lemma update_trace_tcap (E : externals) (cfg : gsettings)
    (tokens : list AprilToken) :
  forall (fuel : nat) (lg lg' : line_generator) (rs : list retry),
    update_trace E cfg tokens fuel lg = Some (rs, inl lg') ->
    tcap lg' = fst (scan_of tokens lg).
Proof.
  induction fuel as [|fuel IH]; intros lg lg' rs; cbn [update_trace];
    [discriminate|].
  pose proof (update_pass_tcap E cfg tokens lg) as Hp.
  destruct (update_pass E cfg tokens lg) as [lg1|r lg1|f].
  - intros H; injection H as _ <-. exact Hp.
  - destruct (update_trace E cfg tokens fuel lg1) as [[rs' res]|] eqn:Ht;
      [|discriminate].
    intros H; injection H as _ ->.
    rewrite (IH lg1 lg' rs' Ht). f_equal. now apply scan_of_rescan.
  - discriminate.
Qed.

Lemma scan_ends_at_period (tokens : list AprilToken) (d : AprilToken) :
  forall tc,
    tokens <> [] -> sentence_end (last tokens d) = true ->
    previous_was_period (fst (capitalize_scan tc tokens)) = true.
Proof.
  induction tokens as [|t rest IH]; intros tc Hne Hs; [congruence|].
  rewrite capitalize_scan_cons. cbn zeta. cbn [fst].
  destruct rest as [|t' rest'].
  - cbn [last] in Hs. rewrite next_sentence_end by exact Hs. reflexivity.
  - apply IH; [discriminate|exact Hs].
Qed.

(** X16. The sentence end is carried over [line_generator_finalize]: when the
    tokens of a call that returned end with a SENTENCE_END token, then after
    finalize the first token of the next call, if it is flagged
    WORD_BOUNDARY and not SENTENCE_END, is capitalized. *)
Theorem sentence_end_carries_over_finalize (E : externals) (cfg : gsettings)
    (tokens : list AprilToken) (d : AprilToken) (fuel : nat)
    (lg lg1 : line_generator) (t : AprilToken) (rest : list AprilToken) :
  line_generator_update E cfg tokens fuel lg = Some (inl lg1) ->
  tokens <> [] ->
  sentence_end (last tokens d) = true ->
  sentence_end t = false ->
  word_boundary t = true ->
  nth_error (snd (scan_of (t :: rest) (line_generator_finalize E lg1))) 0
  = Some true.
Proof.
  unfold line_generator_update.
  destruct (update_trace E cfg tokens fuel lg) as [[rs res]|] eqn:Ht;
    [|discriminate].
  cbn [option_map snd]. intros H; injection H as ->. intros Hne Hlast Hs Hw.
  pose proof (update_trace_tcap E cfg tokens fuel lg lg1 rs Ht) as Htc.
  pose proof (scan_ends_at_period tokens d
                (token_capitalizer_rewind (tcap lg)) Hne Hlast) as Hp.
  fold (scan_of tokens lg) in Hp. rewrite <- Htc in Hp.
  unfold scan_of. rewrite capitalize_scan_cons. cbn zeta. cbn [snd nth_error].
  f_equal. apply next_after_period; [|exact Hs|exact Hw].
  cbn. exact Hp.
Qed.

Lemma sentence_end_carries_over_finalize_witness :
  let lg1 := run E_ref cfg_plain tokens_hi_period 3 (fresh_generator E_ref 80) in
  nth_error (snd (scan_of tokens_there (line_generator_finalize E_ref lg1))) 0
  = Some true
  /\ observe_result
       (line_generator_update E_ref cfg_plain tokens_there 3
          (line_generator_finalize E_ref lg1))
     = Some (inl (0, [(0, " hi. There"); (-1, "")]))%string.
Proof.
  cbn zeta. split; [|vm_compute; reflexivity].
  apply (sentence_end_carries_over_finalize E_ref cfg_plain tokens_hi_period
           (word "" 0) 3 (fresh_generator E_ref 80)
           (run E_ref cfg_plain tokens_hi_period 3 (fresh_generator E_ref 80))
           (word " there" 1) []).
  - vm_compute. reflexivity.
  - discriminate.
  - reflexivity.
  - reflexivity.
  - reflexivity.
Defined.

(** X17. [line_generator_finalize] called twice in a row leaves the lines, the
    start markers and the growing line's index as one call does, but it
    forgets the sentence end: whatever the state, the first token of the
    next call is then capitalized only as the pronoun " I" (a token that is
    not " I" and not flagged SENTENCE_END is left in lower case). *)
Theorem finalize_twice_forgets_sentence_end (E : externals)
    (lg : line_generator) (t : AprilToken) (rest : list AprilToken) :
  sentence_end t = false ->
  is_pronoun_I (token t) = false ->
  let f1 := line_generator_finalize E lg in
  let f2 := line_generator_finalize E f1 in
  current_line f2 = current_line f1
  /\ (forall k, active_start_of_lines f2 k = active_start_of_lines f1 k)
  /\ (forall k, lines f2 k = lines f1 k)
  /\ finished_at_period (tcap f2) = false
  /\ nth_error (snd (scan_of (t :: rest) f2)) 0 = Some false.
Proof.
  intros Hs Hp. cbn zeta.
  split; [reflexivity|]. split; [|split; [|split; [reflexivity|]]].
  - intros k. cbn. unfold upd.
    destruct (k =? current_line lg); [reflexivity|].
    destruct (in_array E k); reflexivity.
  - intros k. cbn. unfold upd.
    destruct (k =? current_line lg) eqn:Hk; [|reflexivity].
    rewrite Z.eqb_refl. reflexivity.
  - unfold scan_of. rewrite capitalize_scan_cons.
    cbn zeta. cbn [snd nth_error]. f_equal.
    unfold token_capitalizer_next. unfold sentence_end in Hs. rewrite Hs.
    cbn. rewrite Hp, andb_false_r. reflexivity.
Qed.

Lemma finalize_twice_forgets_sentence_end_witness :
  let lg1 := run E_ref cfg_plain tokens_hi_period 3 (fresh_generator E_ref 80) in
  nth_error
    (snd (scan_of tokens_there
            (line_generator_finalize E_ref (line_generator_finalize E_ref lg1)))) 0
  = Some false.
Proof.
  cbn zeta.
  destruct (finalize_twice_forgets_sentence_end E_ref
              (run E_ref cfg_plain tokens_hi_period 3 (fresh_generator E_ref 80))
              (word " there" 1) []) as (_ & _ & _ & _ & H).
  - reflexivity.
  - reflexivity.
  - exact H.
Defined.

(** X18. [line_generator_init] resets the capitalizer to English whatever
    language was set before, while [lg->is_english] keeps the language: after
    [line_generator_set_language] and then [line_generator_init], the
    decisions of every scan are those of English; in the other order they
    follow the language. *)
Theorem init_resets_capitalizer_language (E : externals) (language : string)
    (tokens : list AprilToken) (lg : line_generator) :
  let a := line_generator_init E (line_generator_set_language language lg) in
  let b := line_generator_set_language language (line_generator_init E lg) in
  lg_is_english a = language_is_english language
  /\ is_english (tcap a) = true
  /\ scan_of tokens a
     = capitalize_scan (token_capitalizer_rewind token_capitalizer_init) tokens
  /\ lg_is_english b = language_is_english language
  /\ is_english (tcap b) = language_is_english language.
Proof. cbn. repeat split; reflexivity. Qed.

(** ** Where the fade is defined, and where it saturates *)

Lemma double_to_int_eq (w : spec_float) :
  finite_double w -> double_to_int w = int_of_scaled (scaled_value w).
Proof.
  intros Hw. unfold int_of_scaled.
  pose proof (pow2_pos bias ltac:(unfold bias; lia)) as Hb.
  destruct w as [s|s| |s m e]; cbn [finite_double] in Hw; try contradiction.
  - cbn [scaled_value double_to_int]. rewrite Z.quot_0_l by lia. reflexivity.
  - destruct Hw as [Hm He]. cbn [double_to_int].
    pose proof (pow2_pos (e + bias) ltac:(unfold bias; lia)) as Hp.
    assert (Hmag : Z.shiftl (Zpos m) e = Zpos m * 2 ^ (e + bias) / 2 ^ bias).
    { destruct (Z_le_gt_dec 0 e) as [Hpos|Hneg].
      - rewrite Z.shiftl_mul_pow2 by lia.
        rewrite Z.pow_add_r, Z.mul_assoc, Z.div_mul by (unfold bias; lia).
        reflexivity.
      - rewrite Z.shiftl_div_pow2 by lia.
        replace (2 ^ bias) with (2 ^ (- e) * 2 ^ (e + bias)).
        2:{ rewrite <- Z.pow_add_r by (unfold bias; lia).
            apply (f_equal (Z.pow 2)). lia. }
        rewrite Z.div_mul_cancel_r by (apply Z.pow_nonzero; unfold bias; lia).
        reflexivity. }
    rewrite Hmag.
    assert (Hq : Zpos m * 2 ^ (e + bias) / 2 ^ bias
                 = Z.quot (Zpos m * 2 ^ (e + bias)) (2 ^ bias))
      by (symmetry; apply Z.quot_div_nonneg; nia).
    rewrite Hq. cbn [scaled_value].
    destruct s; [rewrite Z.quot_opp_l by lia|]; reflexivity.
Qed.

Lemma scaled_confidence_eq (x : spec_float) :
  finite_float x ->
  scaled_confidence x
  = let p := confidence_path (scaled_value x) in
    if (INT_MIN <=? p) && (p <=? INT_MAX) then Some p else None.
Proof.
  intros Hx. unfold scaled_confidence.
  destruct (double_of_float_spec x Hx) as [F0 S0].
  destruct (float_scaled_bounds x Hx) as [B0 N0].
  assert (P1 : 2 ^ (128 + bias) <= 2 ^ (999 + bias))
    by (apply Z.pow_le_mono_r; unfold bias; lia).
  assert (P2 : 2 ^ (129 + bias) = 2 * 2 ^ (128 + bias)).
  { rewrite <- Z.pow_succ_r by (unfold bias; lia).
    apply (f_equal (Z.pow 2)). lia. }
  assert (P3 : 2 ^ (1 + bias) <= 2 ^ (128 + bias))
    by (apply Z.pow_le_mono_r; unfold bias; lia).
  assert (P4 : 2 ^ (129 + bias) <= 2 ^ (900 + bias))
    by (apply Z.pow_le_mono_r; unfold bias; lia).
  assert (P5 : 2 ^ (900 + bias) <= 2 ^ (1000 + bias))
    by (apply Z.pow_le_mono_r; unfold bias; lia).
  assert (P6 : 2 ^ (bias - 1000) <= 2 ^ (bias - 149))
    by (apply Z.pow_le_mono_r; unfold bias; lia).
  pose proof (pow2_pos (1 + bias) ltac:(unfold bias; lia)) as P7.
  set (x0 := double_of_float x) in *.
  assert (B0' : Z.abs (scaled_value x0) <= 2 ^ (999 + bias))
    by (rewrite S0; exact (Z.le_trans _ _ _ B0 P1)).
  destruct (SFadd_2_spec x0 F0 B0') as [F1 S1].
  rewrite S0 in S1.
  set (x1 := SFadd dprec demax x0 d_2_0) in *.
  set (V := scaled_value x + 2 ^ (1 + bias)) in *.
  assert (BV : Z.abs V <= 2 ^ (129 + bias)).
  { subst V. clear - B0 P2 P3 P7.
    revert B0 P2 P3 P7.
    generalize (scaled_value x) (2 ^ (1 + bias)) (2 ^ (128 + bias))
               (2 ^ (129 + bias)).
    intros; lia. }
  assert (B1 : Z.abs (scaled_value x1) <= 2 ^ (129 + bias)).
  { rewrite S1. apply RNDz_abs_le; [unfold bias; lia|exact BV]. }
  assert (N1 : scaled_value x1 = 0
               \/ 2 ^ (bias - 1000) <= Z.abs (scaled_value x1)).
  { rewrite S1. destruct N0 as [Hz|Hn].
    - left. rewrite Hz. reflexivity.
    - right. pose proof (RNDz_abs_ge V (bias - 149)
                           ltac:(unfold bias; lia) Hn) as Hg.
      exact (Z.le_trans _ _ _ P6 Hg). }
  destruct (SFdiv_8_spec x1 F1 N1
              (Z.le_trans _ _ _ B1 (Z.le_trans _ _ _ P4 P5))) as [F2 S2].
  set (x2 := SFdiv dprec demax x1 d_8_0) in *.
  assert (B2 : Z.abs (scaled_value x2) <= 2 ^ (129 + bias)).
  { rewrite S2. apply RNDz_abs_le; [unfold bias; lia|].
    apply abs_div8_le. exact B1. }
  destruct (SFmul_65536_spec x2 F2 (Z.le_trans _ _ _ B2 P4)) as [F3 S3].
  rewrite (double_to_int_eq _ F3), S3, S2, S1.
  reflexivity.
Qed.

Lemma SFleb_finite_between (lo hi x : spec_float) :
  (exists s m e, lo = S754_finite s m e) ->
  (exists s m e, hi = S754_finite s m e) ->
  SFleb lo x = true -> SFleb x hi = true ->
  match x with S754_zero _ | S754_finite _ _ _ => True | _ => False end.
Proof.
  intros (s1 & m1 & e1 & ->) (s2 & m2 & e2 & ->) H1 H2.
  destruct x as [s|s| |s m e]; try exact I.
  - unfold SFleb in H1, H2. cbn in H1, H2. destruct s, s1, s2; discriminate.
  - discriminate.
Qed.

Lemma fade_alpha_mono (x y : spec_float) (ax ay : Z) :
  finite_float x -> finite_float y -> SFleb x y = true ->
  fade_alpha x = Some ax -> fade_alpha y = Some ay -> ax <= ay.
Proof.
  intros Fx Fy Hle Hx Hy. unfold fade_alpha in Hx, Hy.
  destruct (scaled_confidence x) as [cx|] eqn:Cx; [|discriminate].
  destruct (scaled_confidence y) as [cy|] eqn:Cy; [|discriminate].
  cbn in Hx, Hy. injection Hx as <-. injection Hy as <-.
  apply clamp_alpha_mono.
  rewrite (scaled_confidence_spec x cx Fx Cx).
  rewrite (scaled_confidence_spec y cy Fy Cy).
  apply confidence_path_mono. now apply SFleb_scaled.
Qed.

(** X19. No undefined cast for moderate scores: for every [float] score
    between -131072 and 131072 the conversion to [int] of line 262 is
    defined, so the opacity is, and it lies between 10000 and 65535. *)
Theorem fade_defined_for_moderate_scores (x : spec_float) :
  valid_binary 24 128 x = true ->
  SFleb f_minus_131072 x = true ->
  SFleb x f_131072 = true ->
  exists a, fade_alpha x = Some a /\ 10000 <= a <= 65535.
Proof.
  intros Vx Hlo Hhi.
  assert (Fx : finite_float x).
  { split; [exact Vx|].
    apply (SFleb_finite_between f_minus_131072 f_131072 x);
      unfold f_minus_131072, f_131072; eauto. }
  assert (Flo : finite_float f_minus_131072) by (split; [reflexivity|exact I]).
  assert (Fhi : finite_float f_131072) by (split; [reflexivity|exact I]).
  pose proof (confidence_path_mono _ _ (SFleb_scaled _ _ Flo Fx Hlo)) as H1.
  pose proof (confidence_path_mono _ _ (SFleb_scaled _ _ Fx Fhi Hhi)) as H2.
  assert (Elo : confidence_path (scaled_value f_minus_131072) = -1073725440)
    by (vm_compute; reflexivity).
  assert (Ehi : confidence_path (scaled_value f_131072) = 1073758208)
    by (vm_compute; reflexivity).
  rewrite Elo in H1. rewrite Ehi in H2.
  assert (Hsc : scaled_confidence x
                = Some (confidence_path (scaled_value x))).
  { rewrite (scaled_confidence_eq x Fx). cbn zeta.
    replace ((INT_MIN <=? confidence_path (scaled_value x))
             && (confidence_path (scaled_value x) <=? INT_MAX)) with true;
      [reflexivity|].
    symmetry. apply andb_true_intro.
    split; apply Z.leb_le; unfold INT_MIN, INT_MAX;
      change (2 ^ 31) with 2147483648; lia. }
  exists (clamp_alpha (confidence_path (scaled_value x))).
  split; [|apply clamp_alpha_range].
  unfold fade_alpha. now rewrite Hsc.
Qed.

Lemma fade_defined_for_moderate_scores_witness :
  exists a, fade_alpha minus_one_f = Some a /\ 10000 <= a <= 65535.
Proof.
  apply (fade_defined_for_moderate_scores minus_one_f); reflexivity.
Defined.

(** X20. Where the opacity saturates: a score of at most -8 is drawn at the
    minimum 10000; a score of at least 6 at the maximum 65535; and a score
    of at most 0 (every log-probability) never above 40960, so a token whose
    score is a log-probability is never drawn at full opacity. *)
Theorem fade_saturates (x : spec_float) (a : Z) :
  valid_binary 24 128 x = true ->
  fade_alpha x = Some a ->
  (SFleb x f_minus_8 = true -> a = 10000)
  /\ (SFleb x (S754_zero false) = true -> a <= 40960)
  /\ (SFleb f_6 x = true -> a = 65535).
Proof.
  intros Vx Ha.
  assert (Fx : finite_float x).
  { split; [exact Vx|]. unfold fade_alpha in Ha.
    destruct (scaled_confidence x) as [c|] eqn:Hc; [|discriminate].
    exact (scaled_confidence_finite x c Hc). }
  pose proof (fade_alpha_range x a Ha) as Hr.
  split; [|split]; intros Hle.
  - assert (F8 : finite_float f_minus_8) by (split; [reflexivity|exact I]).
    pose proof (fade_alpha_mono x f_minus_8 a 10000 Fx F8 Hle Ha
                  ltac:(vm_compute; reflexivity)). lia.
  - assert (F0 : finite_float (S754_zero false)) by (split; [reflexivity|exact I]).
    exact (fade_alpha_mono x (S754_zero false) a 40960 Fx F0 Hle Ha
             ltac:(vm_compute; reflexivity)).
  - assert (F6 : finite_float f_6) by (split; [reflexivity|exact I]).
    pose proof (fade_alpha_mono f_6 x 65535 a F6 Fx Hle
                  ltac:(vm_compute; reflexivity) Ha). lia.
Qed.

Lemma fade_saturates_witness :
  (SFleb minus_one_f f_minus_8 = true -> 36864 = 10000)
  /\ (SFleb minus_one_f (S754_zero false) = true -> 36864 <= 40960)
  /\ (SFleb f_6 minus_one_f = true -> 36864 = 65535).
Proof.
  apply (fade_saturates minus_one_f 36864); reflexivity.
Defined.

(** ** The scratch buffer of the lower-casing loop *)

Section SingleByte.

Variable E : externals.
Variable tok : bytes.

Hypothesis Hget : forall b p, In b tok ->
  g_utf8_get_char_validated E (b :: p) <> 2 ^ 32 - 2
  /\ g_utf8_get_char_validated E (b :: p) <> 2 ^ 32 - 1.
Hypothesis Hnext : forall b p, g_utf8_next_char E (b :: p) = p.
Hypothesis Hone : forall c, List.length (g_unichar_to_utf8 E c) = 1%nat.


End SingleByte.



(** ** The tail calls end *)

Section Progress.

Variable E : externals.
Variable cfg : gsettings.
Variable tokens : list AprilToken.

Local Abbreviation num_tokens := (Z.of_nat (List.length tokens)).

(** A wrap is not asked for at the first token of a line that can take
    it. *)
Lemma print_line_wrap_after_first (caps : list bool) (cur : bool)
    (start mw end_ : Z) (fuel : nat) (j : Z) (curr : line) (t : Z) (l' : line) :
  print_line E cfg tokens caps cur start mw end_ fuel j curr = LWrap t l' ->
  (forall tk, nth_error tokens (Z.to_nat j) = Some tk ->
     len curr
     + line_generator_get_text_width E (fst (select_token E cfg tokens caps j tk))
     < mw) ->
  exists j', j < j' < end_ /\ j' < num_tokens
    /\ t = wrap_target tokens start (start_head curr) j'.
Proof.
  destruct fuel as [|fuel]; [discriminate|]. cbn [print_line].
  destruct (j <? end_) eqn:Hlt; [|discriminate].
  destruct (nth_error tokens (Z.to_nat j)) as [tk|] eqn:Htk; [|discriminate].
  intros H Hfit. specialize (Hfit tk eq_refl).
  pose proof (select_token_skip_pos E cfg tokens caps j tk) as Hskip.
  destruct (select_token E cfg tokens caps j tk) as [tok skipahead].
  cbn [fst snd] in *.
  destruct (head curr >? AC_LINE_MAX E - 256); [discriminate|].
  destruct cur; cbn [andb] in H.
  - cbn [set_len len] in H.
    replace (len curr + line_generator_get_text_width E tok >=? mw) with false in H
      by (symmetry; rewrite Z.geb_leb; apply Z.leb_gt; lia).
    destruct (fade_alpha (logprob tk)) as [alpha|]; [|discriminate].
    match type of H with
    | (if ?c then _ else _) = _ => destruct c; [|discriminate]
    end.
    apply print_line_wrap in H.
    destruct H as (_ & j' & Hj' & Hn & Ht & _).
    exists j'. cbn in Ht. repeat split; auto; lia.
  - destruct (fade_alpha (logprob tk)) as [alpha|]; [|discriminate].
    match type of H with
    | (if ?c then _ else _) = _ => destruct c; [|discriminate]
    end.
    apply print_line_wrap in H. destruct H as [Hc _]. discriminate.
Qed.

Lemma update_line_Wrap_progress (caps : list bool) (i : Z)
    (lg lg' : line_generator) :
  update_line E cfg tokens caps i lg = Retry Wrap lg' ->
  start_len (lines lg i) = 0 ->
  tokens_narrower_than E cfg tokens (max_text_width lg) ->
  exists j,
    size_t_of (active_start_of_lines lg i) < j < num_tokens
    /\ active_start_of_lines lg'
       = upd (active_start_of_lines lg) (REL_LINE_IDX E i 1)
           (wrap_target tokens (size_t_of (active_start_of_lines lg i))
              (start_head (lines lg i)) j).
Proof.
  intros H Hlen Hnarrow.
  pose proof (update_line_Wrap E cfg tokens caps i lg lg' H) as (Hi & _).
  unfold update_line in H.
  destruct (active_start_of_lines lg i =? -1) eqn:Hact; [discriminate|].
  destruct ((start_head (lines lg i) <? 0)
            || (start_head (lines lg i) >=? AC_LINE_MAX E)) eqn:Hb;
    [discriminate|].
  set (lg1 := set_line i (reset_line (lines lg i)) lg) in *.
  destruct (num_tokens =? 0) eqn:Hn; [discriminate|].
  destruct (size_t_of (active_start_of_lines lg i) >=? num_tokens) eqn:Hge.
  { destruct (i =? current_line lg1); discriminate. }
  match type of H with
  | context [print_line ?a ?b ?c ?d ?e ?f ?g ?h ?n ?j ?l] =>
      destruct (print_line a b c d e f g h n j l) as [l1|t l1|f1] eqn:Hp
  end; try discriminate.
  apply print_line_wrap_after_first in Hp.
  - destruct Hp as (j & Hj & Hjn & Ht).
    injection H as <-. exists j. split; [lia|].
    cbn. cbn in Ht. rewrite Ht, <- Hi. reflexivity.
  - intros tk Htk. cbn [reset_line len]. rewrite Hlen.
    cbn [max_text_width lg1 set_line].
    pose proof (Hnarrow caps _ tk Htk). lia.
Qed.

Lemma update_pass_Wrap_progress (lg lg' : line_generator) :
  update_pass E cfg tokens lg = Retry Wrap lg' ->
  start_len (lines lg (current_line lg)) = 0 ->
  tokens_narrower_than E cfg tokens (max_text_width lg) ->
  let c := current_line lg in
  exists j,
    size_t_of (active_start_of_lines lg c) < j < num_tokens
    /\ active_start_of_lines lg'
       = upd (active_start_of_lines lg) (REL_LINE_IDX E c 1)
           (wrap_target tokens (size_t_of (active_start_of_lines lg c))
              (start_head (lines lg c)) j).
Proof.
  rewrite update_pass_unfold.
  destruct (num_tokens >? 1024) eqn:Hn; [discriminate|].
  pose proof (update_lines_frame E cfg tokens (snd (scan_of tokens lg)) (slots E)
                (set_tcap (fst (scan_of tokens lg)) lg)) as Hf.
  intros Hu Hlen Hnarrow. rewrite Hu in Hf.
  destruct Hf as (i & lgm & Hin & Hfr & Hw).
  pose proof Hw as Hw'. apply update_line_Wrap in Hw'.
  destruct Hw' as (Hi & _).
  destruct (same_frame_start_head _ _ i Hfr) as [Hsh Hsl].
  destruct Hfr as (Hc & Ha & Hm & _).
  cbn in Hc, Ha, Hm, Hsh, Hsl.
  rewrite Hc in Hi. subst i.
  apply update_line_Wrap_progress in Hw.
  - destruct Hw as (j & Hj & Hact). rewrite Ha, Hsh in *.
    cbn zeta. exists j. split; assumption.
  - now rewrite Hsl.
  - now rewrite Hm.
Qed.

Variable W : Z.

Hypothesis Hnarrow : tokens_narrower_than E cfg tokens W.

Lemma fresh_pass (lg : line_generator) :
  fresh_growing_line tokens W lg ->
  match update_pass E cfg tokens lg with
  | Done _ | Fault _ => True
  | Retry Backtrack _ => False
  | Retry Wrap lg' =>
      fresh_growing_line tokens W lg'
      /\ active_start_of_lines lg (current_line lg)
         < active_start_of_lines lg' (current_line lg')
  end.
Proof.
  intros (Ha & Hsh & Hsl & Hw).
  destruct (update_pass E cfg tokens lg) as [lg'|[|] lg'|f] eqn:Hp; auto.
  - apply update_pass_Backtrack in Hp. cbn zeta in Hp.
    destruct Hp as (_ & _ & _ & Hn & Hge & _).
    rewrite size_t_of_small in Hge
      by (change (2 ^ 64) with 18446744073709551616; lia).
    lia.
  - pose proof Hp as Hp'. apply update_pass_Wrap in Hp'. cbn zeta in Hp'.
    destruct Hp' as (_ & _ & _ & Hn & _ & _ & Hc & _ & Hm & Hs0 & Hl0).
    apply update_pass_Wrap_progress in Hp;
      [|exact Hsl|rewrite Hw; exact Hnarrow].
    cbn zeta in Hp. destruct Hp as (j & Hj & Hact).
    rewrite size_t_of_small in Hj, Hact
      by (change (2 ^ 64) with 18446744073709551616; lia).
    set (start := active_start_of_lines lg (current_line lg)) in *.
    destruct (wrap_target_spec tokens start (start_head (lines lg (current_line lg)))
                j ltac:(lia)) as (Hr & _ & Hcase).
    rewrite Hsh in *. cbn [Z.eqb] in Hcase.
    set (tgt := wrap_target tokens start 0 j) in *.
    assert (Hgt : start < tgt) by (destruct Hcase as [[? _]|[_ ->]]; lia).
    unfold fresh_growing_line. rewrite Hc, Hact, upd_same.
    repeat split; try lia; auto; congruence.
Qed.

Lemma fresh_trace :
  forall (m : nat) (lg : line_generator) (fuel : nat),
    fresh_growing_line tokens W lg ->
    num_tokens - active_start_of_lines lg (current_line lg) <= Z.of_nat m ->
    (m <= fuel)%nat ->
    exists rs res,
      update_trace E cfg tokens fuel lg = Some (rs, res)
      /\ Forall (fun r => r = Wrap) rs
      /\ (List.length rs < m)%nat.
Proof.
  induction m as [|m IH]; intros lg fuel Hfr Hm Hfuel.
  - destruct Hfr as (Ha & _). lia.
  - destruct fuel as [|fuel]; [lia|]. cbn [update_trace].
    pose proof (fresh_pass lg Hfr) as Hp.
    destruct (update_pass E cfg tokens lg) as [lg'|[|] lg'|f].
    + exists [], (inl lg'). repeat split; auto. cbn. lia.
    + contradiction.
    + destruct Hp as [Hfr' Hlt].
      assert (Hm0 : (0 < m)%nat).
      { destruct Hfr' as (Ha' & _). destruct Hfr as (Ha & _). lia. }
      destruct (IH lg' fuel Hfr' ltac:(lia) ltac:(lia)) as (rs & res & Ht & Hall & Hlen).
      rewrite Ht. exists (Wrap :: rs), res.
      repeat split; auto. cbn. lia.
    + exists [], (inr f). repeat split; auto. cbn. lia.
Qed.

End Progress.

(** X4. The tail calls end. From a state whose growing line starts at one of
    the tokens (as after init, finalize or break, or after a call that
    returned), if every token as drawn is narrower than [max_text_width],
    a call of [line_generator_update] runs at most [num_tokens + 1] passes
    after the first: it returns or faults, it never loops, and its tail
    calls are all wraps (it never backtracks). *)
Theorem update_returns_when_tokens_are_narrow (E : externals)
    (cfg : gsettings) (tokens : list AprilToken) (lg : line_generator)
    (fuel : nat) :
  growing_line_in_range tokens lg ->
  tokens_narrower_than E cfg tokens (max_text_width lg) ->
  (List.length tokens + 2 <= fuel)%nat ->
  exists rs res,
    update_trace E cfg tokens fuel lg = Some (rs, res)
    /\ Forall (fun r => r = Wrap) rs
    /\ (List.length rs <= List.length tokens + 1)%nat.
Proof.
  intros HJ Hnarrow Hfuel.
  destruct fuel as [|fuel]; [lia|]. cbn [update_trace].
  pose proof (update_pass_inactive_untouched E cfg tokens lg HJ) as Hp.
  destruct (update_pass E cfg tokens lg) as [lg'|[|] lg'|f] eqn:Hpass.
  - exists [], (inl lg'). repeat split; auto. cbn. lia.
  - contradiction.
  - pose proof Hpass as Hw. apply update_pass_Wrap in Hw. cbn zeta in Hw.
    destruct Hw as (_ & _ & _ & Hn & j & Hj & Hc & Hact & Hm & Hs0 & Hl0).
    pose proof (size_t_of_nonneg
                  (active_start_of_lines lg (current_line lg))) as H0.
    set (start := size_t_of (active_start_of_lines lg (current_line lg))) in *.
    destruct (wrap_target_spec tokens start
                (start_head (lines lg (current_line lg))) j ltac:(lia))
      as (Hr & _).
    assert (Hfr : fresh_growing_line tokens (max_text_width lg) lg').
    { unfold fresh_growing_line. rewrite Hc, Hact, upd_same.
      repeat split; auto; lia. }
    destruct (fresh_trace E cfg tokens (max_text_width lg) Hnarrow
                (S (List.length tokens)) lg' fuel Hfr)
      as (rs & res & Ht & Hall & Hlen).
    + destruct Hfr as (Ha & _). lia.
    + lia.
    + rewrite Ht. exists (Wrap :: rs), res.
      repeat split; auto. cbn. lia.
  - exists [], (inr f). repeat split; auto. cbn. lia.
Qed.

Lemma update_returns_when_tokens_are_narrow_witness :
  exists rs res,
    update_trace E_ref cfg_upper tokens_six_words 8 (fresh_generator E_ref 8)
    = Some (rs, res)
    /\ Forall (fun r => r = Wrap) rs
    /\ (List.length rs <= List.length tokens_six_words + 1)%nat.
Proof.
  apply (update_returns_when_tokens_are_narrow E_ref cfg_upper tokens_six_words
           (fresh_generator E_ref 8) 8).
  - right. vm_compute. split; congruence.
  - intros caps j tk Htk.
    assert (Hj : (Z.to_nat j < List.length tokens_six_words)%nat)
      by (apply nth_error_Some; congruence).
    cbn [tokens_six_words List.length] in Hj.
    destruct (Z.to_nat j) as [|[|[|[|[|[|k]]]]]] eqn:Ej; try lia;
      cbn in Htk; injection Htk as <-; vm_compute; reflexivity.
  - cbn. lia.
Defined.

(** X10. The two moves of the growing line's index undo each other: stepping
    back (the backtrack of line 168) after stepping forward (the wrap of
    line 253, or [line_generator_break]) returns to the same slot, and so
    does stepping forward after stepping back. *)
Theorem ring_index_round_trip (E : externals) (c : Z) :
  AC_LINE_COUNT E <= 2 ^ 60 ->
  in_array E c = true ->
  REL_LINE_IDX E (REL_LINE_IDX E c 1) (-1) = c
  /\ REL_LINE_IDX E (REL_LINE_IDX E c (-1)) 1 = c.
Proof.
  intros HN Hc. pose proof (in_array_count_pos E _ Hc) as HN0.
  apply in_array_bounds in Hc.
  pose proof (Z.mod_pos_bound (c + 1) (AC_LINE_COUNT E) HN0) as H1.
  pose proof (Z.mod_pos_bound (c + -1) (AC_LINE_COUNT E) HN0) as H2.
  rewrite (REL_LINE_IDX_mod E c 1), (REL_LINE_IDX_mod E c (-1)) by lia.
  rewrite !REL_LINE_IDX_mod by lia.
  rewrite !Zplus_mod_idemp_l.
  replace (c + 1 + -1) with c by lia. replace (c + -1 + 1) with c by lia.
  split; apply Z.mod_small; lia.
Qed.

Lemma ring_index_round_trip_witness :
  REL_LINE_IDX E_ref (REL_LINE_IDX E_ref 1 1) (-1) = 1
  /\ REL_LINE_IDX E_ref (REL_LINE_IDX E_ref 1 (-1)) 1 = 1.
Proof.
  apply (ring_index_round_trip E_ref 1); vm_compute; congruence.
Defined.

(** X7. When no slot of the array is active, a call of
    [line_generator_update] with at most 1024 tokens returns in its first
    pass and changes nothing but the capitalizer, whatever the tokens:
    nothing is drawn. (This is the state a backtrack leaves when it steps
    back onto an inactive slot.) *)
Theorem update_with_no_active_slot (E : externals) (cfg : gsettings)
    (tokens : list AprilToken) (lg : line_generator) (fuel : nat) :
  (forall i, in_array E i = true -> active_start_of_lines lg i = -1) ->
  Z.of_nat (List.length tokens) <= 1024 ->
  update_trace E cfg tokens (S fuel) lg
  = Some ([], inl (set_tcap (fst (scan_of tokens lg)) lg)).
Proof.
  intros Hin Hn. cbn [update_trace]. rewrite update_pass_unfold.
  replace (Z.of_nat (List.length tokens) >? 1024) with false
    by (symmetry; rewrite Z.gtb_ltb; apply Z.ltb_ge; lia).
  rewrite update_lines_inactive; [reflexivity|].
  intros i Hi. apply Hin. now apply in_slots.
Qed.

Lemma update_with_no_active_slot_witness :
  update_trace E_ref cfg_plain tokens_there 1
    (deactivate_all E_ref two_lines_shown)
  = Some ([], inl (set_tcap
                     (fst (scan_of tokens_there
                             (deactivate_all E_ref two_lines_shown)))
                     (deactivate_all E_ref two_lines_shown))).
Proof.
  apply (update_with_no_active_slot E_ref cfg_plain tokens_there
           (deactivate_all E_ref two_lines_shown) 0).
  - intros i Hi. cbn. now rewrite Hi.
  - cbn. lia.
Defined.

(** X3. After [line_generator_break] the next utterance starts a line of its
    own: a call with a stream that fits (filter off, at most 1024 tokens,
    defined confidence casts, running width below [max_text_width], text at
    most [AC_LINE_MAX - 256] bytes) draws exactly the pieces of the tokens
    on the new growing line, and every other line keeps what it showed. *)
Theorem break_then_update_starts_fresh (E : externals) (cfg : gsettings)
    (tokens : list AprilToken) (lg : line_generator) (fuel : nat) :
  let lgB := line_generator_break E lg in
  let c := current_line lgB in
  let caps := snd (scan_of tokens lgB) in
  0 < AC_LINE_COUNT E ->
  tokens <> [] ->
  Z.of_nat (List.length tokens) <= 1024 ->
  filter_active (filter_mode_of cfg) = false ->
  Forall (fun tk => fade_alpha (logprob tk) <> None) tokens ->
  (forall k, (1 <= k <= List.length tokens)%nat ->
     sumZ (firstn k (widths_from E cfg caps 0 tokens)) < max_text_width lg) ->
  Z.of_nat (List.length (List.concat (pieces_from E cfg caps 0 tokens)))
  <= AC_LINE_MAX E - 256 ->
  exists lg',
    update_trace E cfg tokens (S fuel) lgB = Some ([], inl lg')
    /\ current_line lg' = c
    /\ text (lines lg' c) = List.concat (pieces_from E cfg caps 0 tokens)
    /\ forall k, k <> c -> lines lg' k = lines lg k.
Proof.
  cbn zeta. intros HN Hne Hn Hnf Hal Hw Hb.
  set (lgB := line_generator_break E lg).
  assert (HlB : lines lgB (current_line lgB)
                = {| text := []; start_head := 0; start_len := 0;
                     head := 0; len := 0 |})
    by (cbn; now rewrite upd_same).
  destruct (update_pass_fits E cfg tokens lgB)
    as (lg' & Hu & Hl & Hk & Hcur & _); try assumption.
  - now apply break_only_growing_line.
  - rewrite HlB. cbn. lia.
  - rewrite HlB. cbn [start_len]. intros k Hk'.
    rewrite Z.add_0_l. exact (Hw k Hk').
  - rewrite HlB. cbn [start_head]. rewrite Z.add_0_l. exact Hb.
  - exists lg'. split; [cbn [update_trace]; now rewrite Hu|].
    split; [exact Hcur|]. split.
    + rewrite Hl, HlB. reflexivity.
    + intros k Hne'. rewrite (Hk k Hne'). cbn.
      rewrite upd_other; [reflexivity|exact Hne'].
Qed.

Lemma break_then_update_starts_fresh_witness :
  exists lg',
    update_trace E_ref cfg_plain tokens_there 1
      (line_generator_break E_ref frozen_wide)
    = Some ([], inl lg')
    /\ string_of_list_ascii (text (lines lg' 1)) = " there"%string
    /\ string_of_list_ascii (text (lines lg' 0)) = " hi."%string.
Proof.
  destruct (break_then_update_starts_fresh E_ref cfg_plain tokens_there
              frozen_wide 0) as (lg' & Hu & _ & Ht & Hk).
  - reflexivity.
  - discriminate.
  - vm_compute. congruence.
  - reflexivity.
  - repeat constructor; vm_compute; discriminate.
  - intros k Hk. cbn [tokens_there List.length] in Hk.
    destruct k as [|[|k]]; try lia; vm_compute; reflexivity.
  - vm_compute. congruence.
  - exists lg'. split; [exact Hu|].
    change (current_line (line_generator_break E_ref frozen_wide)) with 1 in *.
    split.
    + rewrite Ht. vm_compute. reflexivity.
    + rewrite (Hk 0) by lia. vm_compute. reflexivity.
Defined.

(** ** What a completed pass has drawn *)

Lemma nth_error_skipn_cons {A : Type} (n : nat) (l : list A) (a : A) :
  nth_error l n = Some a -> skipn n l = a :: skipn (S n) l.
Proof.
  revert l. induction n as [|n IH]; intros l H.
  - destruct l; [discriminate|]. cbn in H. injection H as ->. reflexivity.
  - destruct l as [|b l]; [discriminate|]. cbn [nth_error] in H.
    cbn [skipn]. now apply IH.
Qed.

Section Drawn.

Variable E : externals.
Variable cfg : gsettings.
Variable tokens : list AprilToken.
Variable caps : list bool.

Hypothesis Hnofilter : filter_active (filter_mode_of cfg) = false.

Lemma print_line_done (cur : bool) (start mw end_ : Z) :
  forall (fuel : nat) (j : Z) (curr l' : line),
    print_line E cfg tokens caps cur start mw end_ fuel j curr = LDone l' ->
    0 <= j ->
    (Z.to_nat (end_ - j) <= fuel)%nat ->
    Z.of_nat (List.length (text curr)) = head curr ->
    head curr
    + Z.of_nat (List.length
                  (List.concat (pieces_from E cfg caps j (token_range tokens j end_))))
    <= AC_LINE_MAX E - 256 ->
    text l' = text curr
              ++ List.concat (pieces_from E cfg caps j (token_range tokens j end_))
    /\ head l' = head curr
                 + Z.of_nat (List.length
                               (List.concat
                                  (pieces_from E cfg caps j (token_range tokens j end_))))
    /\ start_head l' = start_head curr
    /\ start_len l' = start_len curr.
Proof.
  assert (Hempty : forall j curr l',
            end_ <= j -> LDone curr = LDone l' ->
            text l' = text curr
                      ++ List.concat (pieces_from E cfg caps j (token_range tokens j end_))
            /\ head l' = head curr
                 + Z.of_nat (List.length
                               (List.concat
                                  (pieces_from E cfg caps j (token_range tokens j end_))))
            /\ start_head l' = start_head curr
            /\ start_len l' = start_len curr).
  { intros j curr l' Hle H. injection H as <-.
    unfold token_range. replace (Z.to_nat (end_ - j)) with 0%nat by lia.
    cbn. rewrite app_nil_r, Z.add_0_r. auto. }
  induction fuel as [|fuel IH]; intros j curr l' H Hj Hfuel Htext Hh.
  - cbn [print_line] in H. apply Hempty; [lia|exact H].
  - cbn [print_line] in H.
    destruct (j <? end_) eqn:Hlt; [|apply Hempty; [apply Z.ltb_ge in Hlt; lia|exact H]].
    apply Z.ltb_lt in Hlt.
    destruct (nth_error tokens (Z.to_nat j)) as [tk|] eqn:Htk; [|discriminate].
    rewrite (select_token_unfiltered E cfg tokens caps j tk Hnofilter) in H.
    assert (Hrange : token_range tokens j end_
                     = tk :: token_range tokens (j + 1) end_).
    { unfold token_range. rewrite (nth_error_skipn_cons _ _ _ Htk).
      replace (Z.to_nat (end_ - j)) with (S (Z.to_nat (end_ - (j + 1)))) by lia.
      replace (Z.to_nat (j + 1)) with (S (Z.to_nat j)) by lia. reflexivity. }
    rewrite Hrange in *. cbn [pieces_from List.concat] in *.
    rewrite length_app in Hh.
    replace (head curr >? AC_LINE_MAX E - 256) with false in H
      by (symmetry; rewrite Z.gtb_ltb; apply Z.ltb_ge; lia).
    set (curr1 := if cur
                  then set_len (len curr
                                + line_generator_get_text_width E
                                    (plain_token E cfg caps j tk)) curr
                  else curr) in *.
    assert (Hc1 : text curr1 = text curr /\ head curr1 = head curr
                  /\ start_head curr1 = start_head curr
                  /\ start_len curr1 = start_len curr)
      by (subst curr1; destruct cur; auto).
    destruct Hc1 as (Ht1 & Hh1 & Hs1 & Hl1).
    destruct (cur && (len curr1 >=? mw)); [discriminate|].
    unfold token_piece in Hh |- *.
    destruct (fade_alpha (logprob tk)) as [alpha|]; [|discriminate].
    set (s := format_token (fade_text cfg) alpha (plain_token E cfg caps j tk)) in *.
    assert (Hc2 : text (append_line s curr1) = text curr ++ s
                  /\ head (append_line s curr1)
                     = head curr + Z.of_nat (List.length s)
                  /\ start_head (append_line s curr1) = start_head curr
                  /\ start_len (append_line s curr1) = start_len curr).
    { unfold append_line, write_at; cbn. rewrite Ht1, Hh1, <- Htext.
      rewrite Z.leb_refl, Nat2Z.id, firstn_all. auto. }
    destruct Hc2 as (Ht2 & Hh2 & Hs2 & Hl2).
    destruct (head (append_line s curr1) <? AC_LINE_MAX E); [|discriminate].
    apply IH in H; try lia.
    + destruct H as (Ht' & Hh' & Hs' & Hl').
      rewrite Ht', Hh', Hs', Hl', Ht2, Hh2, Hs2, Hl2.
      rewrite <- app_assoc, length_app. repeat split; auto. lia.
    + rewrite Ht2, Hh2, length_app. lia.
Qed.

Lemma update_line_done_text (i : Z) (lg lg' : line_generator) :
  update_line E cfg tokens caps i lg = Done lg' ->
  let l := lines lg i in
  let s := active_start_of_lines lg i in
  let shown := pieces_from E cfg caps s
                 (token_range tokens s (line_end E tokens lg i)) in
  Z.of_nat (List.length tokens) <= 1024 ->
  0 <= s < Z.of_nat (List.length tokens) ->
  0 <= start_head l <= Z.of_nat (List.length (text l)) ->
  start_head l + Z.of_nat (List.length (List.concat shown))
  <= AC_LINE_MAX E - 256 ->
  text (lines lg' i)
  = firstn (Z.to_nat (start_head l)) (text l) ++ List.concat shown
  /\ head (lines lg' i)
     = start_head l + Z.of_nat (List.length (List.concat shown)).
Proof.
  cbn zeta. intros H Hn Hs Hsh Hh.
  unfold update_line in H.
  replace (active_start_of_lines lg i =? -1) with false in H
    by (symmetry; apply Z.eqb_neq; lia).
  rewrite size_t_of_small in H
    by (change (2 ^ 64) with 18446744073709551616; lia).
  destruct ((start_head (lines lg i) <? 0)
            || (start_head (lines lg i) >=? AC_LINE_MAX E)); [discriminate|].
  replace (Z.of_nat (List.length tokens) =? 0) with false in H
    by (symmetry; apply Z.eqb_neq; lia).
  replace (active_start_of_lines lg i >=? Z.of_nat (List.length tokens))
    with false in H by (symmetry; rewrite Z.geb_leb; apply Z.leb_gt; lia).
  cbn [current_line set_line active_start_of_lines max_text_width] in H.
  fold (line_end E tokens lg i) in H.
  rewrite (reset_line_inside _ Hsh) in H.
  match type of H with
  | context [print_line ?a ?b ?c ?d ?e ?f ?g ?h ?n ?j ?l] =>
      destruct (print_line a b c d e f g h n j l) as [l1|t l1|f1] eqn:Hp
  end; try discriminate.
  injection H as <-. cbn [lines set_line]. rewrite upd_same.
  apply print_line_done in Hp; cbn [text head start_head start_len] in *;
    try lia.
  - destruct Hp as (Ht & Hh' & _). split; assumption.
  - rewrite length_firstn. lia.
Qed.

Lemma update_lines_slot (i : Z) (idxs : list Z) :
  forall lg lg',
    NoDup idxs ->
    update_lines E cfg tokens caps idxs lg = Done lg' ->
    In i idxs ->
    exists lgm lgm',
      same_frame lg lgm
      /\ lines lgm i = lines lg i
      /\ update_line E cfg tokens caps i lgm = Done lgm'
      /\ lines lg' i = lines lgm' i.
Proof.
  induction idxs as [|i0 rest IH]; intros lg lg' Hnd Hu Hin; [destruct Hin|].
  cbn [update_lines] in Hu.
  destruct (update_line E cfg tokens caps i0 lg) as [lg1|r lg1|f] eqn:Hi;
    try discriminate.
  apply NoDup_cons_iff in Hnd. destruct Hnd as [Hnin Hnd].
  destruct (Z.eq_dec i i0) as [->|Hne].
  - exists lg, lg1. split; [apply same_frame_refl|]. split; [reflexivity|].
    split; [exact Hi|].
    exact (update_lines_outside E cfg tokens caps rest lg1 lg' Hu i0 Hnin).
  - destruct Hin as [Heq|Hin]; [congruence|].
    destruct (IH lg1 lg' Hnd Hu Hin) as (lgm & lgm' & Hfr & Hl & Hum & Hl').
    apply update_line_Done in Hi. destruct Hi as [Hfr0 Hk0].
    exists lgm, lgm'. split; [eapply same_frame_trans; eauto|].
    split; [rewrite Hl; now apply Hk0|]. split; assumption.
Qed.

End Drawn.

Lemma update_pass_done_text (E : externals) (cfg : gsettings)
    (tokens : list AprilToken) (lg lg' : line_generator) (i : Z) :
  update_pass E cfg tokens lg = Done lg' ->
  filter_active (filter_mode_of cfg) = false ->
  in_array E i = true ->
  let l := lines lg i in
  let s := active_start_of_lines lg i in
  let shown := pieces_from E cfg (snd (scan_of tokens lg)) s
                 (token_range tokens s (line_end E tokens lg i)) in
  0 <= s < Z.of_nat (List.length tokens) ->
  0 <= start_head l <= Z.of_nat (List.length (text l)) ->
  start_head l + Z.of_nat (List.length (List.concat shown))
  <= AC_LINE_MAX E - 256 ->
  text (lines lg' i)
  = firstn (Z.to_nat (start_head l)) (text l) ++ List.concat shown
  /\ head (lines lg' i)
     = start_head l + Z.of_nat (List.length (List.concat shown)).
Proof.
  cbn zeta. rewrite update_pass_unfold.
  destruct (Z.of_nat (List.length tokens) >? 1024) eqn:Hn; [discriminate|].
  rewrite Z.gtb_ltb in Hn. apply Z.ltb_ge in Hn.
  intros Hu Hnf Hi Hs Hsh Hh.
  destruct (update_lines_slot E cfg tokens (snd (scan_of tokens lg)) i (slots E)
              _ _ (slots_NoDup E) Hu (proj2 (in_slots E i) Hi))
    as (lgm & lgm' & Hfr & Hl & Hum & Hl').
  destruct Hfr as (Hc & Ha & _). cbn in Hc, Ha, Hl.
  rewrite Hl'.
  assert (Hend : line_end E tokens lgm i = line_end E tokens lg i)
    by (unfold line_end; now rewrite Hc, Ha).
  pose proof (update_line_done_text E cfg tokens (snd (scan_of tokens lg)) Hnf
                i lgm lgm' Hum) as H.
  cbn zeta in H. rewrite Hl, Ha, Hend in H. now apply H.
Qed.

(** X22. What a call that returned has drawn. With the filter off, every
    line of the array whose start marker points at a token shows, after its
    frozen prefix, exactly the pieces of the tokens from its start marker up
    to the start marker of the next slot of the ring (up to the last token
    for the growing line, and when the next slot is inactive), provided the
    checkpoint lies inside the text and that text ends at least 256 bytes
    before the end of the buffer; and its cursor sits at the end. *)
Theorem returned_call_draws_token_ranges (E : externals) (cfg : gsettings)
    (tokens : list AprilToken) (fuel : nat) (lg lg' : line_generator) (i : Z) :
  line_generator_update E cfg tokens fuel lg = Some (inl lg') ->
  filter_active (filter_mode_of cfg) = false ->
  in_array E i = true ->
  let l := lines lg' i in
  let s := active_start_of_lines lg' i in
  let shown := pieces_from E cfg (snd (scan_of tokens lg')) s
                 (token_range tokens s (line_end E tokens lg' i)) in
  0 <= s < Z.of_nat (List.length tokens) ->
  0 <= start_head l <= Z.of_nat (List.length (text l)) ->
  start_head l + Z.of_nat (List.length (List.concat shown))
  <= AC_LINE_MAX E - 256 ->
  text l = firstn (Z.to_nat (start_head l)) (text l) ++ List.concat shown
  /\ head l = start_head l + Z.of_nat (List.length (List.concat shown)).
Proof.
  unfold line_generator_update.
  destruct (update_trace E cfg tokens fuel lg) as [[rs res]|] eqn:Ht;
    [|discriminate].
  cbn [option_map snd]. intros H; injection H as ->.
  intros Hnf Hi. cbn zeta. intros Hs Hsh Hh.
  destruct (update_trace_last_pass E cfg tokens fuel lg lg' rs Ht) as (lgk & Hk).
  destruct (update_pass_idempotent E cfg tokens lgk lg' Hk)
    as (lg2 & Hp2 & _ & Hin).
  destruct (update_pass_done_text E cfg tokens lg' lg2 i Hp2 Hnf Hi Hs Hsh Hh)
    as [H1 H2].
  rewrite (Hin i (proj2 (in_slots E i) Hi)) in H1, H2. split; assumption.
Qed.

Lemma returned_call_draws_token_ranges_witness :
  string_of_list_ascii (text (lines two_lines_shown 0)) = " hello."%string
  /\ text (lines two_lines_shown 0)
     = List.concat
         (pieces_from E_ref cfg_plain
            (snd (scan_of tokens_hello_world two_lines_shown)) 0
            (token_range tokens_hello_world 0 3)).
Proof.
  split; [vm_compute; reflexivity|].
  destruct (returned_call_draws_token_ranges E_ref cfg_plain tokens_hello_world
              9 (fresh_generator E_ref 8) two_lines_shown 0) as [Ht _].
  - vm_compute. reflexivity.
  - reflexivity.
  - reflexivity.
  - vm_compute. split; congruence.
  - vm_compute. split; congruence.
  - vm_compute. congruence.
  - exact Ht.
Defined.

(** ** The width of the growing line *)

Lemma print_line_done_len (E : externals) (cfg : gsettings)
    (tokens : list AprilToken) (caps : list bool) (start mw end_ : Z) :
  forall (fuel : nat) (j : Z) (curr l' : line),
    print_line E cfg tokens caps true start mw end_ fuel j curr = LDone l' ->
    len l' = len curr \/ len l' < mw.
Proof.
  induction fuel as [|fuel IH]; intros j curr l' H; cbn [print_line] in H.
  - injection H as <-. now left.
  - destruct (j <? end_); [|injection H as <-; now left].
    destruct (nth_error tokens (Z.to_nat j)) as [tk|]; [|discriminate].
    destruct (select_token E cfg tokens caps j tk) as [tok skipahead].
    destruct (head curr >? AC_LINE_MAX E - 256); [injection H as <-; now left|].
    cbn [andb set_len len] in H.
    destruct (len curr + line_generator_get_text_width E tok >=? mw) eqn:Hw;
      [discriminate|].
    rewrite Z.geb_leb in Hw. apply Z.leb_gt in Hw.
    destruct (fade_alpha (logprob tk)) as [alpha|]; [|discriminate].
    match type of H with
    | (if ?c then _ else _) = _ => destruct c; [|discriminate]
    end.
    apply IH in H. cbn [append_line set_len len] in H. right. lia.
Qed.

Lemma update_line_done_len (E : externals) (cfg : gsettings)
    (tokens : list AprilToken) (caps : list bool) (lg lg' : line_generator) :
  let c := current_line lg in
  update_line E cfg tokens caps c lg = Done lg' ->
  active_start_of_lines lg c <> -1 ->
  len (lines lg' c) = start_len (lines lg c)
  \/ len (lines lg' c) < max_text_width lg.
Proof.
  cbn zeta. intros H Hact. unfold update_line in H.
  replace (active_start_of_lines lg (current_line lg) =? -1) with false in H
    by (symmetry; now apply Z.eqb_neq).
  destruct ((start_head (lines lg (current_line lg)) <? 0)
            || (start_head (lines lg (current_line lg)) >=? AC_LINE_MAX E));
    [discriminate|].
  destruct (Z.of_nat (List.length tokens) =? 0).
  { injection H as <-. cbn. rewrite upd_same. now left. }
  cbn [current_line set_line] in H. rewrite Z.eqb_refl in H.
  destruct (size_t_of (active_start_of_lines lg (current_line lg))
            >=? Z.of_nat (List.length tokens)); [discriminate|].
  match type of H with
  | context [print_line ?a ?b ?c ?d ?e ?f ?g ?h ?n ?j ?l] =>
      destruct (print_line a b c d e f g h n j l) as [l1|t l1|f1] eqn:Hp
  end; try discriminate.
  injection H as <-. cbn [lines set_line]. rewrite upd_same.
  apply print_line_done_len in Hp. exact Hp.
Qed.

(** X23. What wrapping guarantees: after a call of [line_generator_update]
    that returned, the width recorded for the growing line (when it is an
    active slot of the array) is below [max_text_width], unless nothing was
    added to the width frozen at its checkpoint. *)
Theorem growing_line_stays_narrower (E : externals) (cfg : gsettings)
    (tokens : list AprilToken) (fuel : nat) (lg lg' : line_generator) :
  line_generator_update E cfg tokens fuel lg = Some (inl lg') ->
  let c := current_line lg' in
  in_array E c = true ->
  active_start_of_lines lg' c <> -1 ->
  len (lines lg' c) = start_len (lines lg' c)
  \/ len (lines lg' c) < max_text_width lg'.
Proof.
  unfold line_generator_update.
  destruct (update_trace E cfg tokens fuel lg) as [[rs res]|] eqn:Ht;
    [|discriminate].
  cbn [option_map snd]. intros H; injection H as ->. cbn zeta. intros Hc Hact.
  destruct (update_trace_last_pass E cfg tokens fuel lg lg' rs Ht) as (lgk & Hk).
  rewrite update_pass_unfold in Hk.
  destruct (Z.of_nat (List.length tokens) >? 1024); [discriminate|].
  pose proof (update_lines_frame E cfg tokens (snd (scan_of tokens lgk))
                (slots E) (set_tcap (fst (scan_of tokens lgk)) lgk)) as Hf.
  rewrite Hk in Hf.
  destruct (same_frame_start_head _ _ (current_line lg') Hf) as [_ Hsl].
  destruct Hf as (Hcur & Ha & Hm & _). cbn in Hcur, Ha, Hm, Hsl.
  destruct (update_lines_slot E cfg tokens (snd (scan_of tokens lgk))
              (current_line lg') (slots E) _ _ (slots_NoDup E) Hk
              (proj2 (in_slots E _) Hc))
    as (lgm & lgm' & Hfr & Hl & Hum & Hl').
  destruct Hfr as (Hcm & Ham & Hmm & _). cbn in Hcm, Ham, Hmm, Hl.
  assert (Hcc : current_line lg' = current_line lgm) by congruence.
  rewrite Hcc in Hum.
  apply update_line_done_len in Hum; [|rewrite Ham, <- Hcc, <- Ha; exact Hact].
  rewrite <- Hcc in Hum. rewrite Hsl, Hm, Hl'. rewrite Hl, Hmm in Hum.
  exact Hum.
Qed.

Lemma growing_line_stays_narrower_witness :
  len (lines two_lines_shown 1) = start_len (lines two_lines_shown 1)
  \/ len (lines two_lines_shown 1) < max_text_width two_lines_shown.
Proof.
  apply (growing_line_stays_narrower E_ref cfg_plain tokens_hello_world 9
           (fresh_generator E_ref 8) two_lines_shown).
  - vm_compute. reflexivity.
  - reflexivity.
  - vm_compute. congruence.
Defined.

(** ** The cursor and the terminator *)

Lemma update_line_done_ok (E : externals) (cfg : gsettings)
    (tokens : list AprilToken) (caps : list bool) (i : Z)
    (lg lg' : line_generator) :
  update_line E cfg tokens caps i lg = Done lg' ->
  active_start_of_lines lg i <> -1 ->
  line_ok (lines lg' i).
Proof.
  intros H Hact. unfold update_line in H.
  replace (active_start_of_lines lg i =? -1) with false in H
    by (symmetry; now apply Z.eqb_neq).
  destruct ((start_head (lines lg i) <? 0)
            || (start_head (lines lg i) >=? AC_LINE_MAX E)) eqn:Hb;
    [discriminate|].
  apply orb_false_elim in Hb. destruct Hb as [Hb0 _]. apply Z.ltb_ge in Hb0.
  pose proof (reset_line_ok (lines lg i) Hb0) as Hok.
  destruct (Z.of_nat (List.length tokens) =? 0).
  { injection H as <-. cbn. now rewrite upd_same. }
  destruct (size_t_of (active_start_of_lines lg i)
            >=? Z.of_nat (List.length tokens)).
  { destruct (i =? current_line (set_line i (reset_line (lines lg i)) lg));
      [discriminate|].
    injection H as <-. cbn. now rewrite upd_same. }
  match type of H with
  | context [print_line ?a ?b ?c ?d ?e ?f ?g ?h ?n ?j ?l] =>
      pose proof (print_line_frozen a b c d e f g h n j l Hok) as Hp;
      destruct (print_line a b c d e f g h n j l) as [l1|t l1|f1]
  end; try discriminate.
  injection H as <-. cbn [lines set_line]. rewrite upd_same. apply Hp.
Qed.

(** X24. The cursor sits on the terminator: after a call of
    [line_generator_update] that returned, every active line of the array
    has its cursor at or after its checkpoint and at the end of its text
    ([text[head]] is the terminating NUL), unless the checkpoint itself lies
    past the end of the text. *)
Theorem cursor_sits_at_text_end (E : externals) (cfg : gsettings)
    (tokens : list AprilToken) (fuel : nat) (lg lg' : line_generator) (i : Z) :
  line_generator_update E cfg tokens fuel lg = Some (inl lg') ->
  in_array E i = true ->
  active_start_of_lines lg' i <> -1 ->
  0 <= start_head (lines lg' i) <= head (lines lg' i)
  /\ (Z.of_nat (List.length (text (lines lg' i))) = head (lines lg' i)
      \/ Z.of_nat (List.length (text (lines lg' i))) < start_head (lines lg' i)).
Proof.
  unfold line_generator_update.
  destruct (update_trace E cfg tokens fuel lg) as [[rs res]|] eqn:Ht;
    [|discriminate].
  cbn [option_map snd]. intros H; injection H as ->. intros Hi Hact.
  destruct (update_trace_last_pass E cfg tokens fuel lg lg' rs Ht) as (lgk & Hk).
  rewrite update_pass_unfold in Hk.
  destruct (Z.of_nat (List.length tokens) >? 1024); [discriminate|].
  pose proof (update_lines_frame E cfg tokens (snd (scan_of tokens lgk))
                (slots E) (set_tcap (fst (scan_of tokens lgk)) lgk)) as Hf.
  rewrite Hk in Hf. destruct Hf as (_ & Ha & _). cbn in Ha.
  destruct (update_lines_slot E cfg tokens (snd (scan_of tokens lgk))
              i (slots E) _ _ (slots_NoDup E) Hk (proj2 (in_slots E _) Hi))
    as (lgm & lgm' & Hfr & _ & Hum & Hl').
  destruct Hfr as (_ & Ham & _). cbn in Ham.
  rewrite Hl'. apply (update_line_done_ok E cfg tokens _ i lgm lgm' Hum).
  rewrite Ham, <- Ha. exact Hact.
Qed.

Lemma cursor_sits_at_text_end_witness :
  0 <= start_head (lines two_lines_shown 0) <= head (lines two_lines_shown 0)
  /\ (Z.of_nat (List.length (text (lines two_lines_shown 0)))
      = head (lines two_lines_shown 0)
      \/ Z.of_nat (List.length (text (lines two_lines_shown 0)))
         < start_head (lines two_lines_shown 0)).
Proof.
  apply (cursor_sits_at_text_end E_ref cfg_plain tokens_hello_world 9
           (fresh_generator E_ref 8) two_lines_shown 0).
  - vm_compute. reflexivity.
  - reflexivity.
  - vm_compute. congruence.
Defined.

(** ** An overflow does not go unnoticed *)

Section Noticed.

Variable E : externals.
Variable cfg : gsettings.
Variable tokens : list AprilToken.
Variable caps : list bool.

Local Abbreviation num_tokens := (Z.of_nat (List.length tokens)).

(** The scan only moves forward, and the token it finds is one of the
    array. *)
Lemma first_overflow_ge (mw : Z) :
  forall (fuel : nat) (j len r : Z),
    first_overflow E cfg tokens caps mw fuel j len = Some r ->
    0 <= j -> j <= r < num_tokens.
Proof.
  induction fuel as [|fuel IH]; intros j len r; [discriminate|].
  cbn [first_overflow].
  destruct (nth_error tokens (Z.to_nat j)) as [tk|] eqn:Htk; [|discriminate].
  assert (Hj : (Z.to_nat j < List.length tokens)%nat)
    by (apply nth_error_Some; congruence).
  pose proof (select_token_skip_pos E cfg tokens caps j tk) as Hp.
  destruct (select_token E cfg tokens caps j tk) as [tok skipahead].
  cbn [snd] in Hp.
  destruct (len + line_generator_get_text_width E tok >=? mw).
  - intros H; injection H as <-. lia.
  - intros H H0. apply IH in H; lia.
Qed.

(** The loop over the growing line does not run to its end past a token
    that overflows: if it ends normally, the margin of line 234 stopped
    it. *)
Lemma print_line_done_overflow (start mw end_ : Z) :
  forall (fuel : nat) (j : Z) (curr l' : line) (fuel2 : nat) (r : Z),
    print_line E cfg tokens caps true start mw end_ fuel j curr = LDone l' ->
    first_overflow E cfg tokens caps mw fuel2 j (len curr) = Some r ->
    0 <= j -> r - j < Z.of_nat fuel -> r < end_ ->
    AC_LINE_MAX E - 256 < head l'.
Proof.
  induction fuel as [|fuel IH]; intros j curr l' fuel2 r Hp Hov Hj Hf He.
  { apply first_overflow_ge in Hov; [lia|exact Hj]. }
  pose proof (first_overflow_ge _ _ _ _ _ Hov Hj) as Hr.
  destruct fuel2 as [|fuel2]; [discriminate|].
  cbn [print_line] in Hp. cbn [first_overflow] in Hov.
  assert (Hlt : (j <? end_) = true) by (apply Z.ltb_lt; lia).
  rewrite Hlt in Hp.
  destruct (nth_error tokens (Z.to_nat j)) as [tk|]; [|discriminate].
  pose proof (select_token_skip_pos E cfg tokens caps j tk) as Hs.
  destruct (select_token E cfg tokens caps j tk) as [tok skipahead].
  cbn [snd] in Hs.
  destruct (head curr >? AC_LINE_MAX E - 256) eqn:Hbrk.
  { injection Hp as <-. apply Z.gtb_lt in Hbrk. lia. }
  cbn [andb len set_len] in Hp.
  destruct (len curr + line_generator_get_text_width E tok >=? mw);
    [discriminate|].
  destruct (fade_alpha (logprob tk)) as [alpha|]; [|discriminate].
  match type of Hp with context [append_line ?s ?c] =>
    set (curr2 := append_line s c) in * end.
  destruct (head curr2 <? AC_LINE_MAX E); [|discriminate].
  pose proof (first_overflow_ge _ _ _ _ _ Hov ltac:(lia)) as Hr2.
  apply (IH (j + skipahead) curr2 l' fuel2 r Hp); try lia.
  exact Hov.
Qed.

Lemma update_line_done_overflow (i : Z) (lg lg' : line_generator) (r : Z) :
  update_line E cfg tokens caps i lg = Done lg' ->
  i = current_line lg ->
  num_tokens <= 1024 ->
  first_overflow E cfg tokens caps (max_text_width lg) (List.length tokens)
    (size_t_of (active_start_of_lines lg i)) (start_len (lines lg i))
  = Some r ->
  AC_LINE_MAX E - 256 < head (lines lg' i).
Proof.
  intros Hu Hi Hn Hov.
  pose proof (size_t_of_nonneg (active_start_of_lines lg i)) as H0.
  pose proof (first_overflow_ge _ _ _ _ _ Hov H0) as Hr.
  unfold update_line in Hu.
  destruct (active_start_of_lines lg i =? -1) eqn:Hact.
  { apply Z.eqb_eq in Hact. rewrite Hact in Hr.
    change (size_t_of (-1)) with (2 ^ 64 - 1) in Hr. lia. }
  destruct ((start_head (lines lg i) <? 0)
            || (start_head (lines lg i) >=? AC_LINE_MAX E)); [discriminate|].
  destruct (num_tokens =? 0) eqn:Hz; [apply Z.eqb_eq in Hz; lia|].
  destruct (size_t_of (active_start_of_lines lg i) >=? num_tokens) eqn:Hge.
  { apply Z.geb_le in Hge. lia. }
  cbn [current_line set_line active_start_of_lines max_text_width] in Hu.
  rewrite <- Hi, Z.eqb_refl, orb_true_r in Hu.
  match type of Hu with
  | context [print_line ?a ?b ?c ?d ?e ?f ?g ?h ?n ?j ?l] =>
      pose proof (print_line_done_overflow f g h n j l) as Hp;
      destruct (print_line a b c d e f g h n j l) as [l1|t l1|f1]
  end; try discriminate.
  injection Hu as <-. cbn [lines set_line]. rewrite upd_same.
  apply (Hp l1 (List.length tokens) r eq_refl); try lia.
  exact Hov.
Qed.

End Noticed.

(** X26. An overflow does not go unnoticed. When the growing line (a slot
    of the array) overflows at token [j] for the tokens of a call, the pass
    ends in the wrap tail call, which starts the next slot at the wrap
    point computed from [j]; it never backtracks and it completes only when
    the margin of line 234 stopped the growing line first, with its cursor
    above [AC_LINE_MAX - 256] (a pass may also fault). *)
Theorem overflowing_line_wraps (E : externals) (cfg : gsettings)
    (tokens : list AprilToken) (lg : line_generator) (j : Z) :
  in_array E (current_line lg) = true ->
  overflow_token E cfg tokens lg = Some j ->
  let c := current_line lg in
  match update_pass E cfg tokens lg with
  | Retry Wrap lg' =>
      current_line lg' = REL_LINE_IDX E c 1
      /\ active_start_of_lines lg' (current_line lg')
         = wrap_target tokens (size_t_of (active_start_of_lines lg c))
             (start_head (lines lg c)) j
  | Retry Backtrack _ => False
  | Done lg' => AC_LINE_MAX E - 256 < head (lines lg' c)
  | Fault _ => True
  end.
Proof.
  intros Hin Hov. cbn zeta.
  pose proof (size_t_of_nonneg (active_start_of_lines lg (current_line lg)))
    as H0.
  pose proof (first_overflow_ge _ _ _ _ _ _ _ _ _ Hov H0) as Hr.
  destruct (update_pass E cfg tokens lg) as [lg'|[|] lg'|f] eqn:Hp;
    [| | |exact I].
  - rewrite update_pass_unfold in Hp.
    destruct (Z.of_nat (List.length tokens) >? 1024) eqn:Hn; [discriminate|].
    rewrite Z.gtb_ltb in Hn. apply Z.ltb_ge in Hn.
    destruct (update_lines_slot E cfg tokens (snd (scan_of tokens lg))
                (current_line lg) (slots E) _ _ (slots_NoDup E) Hp
                (proj2 (in_slots E _) Hin))
      as (lgm & lgm' & Hfr & _ & Hum & Hl').
    destruct (same_frame_start_head _ _ (current_line lg) Hfr) as [_ Hsl].
    destruct Hfr as (Hc & Ha & Hm & _). cbn in Hc, Ha, Hm, Hsl.
    rewrite Hl'.
    apply (update_line_done_overflow E cfg tokens _ _ lgm lgm' j Hum);
      [now rewrite Hc|exact Hn|].
    rewrite Hm, Ha, Hsl. exact Hov.
  - apply update_pass_Backtrack in Hp. cbn zeta in Hp.
    destruct Hp as (_ & _ & _ & _ & Hge & _). lia.
  - apply update_pass_Wrap_at in Hp. cbn zeta in Hp.
    destruct Hp as (j' & Hov' & _ & Hc & Ht).
    rewrite Hov in Hov'. injection Hov' as <-. split; assumption.
Qed.

(** The theorem at work on an 8-unit line: " ab cd" fits, "ef" overflows
    at token 2, and the pass wraps to slot 1 at the word-boundary token
    1. *)
Lemma overflowing_line_wraps_witness :
  match update_pass E_ref cfg_plain tokens_two_words (fresh_generator E_ref 8)
  with
  | Retry Wrap lg' =>
      current_line lg' = 1 /\ active_start_of_lines lg' (current_line lg') = 1
  | _ => False
  end.
Proof.
  assert (Hin : in_array E_ref (current_line (fresh_generator E_ref 8)) = true)
    by reflexivity.
  assert (Hov : overflow_token E_ref cfg_plain tokens_two_words
                  (fresh_generator E_ref 8) = Some 2)
    by (vm_compute; reflexivity).
  pose proof (overflowing_line_wraps E_ref cfg_plain tokens_two_words
                (fresh_generator E_ref 8) 2 Hin Hov) as H.
  cbn zeta in H.
  destruct (update_pass E_ref cfg_plain tokens_two_words
              (fresh_generator E_ref 8)) as [lg'|[|] lg'|f] eqn:Hp.
  - vm_compute in Hp. discriminate.
  - exact H.
  - destruct H as [Hc Ht]. split; [exact Hc|]. rewrite Ht. reflexivity.
  - vm_compute in Hp. discriminate.
Defined.
